(** * Glyph scanner: a model of [script.js]

    The script shows one extruded character at a time, sweeps a light beam
    over it, lets the pointer spin it and reacts to taps.  This file embeds
    the script's state and its callbacks as functions on an explicit state and
    proves properties of them.

    Numbers.  Every JavaScript number that holds a coordinate, an angle, a
    time or a factor is modelled as a real number ([R]): the arithmetic is
    the exact one, rounding of IEEE doubles is not part of the model.  The
    character index, which the script only ever uses as an array position,
    is an integer ([Z]).

    Environment.  Readings of [Date.now()], of the [THREE.Clock] and of
    [Math.random()] are inputs of the callback that reads them.  Of three.js
    the model keeps what the script observes: [MathUtils.lerp], the bounding
    box of a [TextGeometry], the rotation and scale of a [Mesh], the
    membership of the scene and the disposal of geometries.  Rendering
    ([composer.render()]) and the resize handler touch none of the modelled
    state and are left out.

    Colours.  The script loads its font from the three.js 0.160.0
    distribution; from r152 on, three.js reads a hex colour as sRGB and keeps
    it in the working colour space, linear sRGB.  The components of a
    [Color] are these linear components, the ones the shader receives. *)

From Stdlib Require Import Reals Lra Lia ZArith List String Ascii Bool.
Import ListNotations.

Open Scope R_scope.

(** ** JavaScript primitives *)

Module JS.

(** [a < b] and [a > b] on numbers. *)
Definition lt (a b : R) : bool := if Rlt_dec a b then true else false.
Definition gt (a b : R) : bool := lt b a.

(** [Math.abs], [Math.sqrt], [Math.pow(x, 2)], [Math.floor], [Math.tan],
    [Math.PI]. *)
Definition Math_abs (x : R) : R := Rabs x.
Definition Math_sqrt (x : R) : R := sqrt x.
Definition Math_pow (x : R) (n : nat) : R := x ^ n.
Definition Math_floor (x : R) : Z := Int_part x.
Definition Math_tan (x : R) : R := tan x.
Definition Math_PI : R := PI.

(** [arr[i]]: [None] stands for [undefined]. *)
Definition index {A : Type} (arr : list A) (i : Z) : option A :=
  if (i <? 0)%Z then None else nth_error arr (Z.to_nat i).

(** [a % b] on integers: the sign follows the dividend. *)
Definition rem (a b : Z) : Z := Z.rem a b.

(** Strings: [s.split("")], [s.trim()], [a !== b]. *)
Definition split_chars (s : string) : list string :=
  map (fun c => String c EmptyString) (list_ascii_of_string s).

Definition isWhiteSpace (c : ascii) : bool :=
  let n := nat_of_ascii c in
  (Nat.eqb n 9 || Nat.eqb n 10 || Nat.eqb n 11 || Nat.eqb n 12
   || Nat.eqb n 13 || Nat.eqb n 32)%bool.

Fixpoint trimStart (s : string) : string :=
  match s with
  | EmptyString => EmptyString
  | String c r => if isWhiteSpace c then trimStart r else s
  end.

Definition reverse (s : string) : string :=
  string_of_list_ascii (rev (list_ascii_of_string s)).

Definition trim (s : string) : string :=
  reverse (trimStart (reverse (trimStart s))).

Definition strict_neq (a b : string) : bool := negb (String.eqb a b).

(** A callback that throws is [None]; [bind] sequences two steps. *)
Definition bind {A B : Type} (m : option A) (k : A -> option B) : option B :=
  match m with
  | Some a => k a
  | None => None
  end.

End JS.

Notation "x <- m ;; k" := (JS.bind m (fun x => k))
  (at level 61, m at next level, right associativity).

(** ** The part of three.js the script observes *)

Module THREE.

Record Vector2 := mkVector2 { v2x : R; v2y : R }.
Record Vector3 := mkVector3 { vx : R; vy : R; vz : R }.
Record Euler := mkEuler { ex : R; ey : R; ez : R }.
Record Color := mkColor { red : R; green : R; blue : R }.
Record Box3 := mkBox3 { bmin : Vector3; bmax : Vector3 }.

(** [SRGBToLinear(c)] of [ColorManagement]:
    [c < 0.04045 ? c * 0.0773993808 : Math.pow(c * 0.9478672986 + 0.0521327014, 2.4)]. *)
Definition SRGBToLinear (c : R) : R :=
  if JS.lt c 0.04045 then c * 0.0773993808
  else Rpower (c * 0.9478672986 + 0.0521327014) 2.4.

(** [new THREE.Color('#RRGGBB')] and [new THREE.Color(0xRRGGBB)] both come
    down to [setHex(hex)]: the three bytes, over 255, are the sRGB
    components, which [ColorManagement.toWorkingColorSpace] then converts to
    linear ones. *)
Definition setHex (hex : Z) : Color :=
  {| red := SRGBToLinear (IZR (Z.land (Z.shiftr hex 16) 255) / 255);
     green := SRGBToLinear (IZR (Z.land (Z.shiftr hex 8) 255) / 255);
     blue := SRGBToLinear (IZR (Z.land hex 255) / 255) |}.

(** [MathUtils.lerp(x, y, t)] is [(1 - t) * x + t * y]. *)
Definition lerp (x y t : R) : R := (1 - t) * x + t * y.

(** A loaded typeface, seen through the one thing the script asks of it:
    the bounding box of the [TextGeometry] built from a character with the
    script's fixed parameters (size 50, height 35, bevels). *)
Record Font := mkFont { textBounds : string -> Box3 }.

Record Geometry := mkGeometry { text : string; boundingBox : Box3 }.

Definition TextGeometry (char : string) (font : Font) : Geometry :=
  {| text := char; boundingBox := textBounds font char |}.

(** [geometry.translate(x, y, z)] followed by [computeBoundingBox()]. *)
Definition translateV (v : Vector3) (x y z : R) : Vector3 :=
  {| vx := vx v + x; vy := vy v + y; vz := vz v + z |}.

Definition translate (g : Geometry) (x y z : R) : Geometry :=
  {| text := text g;
     boundingBox := {| bmin := translateV (bmin (boundingBox g)) x y z;
                       bmax := translateV (bmax (boundingBox g)) x y z |} |}.

(** A mesh is an object: [meshId] is its identity, by which the scene and
    the record of disposed geometries refer to it. *)
Record Mesh := mkMesh {
  meshId : nat;
  geometry : Geometry;
  rotation : Euler;
  scale : Vector3
}.

Definition set_rotation (r : Euler) (m : Mesh) : Mesh :=
  {| meshId := meshId m; geometry := geometry m; rotation := r; scale := scale m |}.

Definition set_scale (v : Vector3) (m : Mesh) : Mesh :=
  {| meshId := meshId m; geometry := geometry m; rotation := rotation m; scale := v |}.

End THREE.

Import THREE.

(** ** Configuration *)

(** [CHARS = "KSHTC LOM".split("").filter(c => c.trim() !== "")]. *)
Definition CHARS : list string :=
  filter (fun c => JS.strict_neq (JS.trim c) EmptyString) (JS.split_chars "KSHTC LOM").

(** The three beam colours [#FF0000], [#FFFFFF] and [#0100FF]. *)
Definition BEAM_COLORS : list Color :=
  [ setHex 0xFF0000; setHex 0xFFFFFF; setHex 0x0100FF ].

Definition CYCLE_DURATION : R := 2.

Definition camera_fov : R := 45.

Definition friction : R := 0.99.


(** ** State

    The script's top-level variables, with their names, and the three.js
    objects it holds on to. *)

Record Uniforms := mkUniforms {
  uBeamColor : Color;
  uScanY : R;
  uClickFlash : R
}.

#[projections(primitive)]
Record State := mkState {
  charIndex : Z;
  currentMesh : option Mesh;
  meshStartTime : R;
  currentFont : option Font;
  geoTopY : R;
  geoBottomY : R;
  isDragging : bool;
  previousMouse : Vector2;
  rotationVelocity : Vector2;
  currentRotation : Euler;
  targetScale : R;
  currentScale : R;
  clickFlashValue : R;
  downTime : R;
  downPos : Vector2;
  uniforms : Uniforms;  (* [customMaterial.uniforms] *)
  cameraZ : R;  (* [camera.position.z] *)
  scene : list nat;  (* identities of the meshes in the scene *)
  disposed : list nat;  (* identities of the meshes whose geometry was disposed *)
  nextMeshId : nat;  (* identity of the next object [new THREE.Mesh] makes *)
  animating : bool  (* [requestAnimationFrame(animate)] is pending *)
}.

(** Assignment to one variable. *)

Definition set_charIndex (v : Z) (s : State) : State :=
  {| charIndex := v; currentMesh := currentMesh s; meshStartTime := meshStartTime s;
     currentFont := currentFont s; geoTopY := geoTopY s; geoBottomY := geoBottomY s;
     isDragging := isDragging s; previousMouse := previousMouse s;
     rotationVelocity := rotationVelocity s; currentRotation := currentRotation s;
     targetScale := targetScale s; currentScale := currentScale s;
     clickFlashValue := clickFlashValue s; downTime := downTime s;
     downPos := downPos s; uniforms := uniforms s; cameraZ := cameraZ s;
     scene := scene s; disposed := disposed s; nextMeshId := nextMeshId s;
     animating := animating s |}.

Definition set_currentMesh (v : option Mesh) (s : State) : State :=
  {| charIndex := charIndex s; currentMesh := v; meshStartTime := meshStartTime s;
     currentFont := currentFont s; geoTopY := geoTopY s; geoBottomY := geoBottomY s;
     isDragging := isDragging s; previousMouse := previousMouse s;
     rotationVelocity := rotationVelocity s; currentRotation := currentRotation s;
     targetScale := targetScale s; currentScale := currentScale s;
     clickFlashValue := clickFlashValue s; downTime := downTime s;
     downPos := downPos s; uniforms := uniforms s; cameraZ := cameraZ s;
     scene := scene s; disposed := disposed s; nextMeshId := nextMeshId s;
     animating := animating s |}.

Definition set_meshStartTime (v : R) (s : State) : State :=
  {| charIndex := charIndex s; currentMesh := currentMesh s; meshStartTime := v;
     currentFont := currentFont s; geoTopY := geoTopY s; geoBottomY := geoBottomY s;
     isDragging := isDragging s; previousMouse := previousMouse s;
     rotationVelocity := rotationVelocity s; currentRotation := currentRotation s;
     targetScale := targetScale s; currentScale := currentScale s;
     clickFlashValue := clickFlashValue s; downTime := downTime s;
     downPos := downPos s; uniforms := uniforms s; cameraZ := cameraZ s;
     scene := scene s; disposed := disposed s; nextMeshId := nextMeshId s;
     animating := animating s |}.

Definition set_currentFont (v : option Font) (s : State) : State :=
  {| charIndex := charIndex s; currentMesh := currentMesh s;
     meshStartTime := meshStartTime s; currentFont := v; geoTopY := geoTopY s;
     geoBottomY := geoBottomY s; isDragging := isDragging s;
     previousMouse := previousMouse s; rotationVelocity := rotationVelocity s;
     currentRotation := currentRotation s; targetScale := targetScale s;
     currentScale := currentScale s; clickFlashValue := clickFlashValue s;
     downTime := downTime s; downPos := downPos s; uniforms := uniforms s;
     cameraZ := cameraZ s; scene := scene s; disposed := disposed s;
     nextMeshId := nextMeshId s; animating := animating s |}.

Definition set_geoTopY (v : R) (s : State) : State :=
  {| charIndex := charIndex s; currentMesh := currentMesh s;
     meshStartTime := meshStartTime s; currentFont := currentFont s; geoTopY := v;
     geoBottomY := geoBottomY s; isDragging := isDragging s;
     previousMouse := previousMouse s; rotationVelocity := rotationVelocity s;
     currentRotation := currentRotation s; targetScale := targetScale s;
     currentScale := currentScale s; clickFlashValue := clickFlashValue s;
     downTime := downTime s; downPos := downPos s; uniforms := uniforms s;
     cameraZ := cameraZ s; scene := scene s; disposed := disposed s;
     nextMeshId := nextMeshId s; animating := animating s |}.

Definition set_geoBottomY (v : R) (s : State) : State :=
  {| charIndex := charIndex s; currentMesh := currentMesh s;
     meshStartTime := meshStartTime s; currentFont := currentFont s;
     geoTopY := geoTopY s; geoBottomY := v; isDragging := isDragging s;
     previousMouse := previousMouse s; rotationVelocity := rotationVelocity s;
     currentRotation := currentRotation s; targetScale := targetScale s;
     currentScale := currentScale s; clickFlashValue := clickFlashValue s;
     downTime := downTime s; downPos := downPos s; uniforms := uniforms s;
     cameraZ := cameraZ s; scene := scene s; disposed := disposed s;
     nextMeshId := nextMeshId s; animating := animating s |}.

Definition set_isDragging (v : bool) (s : State) : State :=
  {| charIndex := charIndex s; currentMesh := currentMesh s;
     meshStartTime := meshStartTime s; currentFont := currentFont s;
     geoTopY := geoTopY s; geoBottomY := geoBottomY s; isDragging := v;
     previousMouse := previousMouse s; rotationVelocity := rotationVelocity s;
     currentRotation := currentRotation s; targetScale := targetScale s;
     currentScale := currentScale s; clickFlashValue := clickFlashValue s;
     downTime := downTime s; downPos := downPos s; uniforms := uniforms s;
     cameraZ := cameraZ s; scene := scene s; disposed := disposed s;
     nextMeshId := nextMeshId s; animating := animating s |}.

Definition set_previousMouse (v : Vector2) (s : State) : State :=
  {| charIndex := charIndex s; currentMesh := currentMesh s;
     meshStartTime := meshStartTime s; currentFont := currentFont s;
     geoTopY := geoTopY s; geoBottomY := geoBottomY s; isDragging := isDragging s;
     previousMouse := v; rotationVelocity := rotationVelocity s;
     currentRotation := currentRotation s; targetScale := targetScale s;
     currentScale := currentScale s; clickFlashValue := clickFlashValue s;
     downTime := downTime s; downPos := downPos s; uniforms := uniforms s;
     cameraZ := cameraZ s; scene := scene s; disposed := disposed s;
     nextMeshId := nextMeshId s; animating := animating s |}.

Definition set_rotationVelocity (v : Vector2) (s : State) : State :=
  {| charIndex := charIndex s; currentMesh := currentMesh s;
     meshStartTime := meshStartTime s; currentFont := currentFont s;
     geoTopY := geoTopY s; geoBottomY := geoBottomY s; isDragging := isDragging s;
     previousMouse := previousMouse s; rotationVelocity := v;
     currentRotation := currentRotation s; targetScale := targetScale s;
     currentScale := currentScale s; clickFlashValue := clickFlashValue s;
     downTime := downTime s; downPos := downPos s; uniforms := uniforms s;
     cameraZ := cameraZ s; scene := scene s; disposed := disposed s;
     nextMeshId := nextMeshId s; animating := animating s |}.

Definition set_currentRotation (v : Euler) (s : State) : State :=
  {| charIndex := charIndex s; currentMesh := currentMesh s;
     meshStartTime := meshStartTime s; currentFont := currentFont s;
     geoTopY := geoTopY s; geoBottomY := geoBottomY s; isDragging := isDragging s;
     previousMouse := previousMouse s; rotationVelocity := rotationVelocity s;
     currentRotation := v; targetScale := targetScale s;
     currentScale := currentScale s; clickFlashValue := clickFlashValue s;
     downTime := downTime s; downPos := downPos s; uniforms := uniforms s;
     cameraZ := cameraZ s; scene := scene s; disposed := disposed s;
     nextMeshId := nextMeshId s; animating := animating s |}.

Definition set_targetScale (v : R) (s : State) : State :=
  {| charIndex := charIndex s; currentMesh := currentMesh s;
     meshStartTime := meshStartTime s; currentFont := currentFont s;
     geoTopY := geoTopY s; geoBottomY := geoBottomY s; isDragging := isDragging s;
     previousMouse := previousMouse s; rotationVelocity := rotationVelocity s;
     currentRotation := currentRotation s; targetScale := v;
     currentScale := currentScale s; clickFlashValue := clickFlashValue s;
     downTime := downTime s; downPos := downPos s; uniforms := uniforms s;
     cameraZ := cameraZ s; scene := scene s; disposed := disposed s;
     nextMeshId := nextMeshId s; animating := animating s |}.

Definition set_currentScale (v : R) (s : State) : State :=
  {| charIndex := charIndex s; currentMesh := currentMesh s;
     meshStartTime := meshStartTime s; currentFont := currentFont s;
     geoTopY := geoTopY s; geoBottomY := geoBottomY s; isDragging := isDragging s;
     previousMouse := previousMouse s; rotationVelocity := rotationVelocity s;
     currentRotation := currentRotation s; targetScale := targetScale s;
     currentScale := v; clickFlashValue := clickFlashValue s; downTime := downTime s;
     downPos := downPos s; uniforms := uniforms s; cameraZ := cameraZ s;
     scene := scene s; disposed := disposed s; nextMeshId := nextMeshId s;
     animating := animating s |}.

Definition set_clickFlashValue (v : R) (s : State) : State :=
  {| charIndex := charIndex s; currentMesh := currentMesh s;
     meshStartTime := meshStartTime s; currentFont := currentFont s;
     geoTopY := geoTopY s; geoBottomY := geoBottomY s; isDragging := isDragging s;
     previousMouse := previousMouse s; rotationVelocity := rotationVelocity s;
     currentRotation := currentRotation s; targetScale := targetScale s;
     currentScale := currentScale s; clickFlashValue := v; downTime := downTime s;
     downPos := downPos s; uniforms := uniforms s; cameraZ := cameraZ s;
     scene := scene s; disposed := disposed s; nextMeshId := nextMeshId s;
     animating := animating s |}.

Definition set_downTime (v : R) (s : State) : State :=
  {| charIndex := charIndex s; currentMesh := currentMesh s;
     meshStartTime := meshStartTime s; currentFont := currentFont s;
     geoTopY := geoTopY s; geoBottomY := geoBottomY s; isDragging := isDragging s;
     previousMouse := previousMouse s; rotationVelocity := rotationVelocity s;
     currentRotation := currentRotation s; targetScale := targetScale s;
     currentScale := currentScale s; clickFlashValue := clickFlashValue s;
     downTime := v; downPos := downPos s; uniforms := uniforms s; cameraZ := cameraZ s;
     scene := scene s; disposed := disposed s; nextMeshId := nextMeshId s;
     animating := animating s |}.

Definition set_downPos (v : Vector2) (s : State) : State :=
  {| charIndex := charIndex s; currentMesh := currentMesh s;
     meshStartTime := meshStartTime s; currentFont := currentFont s;
     geoTopY := geoTopY s; geoBottomY := geoBottomY s; isDragging := isDragging s;
     previousMouse := previousMouse s; rotationVelocity := rotationVelocity s;
     currentRotation := currentRotation s; targetScale := targetScale s;
     currentScale := currentScale s; clickFlashValue := clickFlashValue s;
     downTime := downTime s; downPos := v; uniforms := uniforms s;
     cameraZ := cameraZ s; scene := scene s; disposed := disposed s;
     nextMeshId := nextMeshId s; animating := animating s |}.

Definition set_uniforms (v : Uniforms) (s : State) : State :=
  {| charIndex := charIndex s; currentMesh := currentMesh s;
     meshStartTime := meshStartTime s; currentFont := currentFont s;
     geoTopY := geoTopY s; geoBottomY := geoBottomY s; isDragging := isDragging s;
     previousMouse := previousMouse s; rotationVelocity := rotationVelocity s;
     currentRotation := currentRotation s; targetScale := targetScale s;
     currentScale := currentScale s; clickFlashValue := clickFlashValue s;
     downTime := downTime s; downPos := downPos s; uniforms := v; cameraZ := cameraZ s;
     scene := scene s; disposed := disposed s; nextMeshId := nextMeshId s;
     animating := animating s |}.

Definition set_cameraZ (v : R) (s : State) : State :=
  {| charIndex := charIndex s; currentMesh := currentMesh s;
     meshStartTime := meshStartTime s; currentFont := currentFont s;
     geoTopY := geoTopY s; geoBottomY := geoBottomY s; isDragging := isDragging s;
     previousMouse := previousMouse s; rotationVelocity := rotationVelocity s;
     currentRotation := currentRotation s; targetScale := targetScale s;
     currentScale := currentScale s; clickFlashValue := clickFlashValue s;
     downTime := downTime s; downPos := downPos s; uniforms := uniforms s;
     cameraZ := v; scene := scene s; disposed := disposed s;
     nextMeshId := nextMeshId s; animating := animating s |}.

Definition set_scene (v : list nat) (s : State) : State :=
  {| charIndex := charIndex s; currentMesh := currentMesh s;
     meshStartTime := meshStartTime s; currentFont := currentFont s;
     geoTopY := geoTopY s; geoBottomY := geoBottomY s; isDragging := isDragging s;
     previousMouse := previousMouse s; rotationVelocity := rotationVelocity s;
     currentRotation := currentRotation s; targetScale := targetScale s;
     currentScale := currentScale s; clickFlashValue := clickFlashValue s;
     downTime := downTime s; downPos := downPos s; uniforms := uniforms s;
     cameraZ := cameraZ s; scene := v; disposed := disposed s;
     nextMeshId := nextMeshId s; animating := animating s |}.

Definition set_disposed (v : list nat) (s : State) : State :=
  {| charIndex := charIndex s; currentMesh := currentMesh s;
     meshStartTime := meshStartTime s; currentFont := currentFont s;
     geoTopY := geoTopY s; geoBottomY := geoBottomY s; isDragging := isDragging s;
     previousMouse := previousMouse s; rotationVelocity := rotationVelocity s;
     currentRotation := currentRotation s; targetScale := targetScale s;
     currentScale := currentScale s; clickFlashValue := clickFlashValue s;
     downTime := downTime s; downPos := downPos s; uniforms := uniforms s;
     cameraZ := cameraZ s; scene := scene s; disposed := v; nextMeshId := nextMeshId s;
     animating := animating s |}.

Definition set_nextMeshId (v : nat) (s : State) : State :=
  {| charIndex := charIndex s; currentMesh := currentMesh s;
     meshStartTime := meshStartTime s; currentFont := currentFont s;
     geoTopY := geoTopY s; geoBottomY := geoBottomY s; isDragging := isDragging s;
     previousMouse := previousMouse s; rotationVelocity := rotationVelocity s;
     currentRotation := currentRotation s; targetScale := targetScale s;
     currentScale := currentScale s; clickFlashValue := clickFlashValue s;
     downTime := downTime s; downPos := downPos s; uniforms := uniforms s;
     cameraZ := cameraZ s; scene := scene s; disposed := disposed s; nextMeshId := v;
     animating := animating s |}.

Definition set_animating (v : bool) (s : State) : State :=
  {| charIndex := charIndex s; currentMesh := currentMesh s;
     meshStartTime := meshStartTime s; currentFont := currentFont s;
     geoTopY := geoTopY s; geoBottomY := geoBottomY s; isDragging := isDragging s;
     previousMouse := previousMouse s; rotationVelocity := rotationVelocity s;
     currentRotation := currentRotation s; targetScale := targetScale s;
     currentScale := currentScale s; clickFlashValue := clickFlashValue s;
     downTime := downTime s; downPos := downPos s; uniforms := uniforms s;
     cameraZ := cameraZ s; scene := scene s; disposed := disposed s;
     nextMeshId := nextMeshId s; animating := v |}.

Definition set_uBeamColor (c : Color) (s : State) : State :=
  set_uniforms {| uBeamColor := c; uScanY := uScanY (uniforms s);
                  uClickFlash := uClickFlash (uniforms s) |} s.

Definition set_uScanY (v : R) (s : State) : State :=
  set_uniforms {| uBeamColor := uBeamColor (uniforms s); uScanY := v;
                  uClickFlash := uClickFlash (uniforms s) |} s.

Definition set_uClickFlash (v : R) (s : State) : State :=
  set_uniforms {| uBeamColor := uBeamColor (uniforms s); uScanY := uScanY (uniforms s);
                  uClickFlash := v |} s.

(** The state when the script has been evaluated: [r1], [r2], [r3] are the
    three readings of [Math.random()] behind the initial rotation. *)
Definition initialState (r1 r2 r3 : R) : State :=
  {| charIndex := 0;
     currentMesh := None;
     meshStartTime := 0;
     currentFont := None;
     geoTopY := 0;
     geoBottomY := 0;
     isDragging := false;
     previousMouse := mkVector2 0 0;
     rotationVelocity := mkVector2 0 0;
     currentRotation := mkEuler ((r1 - 0.5) * JS.Math_PI * 2)
                                ((r2 - 0.5) * JS.Math_PI * 2)
                                ((r3 - 0.5) * JS.Math_PI * 2);
     targetScale := 1.0;
     currentScale := 1.0;
     clickFlashValue := 0.0;
     downTime := 0;
     downPos := mkVector2 0 0;
     uniforms := {| uBeamColor := mkColor 1 1 1; uScanY := 0.0; uClickFlash := 0.0 |};
     cameraZ := 100;
     scene := [];
     disposed := [];
     nextMeshId := O;
     animating := false |}.

(** ** createLetter *)

(** [scene.remove(mesh)]: the object leaves the scene's children. *)
Fixpoint removeChild (id : nat) (children : list nat) : list nat :=
  match children with
  | [] => []
  | c :: rest => if Nat.eqb c id then rest else c :: removeChild id rest
  end.

(** The three steps taken on the previous mesh, in the script's order. *)
Definition saveRotation (m : Mesh) (s : State) : State :=
  set_currentRotation
    {| ex := ex (rotation m); ey := ey (rotation m); ez := ez (rotation m) |} s.

Definition sceneRemove (m : Mesh) (s : State) : State :=
  set_scene (removeChild (meshId m) (scene s)) s.

Definition geometryDispose (m : Mesh) (s : State) : State :=
  set_disposed (meshId m :: disposed s) s.

Definition retirePrevious (s : State) : State :=
  match currentMesh s with
  | Some m => geometryDispose m (sceneRemove m (saveRotation m s))
  | None => s
  end.

(** The camera fit at the end of [createLetter]: the value assigned to
    [camera.position.z] for a geometry of height [sizeY]. *)
Definition cameraFit (sizeY : R) : R :=
  let fov := camera_fov * (JS.Math_PI / 180) in
  let targetH := sizeY * 0.9 in
  let dist := targetH / (2 * JS.Math_tan (fov / 2)) in
  dist + 40.

(** [createLetter()]; [rnd] is the reading of [Math.random()] that picks the
    beam colour.  [None]: a [TypeError] is thrown, which happens when
    [CHARS[charIndex]] or the picked colour is [undefined]. *)
Definition createLetter (rnd : R) (s : State) : option State :=
  match currentFont s with
  | None => Some s
  | Some font =>
      let s := retirePrevious s in
      char <- JS.index CHARS (charIndex s) ;;
      beamColor <- JS.index BEAM_COLORS
                     (JS.Math_floor (rnd * INR (List.length BEAM_COLORS))) ;;
      let geometry := TextGeometry char font in
      let box := boundingBox geometry in
      let sizeY := vy (bmax box) - vy (bmin box) in
      let s := set_geoTopY (vy (bmax box)) s in
      let s := set_geoBottomY (vy (bmin box)) s in
      let centerOffsetX := - 0.5 * (vx (bmax box) + vx (bmin box)) in
      let centerOffsetY := - 0.5 * (vy (bmax box) + vy (bmin box)) in
      let centerOffsetZ := - 0.5 * (vz (bmax box) + vz (bmin box)) in
      let geometry := translate geometry centerOffsetX centerOffsetY centerOffsetZ in
      let s := set_geoTopY (vy (bmax (boundingBox geometry))) s in
      let s := set_geoBottomY (vy (bmin (boundingBox geometry))) s in
      let mesh := {| meshId := nextMeshId s; geometry := geometry;
                     rotation := mkEuler 0 0 0; scale := mkVector3 1 1 1 |} in
      let s := set_nextMeshId (S (nextMeshId s)) s in
      let mesh := set_rotation {| ex := ex (currentRotation s);
                                  ey := ey (currentRotation s);
                                  ez := ez (currentRotation s) |} mesh in
      let mesh := set_scale (mkVector3 1.2 0.8 1.0) mesh in
      let s := set_currentMesh (Some mesh) s in
      let s := set_uBeamColor beamColor s in
      let s := set_uClickFlash 0.0 s in
      let s := set_scene (scene s ++ [meshId mesh]) s in
      Some (set_cameraZ (cameraFit sizeY) s)
  end.

(** ** Pointer and touch handlers

    [now] is the reading of [Date.now()], in milliseconds. *)

Definition onDown (x y now : R) (s : State) : State :=
  let s := set_isDragging true s in
  let s := set_previousMouse (mkVector2 x y) s in
  let s := set_downPos (mkVector2 x y) s in
  let s := set_downTime now s in
  set_rotationVelocity (mkVector2 0 0) s.

Definition onMove (x y : R) (s : State) : State :=
  match isDragging s, currentMesh s with
  | true, Some mesh =>
      let deltaX := x - v2x (previousMouse s) in
      let deltaY := y - v2y (previousMouse s) in
      let s := set_rotationVelocity (mkVector2 (deltaY * 0.01) (deltaX * 0.01)) s in
      let mesh := set_rotation
                    {| ex := ex (rotation mesh) + v2x (rotationVelocity s);
                       ey := ey (rotation mesh) + v2y (rotationVelocity s);
                       ez := ez (rotation mesh) |} mesh in
      let s := set_currentMesh (Some mesh) s in
      set_previousMouse (mkVector2 x y) s
  | _, _ => s
  end.

(** The two quantities tap detection looks at, and its test. *)
Definition holdTime (now : R) (s : State) : R := now - downTime s.

Definition travel (x y : R) (s : State) : R :=
  JS.Math_sqrt (JS.Math_pow (x - v2x (downPos s)) 2 + JS.Math_pow (y - v2y (downPos s)) 2).

Definition isTap (timeDelta dist : R) : bool :=
  (JS.lt timeDelta 250 && JS.lt dist 5)%bool.

Definition onUp (x y now : R) (s : State) : State :=
  let s := set_isDragging false s in
  let timeDelta := holdTime now s in
  let dist := travel x y s in
  if isTap timeDelta dist then
    let s := set_currentScale 1.1 s in
    let s := set_targetScale 1.0 s in
    set_clickFlashValue 0.5 s
  else s.

(** The listeners: a touch list is the list of the positions of its touches. *)
Definition onTouchStart (touches : list Vector2) (now : R) (s : State) : State :=
  match touches with
  | t :: _ => onDown (v2x t) (v2y t) now s
  | [] => s
  end.

Definition onTouchMove (touches : list Vector2) (s : State) : State :=
  match touches with
  | t :: _ => onMove (v2x t) (v2y t) s
  | [] => s
  end.

Definition onTouchEnd (changedTouches : list Vector2) (now : R) (s : State) : State :=
  match changedTouches with
  | t :: _ => onUp (v2x t) (v2y t) now s
  | [] => onUp (v2x (previousMouse s)) (v2y (previousMouse s)) now s
  end.

(** ** The frame callback *)

(** Mutation of the current mesh through the reference [currentMesh]. *)
Definition rotateMesh (dx dy dz : R) (s : State) : State :=
  match currentMesh s with
  | Some mesh =>
      set_currentMesh
        (Some (set_rotation {| ex := ex (rotation mesh) + dx;
                               ey := ey (rotation mesh) + dy;
                               ez := ez (rotation mesh) + dz |} mesh)) s
  | None => s
  end.

Definition scaleMesh (x y z : R) (s : State) : State :=
  match currentMesh s with
  | Some mesh => set_currentMesh (Some (set_scale (mkVector3 x y z) mesh)) s
  | None => s
  end.

(** 1. Cycle logic. *)
Definition cycleLogic (now rnd elapsed : R) (s : State) : option State :=
  if JS.gt elapsed CYCLE_DURATION then
    let s := set_charIndex (JS.rem (charIndex s + 1) (Z.of_nat (List.length CHARS))) s in
    s <- createLetter rnd s ;;
    Some (set_meshStartTime now s)
  else Some s.

(** 2. Scan logic. *)
Definition scanPosition (topY bottomY progress : R) : R :=
  let margin := 250.0 in
  let startY := topY + margin in
  let endY := bottomY - margin in
  lerp startY endY progress.

Definition scanLogic (elapsed : R) (s : State) : State :=
  let progress := elapsed / CYCLE_DURATION in
  let currentScanY := scanPosition (geoTopY s) (geoBottomY s) progress in
  set_uScanY currentScanY s.

(** 3. Rotation logic. *)
Definition isSlow (v : Vector2) : bool :=
  (JS.lt (JS.Math_abs (v2x v)) 0.001 && JS.lt (JS.Math_abs (v2y v)) 0.001)%bool.

Definition rotationLogic (s : State) : State :=
  if negb (isDragging s) then
    let s := rotateMesh (v2x (rotationVelocity s)) (v2y (rotationVelocity s)) 0 s in
    let s := set_rotationVelocity
               (mkVector2 (v2x (rotationVelocity s) * friction)
                          (v2y (rotationVelocity s) * friction)) s in
    if isSlow (rotationVelocity s) then rotateMesh 0.0002 0.0003 0.0001 s else s
  else s.

(** 4. Click effect physics. *)
Definition clickEffect (s : State) : State :=
  let s := set_currentScale (lerp (currentScale s) (targetScale s) 0.1) s in
  let s := scaleMesh (currentScale s * 1.2) (currentScale s * 0.8) (currentScale s) s in
  let s := set_clickFlashValue (lerp (clickFlashValue s) 0.0 0.05) s in
  set_uClickFlash (clickFlashValue s) s.

(** [animate()]; [now] is the reading of [clock.getElapsedTime()], in
    seconds, and [rnd] the reading of [Math.random()] used if a letter is
    created. *)
Definition animate (now rnd : R) (s : State) : option State :=
  let s := set_animating true s in
  let elapsed := now - meshStartTime s in
  s <- cycleLogic now rnd elapsed s ;;
  match currentMesh s with
  | Some _ => Some (clickEffect (rotationLogic (scanLogic elapsed s)))
  | None => Some s
  end.

(** The callback of [loader.load]: [t0] and [now] are the two readings of the
    clock, [rnd] and [rnd'] the readings of [Math.random()] of [createLetter]
    and of the first [animate]. *)
Definition onFontLoaded (font : Font) (rnd t0 now rnd' : R) (s : State) : option State :=
  let s := set_currentFont (Some font) s in
  s <- createLetter rnd s ;;
  let s := set_meshStartTime t0 s in
  animate now rnd' s.

(** ** Events

    What the host can deliver to the script, with the readings each callback
    takes from the environment. *)

Inductive Event :=
| MouseDown (x y now : R)
| MouseMove (x y : R)
| MouseUp (x y now : R)
| TouchStart (touches : list Vector2) (now : R)
| TouchMove (touches : list Vector2)
| TouchEnd (changedTouches : list Vector2) (now : R)
| FontLoaded (font : Font) (rnd t0 now rnd' : R)
| Frame (now rnd : R).

Definition dispatch (e : Event) (s : State) : option State :=
  match e with
  | MouseDown x y now => Some (onDown x y now s)
  | MouseMove x y => Some (onMove x y s)
  | MouseUp x y now => Some (onUp x y now s)
  | TouchStart touches now => Some (onTouchStart touches now s)
  | TouchMove touches => Some (onTouchMove touches s)
  | TouchEnd changedTouches now => Some (onTouchEnd changedTouches now s)
  | FontLoaded font rnd t0 now rnd' => onFontLoaded font rnd t0 now rnd' s
  | Frame now rnd => animate now rnd s
  end.

(** The font arrives once, and frames come only once [animate] has asked
    for them. *)
Definition enabled (e : Event) (s : State) : Prop :=
  match e with
  | FontLoaded _ _ _ _ _ => currentFont s = None
  | Frame _ _ => animating s = true
  | _ => True
  end.

(** [Math.random()] reads a number in [[0, 1)]. *)
Definition isRandom (u : R) : Prop := 0 <= u < 1.

Definition wellFormed (e : Event) : Prop :=
  match e with
  | FontLoaded _ rnd _ _ rnd' => isRandom rnd /\ isRandom rnd'
  | Frame _ rnd => isRandom rnd
  | _ => True
  end.

Inductive reachable : State -> Prop :=
| reach_init (r1 r2 r3 : R) : reachable (initialState r1 r2 r3)
| reach_step (s s' : State) (e : Event) :
    reachable s -> enabled e s -> wellFormed e -> dispatch e s = Some s' ->
    reachable s'.

(** ** The fragment shader *)

Module GLSL.

Definition clamp (x lo hi : R) : R := Rmin (Rmax x lo) hi.

Definition smoothstep (edge0 edge1 x : R) : R :=
  let t := clamp ((x - edge0) / (edge1 - edge0)) 0 1 in
  t * t * (3 - 2 * t).

(** [pow(x, 2.0)], which GLSL defines for [x >= 0]. *)
Definition pow2 (x : R) : R := x ^ 2.

Definition dot (a b : Vector3) : R := vx a * vx b + vy a * vy b + vz a * vz b.

Definition normalize (a : Vector3) : Vector3 :=
  let len := sqrt (dot a a) in
  {| vx := vx a / len; vy := vy a / len; vz := vz a / len |}.

End GLSL.

Module Shader.

Record Varyings := mkVaryings {
  vPosition : Vector3;
  vNormal : Vector3;
  vViewPosition : Vector3
}.

(** 1. Scanning beam: the intensity at signed height [dist] over the scan line. *)
Definition beamIntensity (dist : R) : R :=
  let spreadTop := 180.0 in
  let spreadBottom := 100.0 in
  let spread := if Rgt_dec dist 0.0 then spreadTop else spreadBottom in
  let beamIntensity := 1.0 - GLSL.smoothstep 0.0 spread (Rabs dist) in
  let beamIntensity := GLSL.pow2 beamIntensity in
  beamIntensity * 0.6.

(** 2. Rim term of a surface whose normal makes [NdotV] with the view direction. *)
Definition rimOf (NdotV : R) : R :=
  let rim := 1.0 - Rmax 0.0 NdotV in
  GLSL.pow2 rim.

(** Combined light map and, 3., the click flash. *)
Definition totalLight (beamIntensity rim uClickFlash : R) : R :=
  let edgeBoost := rim * 0.8 in
  let totalLight := beamIntensity + (beamIntensity * edgeBoost * 2.0) in
  totalLight * (1.0 + uClickFlash).

(** [main()]: the colour written to [gl_FragColor] (its alpha is 1). *)
Definition main (u : Uniforms) (v : Varyings) : Color :=
  let normal := GLSL.normalize (vNormal v) in
  let viewDir := GLSL.normalize (vViewPosition v) in
  let dist := vy (vPosition v) - uScanY u in
  let NdotV := GLSL.dot normal viewDir in
  let light := totalLight (beamIntensity dist) (rimOf NdotV) (uClickFlash u) in
  {| red := red (uBeamColor u) * light;
     green := green (uBeamColor u) * light;
     blue := blue (uBeamColor u) * light |}.

End Shader.

(** ** Sequences of events, and sample states *)

(** Frames at successive clock readings, each with its random reading. *)
Fixpoint frames (ticks : list (R * R)) (s : State) : option State :=
  match ticks with
  | [] => Some s
  | (now, rnd) :: rest => s' <- animate now rnd s ;; frames rest s'
  end.

(** The state after an event, or after a list of them; a callback that
    throws leaves the state it was run from. *)
Definition after (e : Event) (s : State) : State :=
  match dispatch e s with
  | Some s' => s'
  | None => s
  end.

Definition run (es : list Event) (s : State) : State :=
  fold_left (fun st e => after e st) es s.

(** A sample typeface, every glyph of which is the box [[0,40] x [0,50] x
    [0,47]], and the state once it has arrived, the clock reading 0. *)
Definition sampleFont : Font :=
  {| textBounds := fun _ => mkBox3 (mkVector3 0 0 0) (mkVector3 40 50 47) |}.

Definition loadedState : State :=
  after (FontLoaded sampleFont 0 0 0 0) (initialState 0.5 0.5 0.5).

(** The loaded state after a slow drag: a touch at (0, 0), a move to
    (0, 0.05) and its end there one second after the start. *)
Definition nudged : State :=
  run [TouchStart [mkVector2 0 0] 0; TouchMove [mkVector2 0 0.05];
       TouchEnd [mkVector2 0 0.05] 1000] loadedState.

(** Two frames, at clock readings 1 and 3. *)
Definition twoFrames : list (R * R) := [(1, 0); (3, 0)].

(** The number of frames, among those at the clock readings [nows], that find
    the cycle started at [start] expired, and the start of the cycle they
    leave. *)
Fixpoint expiries (start : R) (nows : list R) : nat :=
  match nows with
  | [] => O
  | now :: rest =>
      if JS.gt (now - start) CYCLE_DURATION then S (expiries now rest)
      else expiries start rest
  end.

Fixpoint cycleStart (start : R) (nows : list R) : R :=
  match nows with
  | [] => start
  | now :: rest =>
      if JS.gt (now - start) CYCLE_DURATION then cycleStart now rest
      else cycleStart start rest
  end.

(** Clock readings that never go back, from [prev] on. *)
Fixpoint monotonic (prev : R) (nows : list R) : Prop :=
  match nows with
  | [] => True
  | now :: rest => prev <= now /\ monotonic now rest
  end.


(** ** Notions used in the statements *)

Definition validIndex (i : Z) : Prop := (0 <= i < Z.of_nat (List.length CHARS))%Z.

(** The variables [createLetter] never assigns. *)
Definition sameControls (s s' : State) : Prop :=
  charIndex s' = charIndex s /\ meshStartTime s' = meshStartTime s /\
  currentFont s' = currentFont s /\ isDragging s' = isDragging s /\
  previousMouse s' = previousMouse s /\ rotationVelocity s' = rotationVelocity s /\
  targetScale s' = targetScale s /\ currentScale s' = currentScale s /\
  clickFlashValue s' = clickFlashValue s /\ downTime s' = downTime s /\
  downPos s' = downPos s /\ animating s' = animating s.

(** The rotation a new mesh starts from. *)
Definition carriedRotation (s : State) : Euler :=
  match currentMesh s with
  | Some m => rotation m
  | None => currentRotation s
  end.

(** The steps of [animate] that follow the cycle logic when a mesh exists. *)
Definition afterCycle (elapsed : R) (s : State) : State :=
  clickEffect (rotationLogic (scanLogic elapsed s)).

(** The state [createLetter] starts from when the cycle has expired. *)
Definition advanced (s : State) : State :=
  set_charIndex (JS.rem (charIndex s + 1) (Z.of_nat (List.length CHARS)))
    (set_animating true s).

(** Before the font arrives there is no mesh and no frame loop; afterwards
    there are both.  The index is a position of [CHARS] throughout. *)
Definition loadedness (s : State) : Prop :=
  (currentFont s = None /\ currentMesh s = None /\ animating s = false) \/
  (exists font m, currentFont s = Some font /\ currentMesh s = Some m /\ animating s = true).

Definition invariant (s : State) : Prop :=
  validIndex (charIndex s) /\ loadedness s.

(** Velocity and rotation after the rotation logic of one frame. *)
Definition damped (s : State) : Vector2 :=
  if isDragging s then rotationVelocity s
  else mkVector2 (v2x (rotationVelocity s) * friction) (v2y (rotationVelocity s) * friction).

Definition turned (s : State) (r : Euler) : Euler :=
  if isDragging s then r
  else if isSlow (damped s) then
    mkEuler (ex r + v2x (rotationVelocity s) + 0.0002)
            (ey r + v2y (rotationVelocity s) + 0.0003)
            (ez r + 0.0001)
  else
    mkEuler (ex r + v2x (rotationVelocity s)) (ey r + v2y (rotationVelocity s)) (ez r).

(** ** Notions used in the further properties *)

(** A drag through the points [pts]: one move event per point. *)
Definition drag (pts : list Vector2) (s : State) : State :=
  fold_left (fun st p => onMove (v2x p) (v2y p) st) pts s.


(** The pointer and touch events. *)
Definition isPointerEvent (e : Event) : bool :=
  match e with
  | FontLoaded _ _ _ _ _ | Frame _ _ => false
  | _ => true
  end.

(** What the show consists of, apart from the interaction: two states agree
    on it when they have the same index, cycle start, font, scan bounds,
    uniforms, camera, scene, disposals and object counter, and their current
    meshes, if any, are the same object with the same geometry, scale and
    rotation about z. *)
Definition sameShow (s s' : State) : Prop :=
  charIndex s' = charIndex s /\ meshStartTime s' = meshStartTime s /\
  currentFont s' = currentFont s /\
  geoTopY s' = geoTopY s /\ geoBottomY s' = geoBottomY s /\
  uniforms s' = uniforms s /\ cameraZ s' = cameraZ s /\
  scene s' = scene s /\ disposed s' = disposed s /\ nextMeshId s' = nextMeshId s /\
  animating s' = animating s /\ currentRotation s' = currentRotation s /\
  match currentMesh s, currentMesh s' with
  | None, None => True
  | Some m, Some m' =>
      meshId m' = meshId m /\ geometry m' = geometry m /\ scale m' = scale m /\
      ez (rotation m') = ez (rotation m)
  | _, _ => False
  end.

(** A state that awaits the font, at the orientation [r]: no font, no mesh,
    no velocity, and the index still at the first character. *)
Definition awaiting (r : Euler) (s : State) : Prop :=
  currentFont s = None /\ currentMesh s = None /\
  rotationVelocity s = mkVector2 0 0 /\ currentRotation s = r /\ charIndex s = 0%Z.

(** One mesh at a time: the scene holds the current mesh and nothing else,
    and the geometries disposed so far are those of all the meshes made
    before it, each once, the latest first. *)
Definition oneLive (s : State) : Prop :=
  match currentMesh s with
  | None => scene s = [] /\ disposed s = [] /\ nextMeshId s = O
  | Some m =>
      scene s = [meshId m] /\ nextMeshId s = S (meshId m) /\
      disposed s = rev (seq 0 (meshId m))
  end.

(** The current mesh shows the character at the index; its geometry is
    centred; the scan bounds are its vertical bounds and the camera is fitted
    to its height. *)
Definition fitted (s : State) : Prop :=
  match currentMesh s with
  | None => geoTopY s = 0 /\ geoBottomY s = 0 /\ cameraZ s = 100
  | Some m =>
      JS.index CHARS (charIndex s) = Some (text (geometry m)) /\
      vx (bmin (boundingBox (geometry m))) + vx (bmax (boundingBox (geometry m))) = 0 /\
      vy (bmin (boundingBox (geometry m))) + vy (bmax (boundingBox (geometry m))) = 0 /\
      vz (bmin (boundingBox (geometry m))) + vz (bmax (boundingBox (geometry m))) = 0 /\
      geoTopY s = vy (bmax (boundingBox (geometry m))) /\
      geoBottomY s = vy (bmin (boundingBox (geometry m))) /\
      cameraZ s = cameraFit (geoTopY s - geoBottomY s)
  end.

(** The ranges of the tap reaction. *)
Definition inRange (s : State) : Prop :=
  targetScale s = 1 /\ 1 <= currentScale s <= 1.1 /\
  0 <= clickFlashValue s <= 0.5 /\ 0 <= uClickFlash (uniforms s) <= 0.5 /\
  match currentMesh s with
  | None => True
  | Some m =>
      exists c, 1 <= c <= 1.1 /\
        vx (scale m) = c * 1.2 /\ vy (scale m) = c * 0.8 /\ vz (scale m) = c
  end.

Definition tidy (s : State) : Prop :=
  validIndex (charIndex s) /\
  (currentMesh s <> None -> currentFont s <> None) /\
  oneLive s /\ fitted s /\ inRange s /\ In (uBeamColor (uniforms s)) BEAM_COLORS.

(** * Properties *)

(** ** Comparisons, array reads and arithmetic *)

Lemma lt_true (a b : R) : JS.lt a b = true <-> a < b.
Proof.
  unfold JS.lt; destruct (Rlt_dec a b) as [H | H]; split; intro K;
    try reflexivity; try assumption; try discriminate; contradiction.
Qed.

Lemma lt_false (a b : R) : JS.lt a b = false <-> b <= a.
Proof.
  unfold JS.lt; destruct (Rlt_dec a b) as [H | H]; split; intro K;
    try reflexivity; try discriminate; lra.
Qed.

Lemma gt_true (a b : R) : JS.gt a b = true <-> b < a.
Proof. unfold JS.gt; apply lt_true. Qed.

Lemma gt_false (a b : R) : JS.gt a b = false <-> a <= b.
Proof. unfold JS.gt; apply lt_false. Qed.

Lemma CHARS_eval : CHARS = ["K"; "S"; "H"; "T"; "C"; "L"; "O"; "M"]%string.
Proof. reflexivity. Qed.

Lemma CHARS_length : Z.of_nat (List.length CHARS) = 8%Z.
Proof. reflexivity. Qed.

Lemma CHARS_index (i : Z) : validIndex i -> exists c, JS.index CHARS i = Some c.
Proof.
  unfold validIndex; rewrite CHARS_length; intros [Hlo Hhi].
  assert (Hcases : (i = 0 \/ i = 1 \/ i = 2 \/ i = 3 \/ i = 4 \/ i = 5 \/ i = 6 \/ i = 7)%Z)
    by lia.
  repeat (destruct Hcases as [-> | Hcases]; [eexists; reflexivity |]).
  subst i; eexists; reflexivity.
Qed.

Lemma CHARS_NoDup : NoDup CHARS.
Proof.
  rewrite CHARS_eval.
  repeat (constructor; [cbn; intuition discriminate |]).
  constructor.
Qed.

Lemma rem_valid (i : Z) :
  validIndex i -> validIndex (JS.rem (i + 1) (Z.of_nat (List.length CHARS))).
Proof.
  unfold validIndex, JS.rem; rewrite CHARS_length; intros Hi.
  rewrite Z.rem_mod_nonneg by lia.
  apply Z.mod_pos_bound; lia.
Qed.

Lemma rem_is_mod (i : Z) :
  validIndex i -> JS.rem (i + 1) (Z.of_nat (List.length CHARS)) = ((i + 1) mod 8)%Z.
Proof.
  unfold validIndex, JS.rem; rewrite CHARS_length; intros Hi.
  apply Z.rem_mod_nonneg; lia.
Qed.

Lemma floor_random (u : R) (n : nat) :
  isRandom u -> (0 <= JS.Math_floor (u * INR n) < Z.of_nat n)%Z \/ n = O.
Proof.
  intros [Hlo Hhi]; destruct n as [| n]; [right; reflexivity | left].
  unfold JS.Math_floor.
  destruct (base_Int_part (u * INR (S n))) as [Hle Hgt].
  assert (Hn : 0 < INR (S n)) by (apply lt_0_INR; lia).
  assert (Hub : u * INR (S n) < INR (S n)) by nra.
  assert (Hlb : 0 <= u * INR (S n)) by nra.
  assert (H1 : (-1 < Int_part (u * INR (S n)))%Z) by (apply lt_IZR; lra).
  assert (H2 : (Int_part (u * INR (S n)) < Z.of_nat (S n))%Z)
    by (apply lt_IZR; rewrite <- INR_IZR_INZ; lra).
  lia.
Qed.

Lemma BEAM_COLORS_pick (u : R) :
  isRandom u ->
  exists c, JS.index BEAM_COLORS (JS.Math_floor (u * INR (List.length BEAM_COLORS))) = Some c.
Proof.
  intros Hu. destruct (floor_random u (List.length BEAM_COLORS) Hu) as [H | H];
    [| discriminate H].
  change (Z.of_nat (List.length BEAM_COLORS)) with 3%Z in H.
  set (k := JS.Math_floor _) in *.
  assert (Hcases : (k = 0 \/ k = 1 \/ k = 2)%Z) by lia.
  destruct Hcases as [-> | [-> | ->]]; eexists; reflexivity.
Qed.

(** The palette by linear components: red, white, and a blue whose red byte
    1 lies on the linear segment of the conversion. *)
Lemma SRGBToLinear_0 : SRGBToLinear (0 / 255) = 0.
Proof.
  unfold SRGBToLinear. rewrite (proj2 (lt_true (0 / 255) 0.04045)) by lra. lra.
Qed.

Lemma SRGBToLinear_1 : SRGBToLinear (255 / 255) = 1.
Proof.
  unfold SRGBToLinear. rewrite (proj2 (lt_false (255 / 255) 0.04045)) by lra.
  replace (255 / 255 * 0.9478672986 + 0.0521327014) with 1 by lra.
  unfold Rpower. rewrite ln_1, Rmult_0_r. exact exp_0.
Qed.

Lemma SRGBToLinear_byte_1 : SRGBToLinear (1 / 255) = 1 / 255 * 0.0773993808.
Proof.
  unfold SRGBToLinear. rewrite (proj2 (lt_true (1 / 255) 0.04045)) by lra. reflexivity.
Qed.

Lemma setHex_FF0000 : setHex 0xFF0000 = mkColor 1 0 0.
Proof.
  unfold setHex.
  change (Z.land (Z.shiftr 0xFF0000 16) 255) with 255%Z.
  change (Z.land (Z.shiftr 0xFF0000 8) 255) with 0%Z.
  change (Z.land 0xFF0000 255) with 0%Z.
  rewrite SRGBToLinear_0, SRGBToLinear_1. reflexivity.
Qed.

Lemma setHex_FFFFFF : setHex 0xFFFFFF = mkColor 1 1 1.
Proof.
  unfold setHex.
  change (Z.land (Z.shiftr 0xFFFFFF 16) 255) with 255%Z.
  change (Z.land (Z.shiftr 0xFFFFFF 8) 255) with 255%Z.
  change (Z.land 0xFFFFFF 255) with 255%Z.
  rewrite SRGBToLinear_1. reflexivity.
Qed.

Lemma setHex_0100FF : setHex 0x0100FF = mkColor (1 / 255 * 0.0773993808) 0 1.
Proof.
  unfold setHex.
  change (Z.land (Z.shiftr 0x0100FF 16) 255) with 1%Z.
  change (Z.land (Z.shiftr 0x0100FF 8) 255) with 0%Z.
  change (Z.land 0x0100FF 255) with 255%Z.
  rewrite SRGBToLinear_0, SRGBToLinear_1, SRGBToLinear_byte_1. reflexivity.
Qed.

Lemma BEAM_COLORS_values :
  BEAM_COLORS = [ mkColor 1 0 0; mkColor 1 1 1; mkColor (1 / 255 * 0.0773993808) 0 1 ].
Proof.
  unfold BEAM_COLORS. rewrite setHex_FF0000, setHex_FFFFFF, setHex_0100FF. reflexivity.
Qed.

Lemma random_0 : isRandom 0.
Proof. unfold isRandom; lra. Qed.

Lemma initial_valid (r1 r2 r3 : R) : validIndex (charIndex (initialState r1 r2 r3)).
Proof. unfold validIndex; rewrite CHARS_length; cbn; lia. Qed.

Lemma Rabs_small (x : R) : -0.001 < x < 0.001 -> Rabs x < 0.001.
Proof. intros H. apply Rabs_def1; lra. Qed.

Lemma eta_Euler (r : Euler) : {| ex := ex r; ey := ey r; ez := ez r |} = r.
Proof. destruct r; reflexivity. Qed.

Lemma Euler_eq (a b : Euler) :
  ex a = ex b -> ey a = ey b -> ez a = ez b -> a = b.
Proof. destruct a, b; cbn; intros; subst; reflexivity. Qed.

(** ** What [createLetter] does *)

Lemma createLetter_no_font (rnd : R) (s : State) :
  currentFont s = None -> createLetter rnd s = Some s.
Proof. intros H; unfold createLetter; rewrite H; reflexivity. Qed.

Lemma createLetter_spec (rnd : R) (s : State) (font : Font) :
  currentFont s = Some font -> validIndex (charIndex s) -> isRandom rnd ->
  exists s' m' char,
    createLetter rnd s = Some s' /\
    JS.index CHARS (charIndex s) = Some char /\
    currentMesh s' = Some m' /\
    meshId m' = nextMeshId s /\ nextMeshId s' = S (nextMeshId s) /\
    text (geometry m') = char /\
    rotation m' = carriedRotation s /\
    scale m' = mkVector3 1.2 0.8 1.0 /\
    geoTopY s' = vy (bmax (boundingBox (geometry m'))) /\
    geoBottomY s' = vy (bmin (boundingBox (geometry m'))) /\
    (geoTopY s' = 0.5 * (vy (bmax (textBounds font char)) - vy (bmin (textBounds font char))) /\
     geoBottomY s' =
       - 0.5 * (vy (bmax (textBounds font char)) - vy (bmin (textBounds font char)))) /\
    cameraZ s' =
      cameraFit (vy (bmax (textBounds font char)) - vy (bmin (textBounds font char))) /\
    uClickFlash (uniforms s') = 0.0 /\
    uScanY (uniforms s') = uScanY (uniforms s) /\
    sameControls s s'.
Proof.
  intros Hfont Hidx Hrnd.
  destruct (CHARS_index _ Hidx) as [char Hchar].
  destruct (BEAM_COLORS_pick _ Hrnd) as [col Hcol].
  unfold createLetter. rewrite Hfont.
  assert (Hi : charIndex (retirePrevious s) = charIndex s)
    by (unfold retirePrevious; destruct (currentMesh s); reflexivity).
  rewrite Hi, Hchar. cbn [JS.bind]. rewrite Hcol. cbn [JS.bind].
  unfold retirePrevious, carriedRotation, sameControls.
  destruct (currentMesh s) as [m |];
    (eexists; eexists; exists char;
     split; [reflexivity |]; split; [reflexivity |];
     cbn; rewrite ?eta_Euler; repeat split; try reflexivity; lra).
Qed.

(** ** The shape of a frame *)

Ltac unfold_phases :=
  unfold afterCycle, clickEffect, rotationLogic, scanLogic, rotateMesh, scaleMesh,
    set_uScanY, set_uClickFlash, set_uBeamColor.

Ltac split_phases :=
  repeat match goal with
    | |- context [negb (isDragging ?s)] =>
        let H := fresh "Hdrag" in destruct (isDragging s) eqn:H; cbn
    | |- context [match currentMesh ?s with _ => _ end] =>
        let H := fresh "Hmesh" in destruct (currentMesh s) eqn:H; cbn
    | |- context [if isSlow ?v then _ else _] =>
        let H := fresh "Hslow" in destruct (isSlow v) eqn:H; cbn
    end.

Lemma afterCycle_controls (elapsed : R) (s : State) :
  charIndex (afterCycle elapsed s) = charIndex s /\
  meshStartTime (afterCycle elapsed s) = meshStartTime s /\
  currentFont (afterCycle elapsed s) = currentFont s /\
  geoTopY (afterCycle elapsed s) = geoTopY s /\
  geoBottomY (afterCycle elapsed s) = geoBottomY s /\
  isDragging (afterCycle elapsed s) = isDragging s /\
  animating (afterCycle elapsed s) = animating s /\
  nextMeshId (afterCycle elapsed s) = nextMeshId s /\
  cameraZ (afterCycle elapsed s) = cameraZ s /\
  targetScale (afterCycle elapsed s) = targetScale s.
Proof.
  unfold_phases; cbn; split_phases; repeat split; congruence.
Qed.

Lemma afterCycle_mesh (elapsed : R) (s : State) (m : Mesh) :
  currentMesh s = Some m ->
  exists m', currentMesh (afterCycle elapsed s) = Some m' /\
             meshId m' = meshId m /\ geometry m' = geometry m.
Proof.
  intros Hm. unfold_phases; cbn; rewrite ?Hm.
  destruct (isDragging s); cbn; rewrite ?Hm; cbn;
    [| destruct (isSlow _); cbn; rewrite ?Hm; cbn ];
    eexists; repeat split; reflexivity.
Qed.

Lemma afterCycle_scan (elapsed : R) (s : State) :
  uScanY (uniforms (afterCycle elapsed s)) =
  scanPosition (geoTopY s) (geoBottomY s) (elapsed / CYCLE_DURATION).
Proof.
  unfold_phases; cbn; split_phases; reflexivity.
Qed.

Lemma afterCycle_effect (elapsed : R) (s : State) (m : Mesh) :
  currentMesh s = Some m ->
  exists m',
    currentMesh (afterCycle elapsed s) = Some m' /\
    meshId m' = meshId m /\ geometry m' = geometry m /\
    rotation m' = turned s (rotation m) /\
    rotationVelocity (afterCycle elapsed s) = damped s /\
    currentScale (afterCycle elapsed s) = lerp (currentScale s) (targetScale s) 0.1 /\
    scale m' = mkVector3 (lerp (currentScale s) (targetScale s) 0.1 * 1.2)
                         (lerp (currentScale s) (targetScale s) 0.1 * 0.8)
                         (lerp (currentScale s) (targetScale s) 0.1) /\
    clickFlashValue (afterCycle elapsed s) = lerp (clickFlashValue s) 0.0 0.05 /\
    uClickFlash (uniforms (afterCycle elapsed s)) = lerp (clickFlashValue s) 0.0 0.05 /\
    previousMouse (afterCycle elapsed s) = previousMouse s /\
    downTime (afterCycle elapsed s) = downTime s /\
    downPos (afterCycle elapsed s) = downPos s /\
    currentRotation (afterCycle elapsed s) = currentRotation s.
Proof.
  intros Hm. unfold_phases. unfold turned, damped. cbn.
  destruct (isDragging s) eqn:Hdrag; cbn; rewrite ?Hm; cbn.
  - eexists; repeat split; reflexivity.
  - destruct (isSlow _) eqn:Hslow; cbn; rewrite ?Hm; cbn;
      (eexists; repeat split; try reflexivity; cbn; apply Euler_eq; cbn; lra).
Qed.

Lemma animate_idle (now rnd : R) (s : State) :
  now - meshStartTime s <= CYCLE_DURATION ->
  animate now rnd s =
  Some (match currentMesh s with
        | Some _ => afterCycle (now - meshStartTime s) (set_animating true s)
        | None => set_animating true s
        end).
Proof.
  intros Hle. unfold animate, cycleLogic.
  cbn [meshStartTime set_animating].
  rewrite (proj2 (gt_false _ _) Hle). cbn [JS.bind].
  cbn [currentMesh set_animating]. destruct (currentMesh s); reflexivity.
Qed.

Lemma animate_expired (now rnd : R) (s : State) :
  now - meshStartTime s > CYCLE_DURATION ->
  animate now rnd s =
  (s1 <- createLetter rnd (advanced s) ;;
   Some (match currentMesh s1 with
         | Some _ => afterCycle (now - meshStartTime s) (set_meshStartTime now s1)
         | None => set_meshStartTime now s1
         end)).
Proof.
  intros Hgt. unfold animate, cycleLogic. cbn [meshStartTime set_animating charIndex].
  rewrite (proj2 (gt_true _ _) Hgt). fold (advanced s).
  destruct (createLetter rnd (advanced s)) as [s1 |]; cbn; [| reflexivity].
  destruct (currentMesh s1); reflexivity.
Qed.

(** ** Reachable states *)

Lemma onDown_keeps (x y now : R) (s : State) :
  charIndex (onDown x y now s) = charIndex s /\
  currentFont (onDown x y now s) = currentFont s /\
  currentMesh (onDown x y now s) = currentMesh s /\
  animating (onDown x y now s) = animating s.
Proof. repeat split. Qed.

Lemma onUp_keeps (x y now : R) (s : State) :
  charIndex (onUp x y now s) = charIndex s /\
  currentFont (onUp x y now s) = currentFont s /\
  currentMesh (onUp x y now s) = currentMesh s /\
  animating (onUp x y now s) = animating s.
Proof. unfold onUp; destruct (isTap _ _); repeat split. Qed.

Lemma onMove_keeps (x y : R) (s : State) :
  charIndex (onMove x y s) = charIndex s /\
  currentFont (onMove x y s) = currentFont s /\
  (currentMesh s = None <-> currentMesh (onMove x y s) = None) /\
  animating (onMove x y s) = animating s.
Proof.
  unfold onMove; destruct (isDragging s); destruct (currentMesh s) eqn:Hm; cbn;
    rewrite ?Hm; repeat split; intros; congruence.
Qed.

Lemma loadedness_transfer (s s' : State) :
  currentFont s' = currentFont s ->
  (currentMesh s = None <-> currentMesh s' = None) ->
  animating s' = animating s ->
  loadedness s -> loadedness s'.
Proof.
  intros Hf Hm Ha [(H1 & H2 & H3) | (font & m & H1 & H2 & H3)].
  - left; repeat split; [congruence | apply Hm; assumption | congruence].
  - right. destruct (currentMesh s') as [m' |] eqn:Hm'.
    + exists font, m'; repeat split; congruence.
    + pose proof (proj2 Hm eq_refl). congruence.
Qed.

Lemma animate_total (now rnd : R) (s : State) :
  validIndex (charIndex s) -> isRandom rnd ->
  exists s', animate now rnd s = Some s' /\
    (charIndex s' = charIndex s \/
     charIndex s' = JS.rem (charIndex s + 1) (Z.of_nat (List.length CHARS))) /\
    currentFont s' = currentFont s /\
    (currentMesh s <> None -> currentMesh s' <> None) /\
    animating s' = true.
Proof.
  intros Hidx Hrnd.
  destruct (Rle_or_lt (now - meshStartTime s) CYCLE_DURATION) as [Hle | Hgt].
  - rewrite (animate_idle now rnd s Hle). eexists; split; [reflexivity |].
    destruct (currentMesh s) as [m |] eqn:Hm.
    + destruct (afterCycle_controls (now - meshStartTime s) (set_animating true s))
        as (Hc & _ & Hf & _ & _ & _ & Ha & _).
      destruct (afterCycle_mesh (now - meshStartTime s) (set_animating true s) m Hm)
        as (m' & Hm' & _).
      rewrite Hc, Hf, Ha, Hm'. repeat split; try (left; reflexivity); congruence.
    + repeat split; try (left; reflexivity); congruence.
  - rewrite (animate_expired now rnd s Hgt).
    destruct (currentFont s) as [font |] eqn:Hfont.
    + destruct (createLetter_spec rnd (advanced s) font Hfont (rem_valid _ Hidx) Hrnd)
        as (s1 & m1 & char & Hc & _ & Hm1 & _ & _ & _ & _ & _ & _ & _ & _ & _ & _ & _ & Hsame).
      destruct Hsame as (Hci & _ & Hf1 & _ & _ & _ & _ & _ & _ & _ & _ & Ha1).
      rewrite Hc; cbn [JS.bind]; rewrite Hm1.
      eexists; split; [reflexivity |].
      destruct (afterCycle_controls (now - meshStartTime s) (set_meshStartTime now s1))
        as (Hc2 & _ & Hf2 & _ & _ & _ & Ha2 & _).
      destruct (afterCycle_mesh (now - meshStartTime s) (set_meshStartTime now s1) m1 Hm1)
        as (m' & Hm' & _).
      rewrite Hc2, Hf2, Ha2, Hm'. cbn. rewrite Hci, Hf1, Ha1.
      unfold advanced; cbn.
      repeat split; try (right; reflexivity); congruence.
    + rewrite createLetter_no_font by exact Hfont. cbn [JS.bind].
      change (currentMesh (advanced s)) with (currentMesh s).
      eexists; split; [reflexivity |].
      destruct (currentMesh s) as [m |] eqn:Hm.
      * set (s0 := set_meshStartTime now _).
        destruct (afterCycle_controls (now - meshStartTime s) s0)
          as (Hc & _ & Hf & _ & _ & _ & Ha & _).
        destruct (afterCycle_mesh (now - meshStartTime s) s0 m Hm) as (m' & Hm' & _).
        rewrite Hc, Hf, Ha, Hm'. subst s0; unfold advanced; cbn.
        repeat split; try (right; reflexivity); congruence.
      * unfold advanced; cbn. repeat split; try (right; reflexivity); congruence.
Qed.

Lemma onFontLoaded_total (font : Font) (rnd t0 now rnd' : R) (s : State) :
  validIndex (charIndex s) -> isRandom rnd -> isRandom rnd' ->
  exists s1 m1 s',
    createLetter rnd (set_currentFont (Some font) s) = Some s1 /\
    currentMesh s1 = Some m1 /\
    animate now rnd' (set_meshStartTime t0 s1) = Some s' /\
    onFontLoaded font rnd t0 now rnd' s = Some s' /\
    (charIndex s' = charIndex s \/
     charIndex s' = JS.rem (charIndex s + 1) (Z.of_nat (List.length CHARS))) /\
    currentFont s' = Some font /\ currentMesh s' <> None /\ animating s' = true.
Proof.
  intros Hidx Hrnd Hrnd'.
  destruct (createLetter_spec rnd (set_currentFont (Some font) s) font eq_refl Hidx Hrnd)
    as (s1 & m1 & char & Hc & _ & Hm1 & _ & _ & _ & _ & _ & _ & _ & _ & _ & _ & _ & Hsame).
  destruct Hsame as (Hci & _ & Hf1 & _).
  cbn in Hci, Hf1.
  destruct (animate_total now rnd' (set_meshStartTime t0 s1)) as (s' & Ha & Hidx' & Hf' & Hm' & Han);
    [cbn; rewrite Hci; exact Hidx | exact Hrnd' |].
  cbn in Hidx', Hf', Hm'. rewrite Hci in Hidx'. rewrite Hf1 in Hf'.
  exists s1, m1, s'. repeat split; try assumption.
  - unfold onFontLoaded. rewrite Hc. cbn [JS.bind]. exact Ha.
  - apply Hm'. congruence.
Qed.

Lemma dispatch_invariant (e : Event) (s : State) :
  invariant s -> enabled e s -> wellFormed e ->
  exists s', dispatch e s = Some s' /\ invariant s' /\
    (charIndex s' = charIndex s \/
     charIndex s' = JS.rem (charIndex s + 1) (Z.of_nat (List.length CHARS))).
Proof.
  intros [Hidx Hload] Hen Hwf.
  assert (Hptr : forall s', charIndex s' = charIndex s /\ currentFont s' = currentFont s /\
                   (currentMesh s = None <-> currentMesh s' = None) /\
                   animating s' = animating s ->
                   invariant s' /\
                   (charIndex s' = charIndex s \/
                    charIndex s' = JS.rem (charIndex s + 1) (Z.of_nat (List.length CHARS)))).
  { intros s' (Hc & Hf & Hm & Ha). split; [split |].
    - rewrite Hc; exact Hidx.
    - apply (loadedness_transfer s s'); assumption.
    - left; exact Hc. }
  assert (Hsame : forall s', charIndex s' = charIndex s /\ currentFont s' = currentFont s /\
                   currentMesh s' = currentMesh s /\ animating s' = animating s ->
                   charIndex s' = charIndex s /\ currentFont s' = currentFont s /\
                   (currentMesh s = None <-> currentMesh s' = None) /\
                   animating s' = animating s).
  { intros s' (Hc & Hf & Hm & Ha). rewrite Hm. repeat split; auto. }
  destruct e as [x y now | x y | x y now | ts now | ts | ts now | font rnd t0 now rnd' | now rnd];
    cbn [dispatch].
  - eexists; split; [reflexivity |]. apply Hptr, Hsame, onDown_keeps.
  - eexists; split; [reflexivity |]. apply Hptr, onMove_keeps.
  - eexists; split; [reflexivity |]. apply Hptr, Hsame, onUp_keeps.
  - eexists; split; [reflexivity |]. apply Hptr, Hsame.
    destruct ts; [repeat split | apply onDown_keeps].
  - eexists; split; [reflexivity |]. apply Hptr.
    destruct ts; [repeat split; auto | apply onMove_keeps].
  - eexists; split; [reflexivity |]. apply Hptr, Hsame.
    destruct ts; apply onUp_keeps.
  - destruct Hwf as [Hr Hr'].
    destruct (onFontLoaded_total font rnd t0 now rnd' s Hidx Hr Hr')
      as (s1 & m1 & s' & _ & _ & _ & Hd & Hc & Hf & Hm & Ha).
    exists s'. split; [exact Hd |]. split; [split |].
    + destruct Hc as [-> | ->]; [exact Hidx | apply rem_valid, Hidx].
    + right. destruct (currentMesh s') as [m' |] eqn:E; [| congruence].
      exists font, m'. auto.
    + exact Hc.
  - destruct (animate_total now rnd s Hidx Hwf) as (s' & Hd & Hc & Hf & Hm & Ha).
    exists s'. split; [exact Hd |]. split; [split |].
    + destruct Hc as [-> | ->]; [exact Hidx | apply rem_valid, Hidx].
    + cbn in Hen. destruct Hload as [(_ & _ & Hoff) | (font & m & H1 & H2 & _)];
        [congruence |].
      right. destruct (currentMesh s') as [m' |] eqn:E.
      * exists font, m'. repeat split; congruence.
      * exfalso. apply Hm; congruence.
    + exact Hc.
Qed.

Lemma reachable_invariant (s : State) : reachable s -> invariant s.
Proof.
  induction 1 as [r1 r2 r3 | s s' e Hreach IH Hen Hwf Hd].
  - split; [unfold validIndex; rewrite CHARS_length; cbn; lia | left; repeat split].
  - destruct (dispatch_invariant e s IH Hen Hwf) as (s'' & Hd' & Hinv & _).
    rewrite Hd in Hd'. injection Hd' as <-. exact Hinv.
Qed.

Lemma reachable_after (e : Event) (s : State) :
  reachable s -> enabled e s -> wellFormed e -> reachable (after e s).
Proof.
  intros Hreach Hen Hwf. unfold after.
  destruct (dispatch e s) as [s' |] eqn:Hd; [| exact Hreach].
  exact (reach_step s s' e Hreach Hen Hwf Hd).
Qed.

Lemma loaded_of_animating (s : State) :
  invariant s -> animating s = true ->
  exists font m, currentFont s = Some font /\ currentMesh s = Some m.
Proof.
  intros [_ [(_ & _ & Hoff) | (font & m & Hf & Hm & _)]] Han; [congruence |].
  exists font, m; auto.
Qed.

(** ** What a frame does *)

Lemma frame_step (now rnd : R) (s : State) :
  invariant s -> animating s = true -> isRandom rnd ->
  exists s', animate now rnd s = Some s' /\ invariant s' /\ animating s' = true /\
    (now - meshStartTime s > CYCLE_DURATION ->
       charIndex s' = JS.rem (charIndex s + 1) (Z.of_nat (List.length CHARS)) /\
       meshStartTime s' = now /\
       exists m', currentMesh s' = Some m' /\ meshId m' = nextMeshId s /\
                  JS.index CHARS (charIndex s') = Some (text (geometry m'))) /\
    (now - meshStartTime s <= CYCLE_DURATION ->
       charIndex s' = charIndex s /\ meshStartTime s' = meshStartTime s /\
       nextMeshId s' = nextMeshId s).
Proof.
  intros Hinv Han Hrnd.
  destruct (dispatch_invariant (Frame now rnd) s Hinv Han Hrnd) as (s' & Hd & Hinv' & _).
  cbn [dispatch] in Hd.
  destruct (animate_total now rnd s (proj1 Hinv) Hrnd) as (s2 & Hd2 & _ & _ & _ & Han').
  rewrite Hd in Hd2; injection Hd2 as <-.
  exists s'. split; [exact Hd |]. split; [exact Hinv' |]. split; [exact Han' |].
  destruct (loaded_of_animating s Hinv Han) as (font & m & Hfont & Hm).
  split.
  - intros Hgt. rewrite (animate_expired now rnd s Hgt) in Hd.
    destruct (createLetter_spec rnd (advanced s) font Hfont (rem_valid _ (proj1 Hinv)) Hrnd)
      as (s1 & m1 & char & Hc & Hchar & Hm1 & Hid & _ & Htext & _ & _ & _ & _ & _ & _ & _ & _
          & Hsame).
    destruct Hsame as (Hci & _).
    rewrite Hc in Hd; cbn [JS.bind] in Hd; rewrite Hm1 in Hd. injection Hd as <-.
    destruct (afterCycle_controls (now - meshStartTime s) (set_meshStartTime now s1))
      as (Hc2 & Hs2 & _).
    destruct (afterCycle_mesh (now - meshStartTime s) (set_meshStartTime now s1) m1 Hm1)
      as (m' & Hm' & Hid' & Hgeo').
    rewrite Hc2, Hs2. cbn [charIndex meshStartTime set_meshStartTime].
    split; [exact Hci |]. split; [reflexivity |].
    exists m'. split; [exact Hm' |]. split; [rewrite Hid'; exact Hid |].
    rewrite Hgeo', Htext, Hci. exact Hchar.
  - intros Hle. rewrite (animate_idle now rnd s Hle), Hm in Hd. injection Hd as <-.
    destruct (afterCycle_controls (now - meshStartTime s) (set_animating true s))
      as (Hc2 & Hs2 & _ & _ & _ & _ & _ & Hn2 & _).
    rewrite Hc2, Hs2, Hn2. repeat split.
Qed.

Lemma scanPosition_start (topY bottomY : R) : scanPosition topY bottomY 0 = topY + 250.
Proof. unfold scanPosition, lerp; lra. Qed.

Lemma animate_scan (now rnd : R) (s s' : State) :
  animate now rnd s = Some s' -> currentMesh s' <> None ->
  uScanY (uniforms s') =
  scanPosition (geoTopY s') (geoBottomY s') ((now - meshStartTime s) / CYCLE_DURATION).
Proof.
  intros Ha Hm.
  destruct (Rle_or_lt (now - meshStartTime s) CYCLE_DURATION) as [Hle | Hgt].
  - rewrite (animate_idle now rnd s Hle) in Ha. injection Ha as <-.
    destruct (currentMesh s) eqn:E; [| cbn in Hm; congruence].
    destruct (afterCycle_controls (now - meshStartTime s) (set_animating true s))
      as (_ & _ & _ & Ht & Hb & _).
    rewrite afterCycle_scan, Ht, Hb. reflexivity.
  - rewrite (animate_expired now rnd s Hgt) in Ha.
    destruct (createLetter rnd (advanced s)) as [s1 |]; [| discriminate].
    cbn [JS.bind] in Ha. injection Ha as <-.
    destruct (currentMesh s1) eqn:E; [| cbn in Hm; congruence].
    destruct (afterCycle_controls (now - meshStartTime s) (set_meshStartTime now s1))
      as (_ & _ & _ & Ht & Hb & _).
    rewrite afterCycle_scan, Ht, Hb. reflexivity.
Qed.

Lemma animate_restart (now rnd : R) (s : State) :
  invariant s -> animating s = true -> isRandom rnd ->
  now - meshStartTime s > CYCLE_DURATION ->
  exists s' font char,
    animate now rnd s = Some s' /\ invariant s' /\ animating s' = true /\
    currentFont s = Some font /\
    JS.index CHARS (JS.rem (charIndex s + 1) (Z.of_nat (List.length CHARS))) = Some char /\
    charIndex s' = JS.rem (charIndex s + 1) (Z.of_nat (List.length CHARS)) /\
    meshStartTime s' = now /\
    geoTopY s' = 0.5 * (vy (bmax (textBounds font char)) - vy (bmin (textBounds font char))) /\
    geoBottomY s' =
      - 0.5 * (vy (bmax (textBounds font char)) - vy (bmin (textBounds font char))) /\
    uScanY (uniforms s') =
      scanPosition (geoTopY s') (geoBottomY s') ((now - meshStartTime s) / CYCLE_DURATION).
Proof.
  intros Hinv Han Hrnd Hgt.
  destruct (frame_step now rnd s Hinv Han Hrnd) as (s' & Ha & Hinv' & Han' & Hexp & _).
  destruct (Hexp Hgt) as (Hci & Hst & m' & Hm' & _).
  destruct (loaded_of_animating s Hinv Han) as (font & m & Hfont & Hm).
  pose proof Ha as Ha'. rewrite (animate_expired now rnd s Hgt) in Ha'.
  destruct (createLetter_spec rnd (advanced s) font Hfont (rem_valid _ (proj1 Hinv)) Hrnd)
    as (s1 & m1 & char & Hc & Hchar & Hm1 & _ & _ & _ & _ & _ & _ & _ & (Htop & Hbot) & _).
  rewrite Hc in Ha'; cbn [JS.bind] in Ha'; rewrite Hm1 in Ha'. injection Ha' as Hs'.
  destruct (afterCycle_controls (now - meshStartTime s) (set_meshStartTime now s1))
    as (_ & _ & _ & Ht2 & Hb2 & _).
  exists s', font, char.
  split; [exact Ha |]. split; [exact Hinv' |]. split; [exact Han' |].
  split; [exact Hfont |]. split; [exact Hchar |]. split; [exact Hci |]. split; [exact Hst |].
  split; [rewrite <- Hs', Ht2; exact Htop |].
  split; [rewrite <- Hs', Hb2; exact Hbot |].
  apply (animate_scan now rnd s s' Ha). rewrite Hm'. discriminate.
Qed.

Lemma turned_ext (s1 s2 : State) (r : Euler) :
  isDragging s1 = isDragging s2 -> rotationVelocity s1 = rotationVelocity s2 ->
  turned s1 r = turned s2 r /\ damped s1 = damped s2.
Proof. unfold turned, damped; intros -> ->; split; reflexivity. Qed.

Lemma isSlow_iff (v : Vector2) :
  isSlow v = true <-> Rabs (v2x v) < 0.001 /\ Rabs (v2y v) < 0.001.
Proof.
  unfold isSlow, JS.Math_abs. rewrite andb_true_iff, !lt_true. reflexivity.
Qed.

Lemma animate_rotation (now rnd : R) (s : State) (m : Mesh) :
  currentMesh s = Some m -> validIndex (charIndex s) -> isRandom rnd ->
  exists s' m',
    animate now rnd s = Some s' /\ currentMesh s' = Some m' /\
    rotation m' = turned s (rotation m) /\ rotationVelocity s' = damped s /\
    isDragging s' = isDragging s.
Proof.
  intros Hm Hidx Hrnd.
  destruct (Rle_or_lt (now - meshStartTime s) CYCLE_DURATION) as [Hle | Hgt].
  - rewrite (animate_idle now rnd s Hle), Hm.
    destruct (afterCycle_effect (now - meshStartTime s) (set_animating true s) m Hm)
      as (m' & Hm' & _ & _ & Hrot & Hvel & _).
    destruct (afterCycle_controls (now - meshStartTime s) (set_animating true s))
      as (_ & _ & _ & _ & _ & Hdrag & _).
    exists (afterCycle (now - meshStartTime s) (set_animating true s)), m'.
    repeat split; assumption.
  - rewrite (animate_expired now rnd s Hgt).
    destruct (currentFont s) as [font |] eqn:Hfont.
    + destruct (createLetter_spec rnd (advanced s) font Hfont (rem_valid _ Hidx) Hrnd)
        as (s1 & m1 & char & Hc & _ & Hm1 & _ & _ & _ & Hrot1 & _ & _ & _ & _ & _ & _ & _ & Hsame).
      destruct Hsame as (_ & _ & _ & Hdrag1 & _ & Hvel1 & _).
      rewrite Hc; cbn [JS.bind]; rewrite Hm1.
      destruct (afterCycle_effect (now - meshStartTime s) (set_meshStartTime now s1) m1 Hm1)
        as (m' & Hm' & _ & _ & Hrot & Hvel & _).
      destruct (afterCycle_controls (now - meshStartTime s) (set_meshStartTime now s1))
        as (_ & _ & _ & _ & _ & Hdrag & _).
      destruct (turned_ext (set_meshStartTime now s1) s (rotation m1) Hdrag1 Hvel1)
        as [Ht Hd].
      exists (afterCycle (now - meshStartTime s) (set_meshStartTime now s1)), m'.
      split; [reflexivity |]. split; [exact Hm' |].
      rewrite Hrot, Hvel, Hdrag, Ht, Hd, Hrot1.
      unfold carriedRotation, advanced; cbn [currentMesh set_charIndex set_animating].
      rewrite Hm. repeat split. exact Hdrag1.
    + rewrite createLetter_no_font by exact Hfont. cbn [JS.bind].
      change (currentMesh (advanced s)) with (currentMesh s). rewrite Hm.
      set (s0 := set_meshStartTime now (advanced s)).
      destruct (afterCycle_effect (now - meshStartTime s) s0 m Hm)
        as (m' & Hm' & _ & _ & Hrot & Hvel & _).
      destruct (afterCycle_controls (now - meshStartTime s) s0)
        as (_ & _ & _ & _ & _ & Hdrag & _).
      exists (afterCycle (now - meshStartTime s) s0), m'.
      repeat split; assumption.
Qed.

Lemma animate_click (now rnd : R) (s : State) (m : Mesh) :
  currentMesh s = Some m -> validIndex (charIndex s) -> isRandom rnd ->
  exists s' m',
    animate now rnd s = Some s' /\ currentMesh s' = Some m' /\
    currentScale s' = lerp (currentScale s) (targetScale s) 0.1 /\
    scale m' = mkVector3 (lerp (currentScale s) (targetScale s) 0.1 * 1.2)
                         (lerp (currentScale s) (targetScale s) 0.1 * 0.8)
                         (lerp (currentScale s) (targetScale s) 0.1) /\
    clickFlashValue s' = lerp (clickFlashValue s) 0.0 0.05 /\
    uClickFlash (uniforms s') = lerp (clickFlashValue s) 0.0 0.05.
Proof.
  intros Hm Hidx Hrnd.
  destruct (Rle_or_lt (now - meshStartTime s) CYCLE_DURATION) as [Hle | Hgt].
  - rewrite (animate_idle now rnd s Hle), Hm.
    destruct (afterCycle_effect (now - meshStartTime s) (set_animating true s) m Hm)
      as (m' & Hm' & _ & _ & _ & _ & Hcs & Hsc & Hcf & Hu & _).
    exists (afterCycle (now - meshStartTime s) (set_animating true s)), m'.
    split; [reflexivity |]. split; [exact Hm' |]. split; [exact Hcs |].
    split; [exact Hsc |]. split; [exact Hcf | exact Hu].
  - rewrite (animate_expired now rnd s Hgt).
    destruct (currentFont s) as [font |] eqn:Hfont.
    + destruct (createLetter_spec rnd (advanced s) font Hfont (rem_valid _ Hidx) Hrnd)
        as (s1 & m1 & char & Hc & _ & Hm1 & _ & _ & _ & _ & _ & _ & _ & _ & _ & _ & _ & Hsame).
      destruct Hsame as (_ & _ & _ & _ & _ & _ & Hts & Hcs1 & Hcf1 & _).
      rewrite Hc; cbn [JS.bind]; rewrite Hm1.
      destruct (afterCycle_effect (now - meshStartTime s) (set_meshStartTime now s1) m1 Hm1)
        as (m' & Hm' & _ & _ & _ & _ & Hcs & Hsc & Hcf & Hu & _).
      exists (afterCycle (now - meshStartTime s) (set_meshStartTime now s1)), m'.
      split; [reflexivity |]. split; [exact Hm' |].
      rewrite Hcs, Hsc, Hcf, Hu.
      change (currentScale (set_meshStartTime now s1)) with (currentScale s1).
      change (targetScale (set_meshStartTime now s1)) with (targetScale s1).
      change (clickFlashValue (set_meshStartTime now s1)) with (clickFlashValue s1).
      rewrite Hts, Hcs1, Hcf1.
      split; [reflexivity |]. split; [reflexivity |]. split; reflexivity.
    + rewrite createLetter_no_font by exact Hfont. cbn [JS.bind].
      change (currentMesh (advanced s)) with (currentMesh s). rewrite Hm.
      set (s0 := set_meshStartTime now (advanced s)).
      destruct (afterCycle_effect (now - meshStartTime s) s0 m Hm)
        as (m' & Hm' & _ & _ & _ & _ & Hcs & Hsc & Hcf & Hu & _).
      exists (afterCycle (now - meshStartTime s) s0), m'.
      split; [reflexivity |]. split; [exact Hm' |]. split; [exact Hcs |].
      split; [exact Hsc |]. split; [exact Hcf | exact Hu].
Qed.

(** ** What the handlers do *)

Lemma isTap_iff (timeDelta dist : R) :
  isTap timeDelta dist = true <-> timeDelta < 250 /\ dist < 5.
Proof.
  unfold isTap. rewrite andb_true_iff, !lt_true. reflexivity.
Qed.

Lemma onUp_tap (x y now : R) (s : State) :
  isTap (holdTime now s) (travel x y s) = true ->
  onUp x y now s =
  set_clickFlashValue 0.5 (set_targetScale 1.0 (set_currentScale 1.1 (set_isDragging false s))).
Proof.
  intros H. unfold onUp.
  change (holdTime now (set_isDragging false s)) with (holdTime now s).
  change (travel x y (set_isDragging false s)) with (travel x y s).
  rewrite H. reflexivity.
Qed.

Lemma onMove_no_mesh (x y : R) (s : State) : currentMesh s = None -> onMove x y s = s.
Proof. intros H. unfold onMove. rewrite H. destruct (isDragging s); reflexivity. Qed.

Lemma onMove_dragging (x y : R) (s : State) (m : Mesh) :
  isDragging s = true -> currentMesh s = Some m ->
  exists m',
    currentMesh (onMove x y s) = Some m' /\
    rotation m' = mkEuler (ex (rotation m) + (y - v2y (previousMouse s)) * 0.01)
                          (ey (rotation m) + (x - v2x (previousMouse s)) * 0.01)
                          (ez (rotation m)) /\
    rotationVelocity (onMove x y s) =
      mkVector2 ((y - v2y (previousMouse s)) * 0.01) ((x - v2x (previousMouse s)) * 0.01) /\
    previousMouse (onMove x y s) = mkVector2 x y /\
    downTime (onMove x y s) = downTime s /\ downPos (onMove x y s) = downPos s /\
    charIndex (onMove x y s) = charIndex s /\
    meshStartTime (onMove x y s) = meshStartTime s /\
    isDragging (onMove x y s) = true.
Proof.
  intros Hdrag Hm. unfold onMove. rewrite Hdrag, Hm. cbn.
  eexists; repeat split; try reflexivity. exact Hdrag.
Qed.

(** ** Counting cycles over a sequence of frames *)

Lemma frames_count (ticks : list (R * R)) (s : State) :
  invariant s -> animating s = true ->
  Forall (fun t => isRandom (snd t)) ticks ->
  exists s', frames ticks s = Some s' /\ invariant s' /\ animating s' = true /\
    charIndex s' =
      ((charIndex s + Z.of_nat (expiries (meshStartTime s) (map fst ticks))) mod 8)%Z /\
    meshStartTime s' = cycleStart (meshStartTime s) (map fst ticks).
Proof.
  revert s. induction ticks as [| [now rnd] rest IH]; intros s Hinv Han Hall.
  - exists s. cbn. repeat split; try assumption; try apply Hinv.
    rewrite Z.add_0_r, Z.mod_small; [reflexivity |].
    destruct Hinv as [Hv _]. unfold validIndex in Hv. rewrite CHARS_length in Hv. exact Hv.
  - inversion Hall as [| t l Hr Hrest]; subst. cbn [snd] in Hr.
    destruct (frame_step now rnd s Hinv Han Hr) as (s1 & Hd & Hinv1 & Han1 & Hgt & Hle).
    destruct (IH s1 Hinv1 Han1 Hrest) as (s' & Hf & Hinv' & Han' & Hci & Hst).
    exists s'. cbn [frames]. rewrite Hd. cbn [JS.bind].
    split; [exact Hf |]. split; [exact Hinv' |]. split; [exact Han' |].
    cbn [map fst expiries cycleStart].
    destruct (JS.gt (now - meshStartTime s) CYCLE_DURATION) eqn:E.
    + apply gt_true in E. destruct (Hgt E) as (Hc1 & Hs1 & _).
      rewrite Hci, Hst, Hs1, Hc1, (rem_is_mod _ (proj1 Hinv)).
      split; [| reflexivity].
      rewrite Nat2Z.inj_succ, Zplus_mod_idemp_l. f_equal. lia.
    + apply gt_false in E. destruct (Hle E) as (Hc1 & Hs1 & _).
      rewrite Hci, Hst, Hs1, Hc1. split; reflexivity.
Qed.

Lemma last_cons_default (now d : R) (rest : list R) :
  last (now :: rest) d = last rest now.
Proof.
  revert now d; induction rest as [| t rest IH]; intros now d; [reflexivity |].
  change (last (now :: t :: rest) d) with (last (t :: rest) d).
  rewrite (IH t d). symmetry. apply (IH t now).
Qed.

Lemma monotonic_from (a b : R) (nows : list R) :
  a <= b -> monotonic b nows -> monotonic a nows.
Proof. destruct nows; cbn; intuition lra. Qed.

Lemma monotonic_last (start : R) (nows : list R) :
  monotonic start nows -> start <= last nows start.
Proof.
  revert start; induction nows as [| now rest IH]; intros start; [cbn; lra |].
  intros [H1 H2]. rewrite last_cons_default. specialize (IH now H2). lra.
Qed.

Lemma expiries_spaced (start : R) (nows : list R) :
  monotonic start nows ->
  INR (expiries start nows) * CYCLE_DURATION <= last nows start - start.
Proof.
  revert start; induction nows as [| now rest IH]; intros start Hmono.
  - cbn. lra.
  - destruct Hmono as [H1 H2]. rewrite last_cons_default. cbn [expiries].
    destruct (JS.gt (now - start) CYCLE_DURATION) eqn:E.
    + apply gt_true in E. specialize (IH now H2). rewrite S_INR. lra.
    + specialize (IH start (monotonic_from start now rest H1 H2)).
      destruct rest as [| t rest'].
      * cbn in *. lra.
      * rewrite last_cons_default in *. exact IH.
Qed.

(** ** The sample states *)

Lemma loadedState_reachable : reachable loadedState.
Proof.
  apply reachable_after; [apply reach_init | reflexivity | split; apply random_0].
Qed.

Lemma loadedState_animating : animating loadedState = true.
Proof.
  unfold loadedState, after; cbn [dispatch].
  destruct (onFontLoaded_total sampleFont 0 0 0 0 (initialState 0.5 0.5 0.5))
    as (s1 & m1 & s' & _ & _ & _ & Hd & _ & _ & _ & Ha);
    [unfold validIndex; rewrite CHARS_length; cbn; lia | apply random_0 | apply random_0 |].
  rewrite Hd. exact Ha.
Qed.

Lemma loadedState_facts :
  exists m0,
    currentMesh loadedState = Some m0 /\
    charIndex loadedState = 0%Z /\
    meshStartTime loadedState = 0 /\
    currentFont loadedState = Some sampleFont /\
    geoTopY loadedState = 25 /\ geoBottomY loadedState = -25 /\
    isDragging loadedState = false /\
    downTime loadedState = 0 /\
    nextMeshId loadedState = 1%nat.
Proof.
  unfold loadedState, after; cbn [dispatch]. unfold onFontLoaded.
  set (s0 := set_currentFont (Some sampleFont) (initialState 0.5 0.5 0.5)).
  destruct (createLetter_spec 0 s0 sampleFont eq_refl (initial_valid 0.5 0.5 0.5) random_0)
    as (s1 & m1 & char & Hc & _ & Hm1 & _ & Hnext & _ & _ & _ & _ & _ & (Htop & Hbot) & _ & _
        & _ & Hsame).
  destruct Hsame as (Hci & Hst & Hf & Hdrag & _ & _ & _ & _ & _ & Hdt & _ & _).
  rewrite Hc. cbn [JS.bind].
  rewrite animate_idle by (cbn [meshStartTime set_meshStartTime]; unfold CYCLE_DURATION; lra).
  cbn [currentMesh set_meshStartTime set_animating]. rewrite Hm1.
  set (s2 := set_animating true (set_meshStartTime 0 s1)).
  destruct (afterCycle_controls (0 - meshStartTime (set_meshStartTime 0 s1)) s2)
    as (Hc2 & Hs2 & Hf2 & Ht2 & Hb2 & Hd2 & _ & Hn2 & _).
  destruct (afterCycle_effect (0 - meshStartTime (set_meshStartTime 0 s1)) s2 m1 Hm1)
    as (m' & Hm' & _ & _ & _ & _ & _ & _ & _ & _ & _ & Hdt2 & _).
  exists m'. rewrite Hm', Hc2, Hs2, Hf2, Ht2, Hb2, Hd2, Hdt2, Hn2. subst s2. cbn.
  rewrite Hci, Hf, Htop, Hbot, Hdrag, Hdt, Hnext. subst s0. cbn.
  repeat split; lra.
Qed.

Lemma nudged_facts :
  exists m,
    currentMesh nudged = Some m /\ isDragging nudged = false /\
    rotationVelocity nudged = mkVector2 0.0005 0 /\
    charIndex nudged = 0%Z /\ meshStartTime nudged = 0.
Proof.
  destruct loadedState_facts as (m0 & Hm0 & Hci & Hst & _).
  unfold nudged, run;
    cbn [fold_left after dispatch onTouchStart onTouchMove onTouchEnd v2x v2y].
  set (ls := loadedState) in *. clearbody ls.
  destruct (onMove_dragging 0 0.05 (onDown 0 0 0 ls) m0 eq_refl Hm0)
    as (m & Hm & _ & Hvel & _ & Hdt & _ & Hci' & Hst' & _).
  unfold onUp.
  assert (Hno : isTap (holdTime 1000 (set_isDragging false (onMove 0 0.05 (onDown 0 0 0 ls))))
                      (travel 0 0.05 (set_isDragging false (onMove 0 0.05 (onDown 0 0 0 ls))))
                = false).
  { unfold isTap, holdTime. cbn [downTime set_isDragging]. rewrite Hdt. cbn [downTime onDown
      set_rotationVelocity set_downTime].
    rewrite (proj2 (lt_false _ _)) by lra. reflexivity. }
  rewrite Hno. cbn [currentMesh isDragging rotationVelocity charIndex meshStartTime
                    set_isDragging].
  exists m. rewrite Hm, Hvel, Hci', Hst'.
  cbn [charIndex meshStartTime previousMouse onDown set_rotationVelocity set_downTime
       set_downPos set_previousMouse set_isDragging v2x v2y].
  split; [reflexivity |]. split; [reflexivity |].
  split; [f_equal; lra |]. split; assumption.
Qed.

(** ** The camera fit and the shading formula *)

Lemma half_fov : camera_fov * (JS.Math_PI / 180) / 2 = PI / 8.
Proof. unfold camera_fov, JS.Math_PI. lra. Qed.

Lemma tan_half_fov_pos : 0 < tan (PI / 8).
Proof.
  pose proof PI_RGT_0 as Hpi.
  apply tan_gt_0; lra.
Qed.

Lemma cameraFit_eq (sizeY : R) :
  cameraFit sizeY = (0.9 * sizeY) / (2 * tan (PI / 8)) + 40.
Proof.
  unfold cameraFit. rewrite half_fov. unfold JS.Math_tan.
  replace (sizeY * 0.9) with (0.9 * sizeY) by lra. reflexivity.
Qed.

Lemma clamp01_bounds (x : R) : 0 <= GLSL.clamp x 0 1 <= 1.
Proof.
  unfold GLSL.clamp, Rmin, Rmax.
  destruct (Rle_dec x 0); destruct (Rle_dec _ 1); lra.
Qed.

Lemma clamp01_mono (x y : R) : x <= y -> GLSL.clamp x 0 1 <= GLSL.clamp y 0 1.
Proof.
  intros Hxy. unfold GLSL.clamp, Rmin, Rmax.
  destruct (Rle_dec x 0); destruct (Rle_dec y 0);
    repeat match goal with |- context [Rle_dec ?a 1] => destruct (Rle_dec a 1) end; lra.
Qed.

Lemma cubic_mono (a b : R) :
  0 <= a -> a <= b -> b <= 1 -> a * a * (3 - 2 * a) <= b * b * (3 - 2 * b).
Proof.
  intros Ha Hab Hb.
  assert (H : b * b * (3 - 2 * b) - a * a * (3 - 2 * a)
              = (b - a) * (3 * (a + b) - 2 * (a * a + a * b + b * b))) by ring.
  assert (H1 : a * a <= a) by nra.
  assert (H2 : b * b <= b) by nra.
  assert (H3 : 2 * (a * b) <= a + b) by nra.
  assert (H4 : 0 <= (b - a) * (3 * (a + b) - 2 * (a * a + a * b + b * b))).
  { apply Rmult_le_pos; lra. }
  lra.
Qed.

Lemma cubic_bounds (t : R) : 0 <= t <= 1 -> 0 <= t * t * (3 - 2 * t) <= 1.
Proof.
  intros [H0 H1]. split.
  - apply Rmult_le_pos; [apply Rmult_le_pos |]; lra.
  - assert (H : 1 - t * t * (3 - 2 * t) = (1 - t) * (1 - t) * (1 + 2 * t)) by ring.
    assert (0 <= (1 - t) * (1 - t) * (1 + 2 * t))
      by (apply Rmult_le_pos; [apply Rmult_le_pos |]; lra).
    lra.
Qed.

Lemma smoothstep_from_0 (spread x : R) :
  GLSL.smoothstep 0.0 spread x =
  GLSL.clamp (x / spread) 0 1 * GLSL.clamp (x / spread) 0 1
  * (3 - 2 * GLSL.clamp (x / spread) 0 1).
Proof.
  unfold GLSL.smoothstep.
  replace ((x - 0.0) / (spread - 0.0)) with (x / spread); [reflexivity |].
  replace (x - 0.0) with x by lra. replace (spread - 0.0) with spread by lra. reflexivity.
Qed.

(** The beam intensity on the two sides of the scan line, at distance [d]. *)
Lemma beamIntensity_above (d : R) :
  0 < d ->
  Shader.beamIntensity d = (1.0 - GLSL.smoothstep 0.0 180.0 d) ^ 2 * 0.6.
Proof.
  intros Hd. unfold Shader.beamIntensity, GLSL.pow2.
  destruct (Rgt_dec d 0.0) as [H | H]; [| exfalso; apply H; lra].
  rewrite Rabs_right by lra. reflexivity.
Qed.

Lemma beamIntensity_below (d : R) :
  0 <= d ->
  Shader.beamIntensity (- d) = (1.0 - GLSL.smoothstep 0.0 100.0 d) ^ 2 * 0.6.
Proof.
  intros Hd. unfold Shader.beamIntensity, GLSL.pow2.
  destruct (Rgt_dec (- d) 0.0) as [H | H]; [exfalso; lra |].
  rewrite Rabs_Ropp, Rabs_right by lra. reflexivity.
Qed.

Lemma beamIntensity_sides (d : R) :
  0 <= d -> Shader.beamIntensity (- d) <= Shader.beamIntensity d.
Proof.
  intros Hd. destruct (Req_dec d 0) as [-> | Hne].
  - rewrite Ropp_0. lra.
  - rewrite beamIntensity_below by lra. rewrite beamIntensity_above by lra.
    rewrite !smoothstep_from_0.
    pose proof (clamp01_bounds (d / 180.0)) as Ba.
    pose proof (clamp01_bounds (d / 100.0)) as Bb.
    assert (Hab : GLSL.clamp (d / 180.0) 0 1 <= GLSL.clamp (d / 100.0) 0 1)
      by (apply clamp01_mono; lra).
    set (a := GLSL.clamp (d / 180.0) 0 1) in *.
    set (b := GLSL.clamp (d / 100.0) 0 1) in *.
    pose proof (cubic_mono a b (proj1 Ba) Hab (proj2 Bb)) as Hm.
    pose proof (cubic_bounds a Ba) as Ca.
    pose proof (cubic_bounds b Bb) as Cb.
    set (fa := a * a * (3 - 2 * a)) in *.
    set (fb := b * b * (3 - 2 * b)) in *.
    nra.
Qed.

Lemma beamIntensity_far_above (d : R) : 180 <= d -> Shader.beamIntensity d = 0.
Proof.
  intros Hd. rewrite beamIntensity_above by lra. rewrite smoothstep_from_0.
  assert (Hc : GLSL.clamp (d / 180.0) 0 1 = 1).
  { unfold GLSL.clamp, Rmin, Rmax.
    destruct (Rle_dec (d / 180.0) 0); destruct (Rle_dec _ 1); lra. }
  rewrite Hc. lra.
Qed.

Lemma rimOf_values : Shader.rimOf 1 = 0 /\ Shader.rimOf 0 = 1.
Proof.
  unfold Shader.rimOf, GLSL.pow2, Rmax.
  split; destruct (Rle_dec 0.0 _); lra.
Qed.

Lemma rimOf_pos (NdotV : R) : NdotV < 1 -> 0 < Shader.rimOf NdotV.
Proof.
  intros H. unfold Shader.rimOf, GLSL.pow2, Rmax.
  destruct (Rle_dec 0.0 NdotV); nra.
Qed.

(** * The claims *)

(** ** C1: the cycle *)

(** C1.  In a reachable state whose frame loop runs, a frame at clock reading
    [now] returns.  If the time since the cycle start exceeds the cycle
    duration (2.0 s), the index moves to [(index + 1) mod 8], which is another
    index, the cycle start becomes [now], and the current mesh is a new object
    built from the character at the new index.  Otherwise the index, the cycle
    start and the mesh object stay.  Over any sequence of frames the index
    ends at the start index plus the number of frames that found the cycle
    expired, modulo 8, so that each expiry advances it by one and nothing else
    does; when the clock readings never go back, consecutive advances are more
    than the cycle duration apart: the number of advances times the duration
    is at most the time from the first cycle start to the last frame. *)
Theorem cycle_advances_once (s : State) (now rnd : R) (ticks : list (R * R)) :
  reachable s -> animating s = true -> isRandom rnd ->
  Forall (fun t => isRandom (snd t)) ticks ->
  (exists s', animate now rnd s = Some s' /\
     (now - meshStartTime s > CYCLE_DURATION ->
        charIndex s' = ((charIndex s + 1) mod 8)%Z /\ charIndex s' <> charIndex s /\
        meshStartTime s' = now /\
        exists m', currentMesh s' = Some m' /\ meshId m' = nextMeshId s /\
                   JS.index CHARS (charIndex s') = Some (text (geometry m'))) /\
     (now - meshStartTime s <= CYCLE_DURATION ->
        charIndex s' = charIndex s /\ meshStartTime s' = meshStartTime s /\
        nextMeshId s' = nextMeshId s)) /\
  (exists s', frames ticks s = Some s' /\
     charIndex s' =
       ((charIndex s + Z.of_nat (expiries (meshStartTime s) (map fst ticks))) mod 8)%Z /\
     (monotonic (meshStartTime s) (map fst ticks) ->
        INR (expiries (meshStartTime s) (map fst ticks)) * CYCLE_DURATION
        <= last (map fst ticks) (meshStartTime s) - meshStartTime s)).
Proof.
  intros Hreach Han Hrnd Hall.
  pose proof (reachable_invariant s Hreach) as Hinv.
  assert (Hv : (0 <= charIndex s < 8)%Z).
  { destruct Hinv as [Hv _]. unfold validIndex in Hv. rewrite CHARS_length in Hv. exact Hv. }
  split.
  - destruct (frame_step now rnd s Hinv Han Hrnd) as (s' & Hd & _ & _ & Hgt & Hle).
    exists s'. split; [exact Hd |]. split; [| exact Hle].
    intros E. destruct (Hgt E) as (Hc & Hs & Hm).
    rewrite (rem_is_mod _ (proj1 Hinv)) in Hc.
    split; [exact Hc |]. split; [| split; [exact Hs | exact Hm]].
    rewrite Hc. destruct (Z.eq_dec (charIndex s) 7) as [E7 | E7].
    + rewrite E7. discriminate.
    + rewrite Z.mod_small; lia.
  - destruct (frames_count ticks s Hinv Han Hall) as (s' & Hf & _ & _ & Hc & _).
    exists s'. split; [exact Hf |]. split; [exact Hc |].
    apply expiries_spaced.
Qed.

Lemma cycle_advances_once_witness :
  (exists s', animate 3 0 loadedState = Some s' /\
     charIndex s' = 1%Z /\ meshStartTime s' = 3 /\
     exists m', currentMesh s' = Some m' /\
                JS.index CHARS 1 = Some (text (geometry m'))) /\
  (exists s', frames twoFrames loadedState = Some s' /\ charIndex s' = 1%Z).
Proof.
  destruct loadedState_facts as (m0 & _ & Hci & Hst & _).
  assert (Hall : Forall (fun t : R * R => isRandom (snd t)) twoFrames).
  { unfold twoFrames. repeat (constructor; [exact random_0 |]). constructor. }
  destruct (cycle_advances_once loadedState 3 0 twoFrames loadedState_reachable
              loadedState_animating random_0 Hall)
    as [(s' & Ha & Hexp & _) (s'' & Hf & Hc & _)].
  split.
  - assert (Hgt : 3 - meshStartTime loadedState > CYCLE_DURATION)
      by (rewrite Hst; unfold CYCLE_DURATION; lra).
    destruct (Hexp Hgt) as (Hc' & _ & Hs' & m' & Hm' & _ & Htext).
    rewrite Hci in Hc'. change ((0 + 1) mod 8)%Z with 1%Z in Hc'.
    exists s'. split; [exact Ha |]. split; [exact Hc' |]. split; [exact Hs' |].
    exists m'. split; [exact Hm' |]. rewrite <- Hc'. exact Htext.
  - exists s''. split; [exact Hf |].
    rewrite Hc, Hci, Hst. unfold twoFrames. cbn [map fst expiries].
    rewrite (proj2 (gt_false (1 - 0) CYCLE_DURATION)) by (unfold CYCLE_DURATION; lra).
    rewrite (proj2 (gt_true (3 - 0) CYCLE_DURATION)) by (unfold CYCLE_DURATION; lra).
    reflexivity.
Defined.

(** ** C2: the scan position *)

(** C2.  The scan position is the linear interpolation from [topY + 250] at
    progress 0 to [bottomY - 250] at progress 1: it equals
    [(topY + 250) + progress * ((bottomY - 250) - (topY + 250))], it is
    [topY + 250] at 0 and [bottomY - 250] at 1, and when [topY >= bottomY] it
    does not increase as progress goes from 0 to 1.  It is the value a frame
    writes to the uniform [uScanY] whenever a mesh exists, for the bounds in
    force at the end of the frame and the progress [elapsed / 2.0]. *)
Theorem scan_position_interpolates (topY bottomY : R) :
  (forall progress,
     scanPosition topY bottomY progress =
     (topY + 250) + progress * ((bottomY - 250) - (topY + 250))) /\
  scanPosition topY bottomY 0 = topY + 250 /\
  scanPosition topY bottomY 1 = bottomY - 250 /\
  (topY >= bottomY ->
   forall p q, 0 <= p -> p <= q -> q <= 1 ->
     scanPosition topY bottomY q <= scanPosition topY bottomY p) /\
  (forall now rnd s s',
     geoTopY s' = topY -> geoBottomY s' = bottomY ->
     animate now rnd s = Some s' -> currentMesh s' <> None ->
     uScanY (uniforms s') =
     scanPosition topY bottomY ((now - meshStartTime s) / CYCLE_DURATION)).
Proof.
  unfold scanPosition, lerp. repeat split.
  - intros progress. lra.
  - lra.
  - lra.
  - intros Hge p q Hp Hpq Hq. nra.
  - intros now rnd s s' Ht Hb Ha Hm.
    rewrite (animate_scan now rnd s s' Ha Hm), Ht, Hb. reflexivity.
Qed.

Lemma scan_position_interpolates_witness :
  scanPosition 25 (-25) 0 = 25 + 250 /\
  scanPosition 25 (-25) 1 = -25 - 250 /\
  scanPosition 25 (-25) 0.75 <= scanPosition 25 (-25) 0.25.
Proof.
  destruct (scan_position_interpolates 25 (-25)) as (_ & H0 & H1 & Hmono & _).
  split; [exact H0 |]. split; [exact H1 |].
  apply Hmono; lra.
Defined.

(** ** C3: taps *)








(** ** C4: rotation continuity *)

(** C4.  When [createLetter] replaces a mesh, it returns with a new mesh
    object whose rotation, on all three axes, is the rotation the previous
    mesh had when [createLetter] was called.  The rotation is copied first:
    after the copy the previous mesh is still in the scene and its geometry
    not yet disposed; removal and disposal follow, and at the end the previous
    geometry is disposed and the previous mesh is no longer current. *)
Theorem rotation_carried_over (rnd : R) (s : State) (font : Font) (m : Mesh) :
  currentFont s = Some font -> currentMesh s = Some m ->
  validIndex (charIndex s) -> isRandom rnd ->
  exists s' m',
    createLetter rnd s = Some s' /\
    currentMesh s' = Some m' /\
    meshId m' = nextMeshId s /\
    ex (rotation m') = ex (rotation m) /\
    ey (rotation m') = ey (rotation m) /\
    ez (rotation m') = ez (rotation m) /\
    retirePrevious s = geometryDispose m (sceneRemove m (saveRotation m s)) /\
    currentRotation (saveRotation m s) = rotation m /\
    scene (saveRotation m s) = scene s /\
    disposed (saveRotation m s) = disposed s /\
    disposed s' = meshId m :: disposed s /\
    scene s' = removeChild (meshId m) (scene s) ++ [meshId m'].
Proof.
  intros Hfont Hm Hidx Hrnd.
  destruct (CHARS_index _ Hidx) as [char Hchar].
  destruct (BEAM_COLORS_pick _ Hrnd) as [col Hcol].
  unfold createLetter. rewrite Hfont.
  unfold retirePrevious. rewrite Hm.
  cbn [charIndex geometryDispose sceneRemove saveRotation set_disposed set_scene
       set_currentRotation].
  rewrite Hchar. cbn [JS.bind]. rewrite Hcol. cbn [JS.bind].
  eexists; eexists. split; [reflexivity |].
  cbn. rewrite eta_Euler. repeat split; reflexivity.
Qed.

Lemma rotation_carried_over_witness :
  exists m, currentMesh loadedState = Some m /\
  exists s' m',
    createLetter 0 loadedState = Some s' /\
    currentMesh s' = Some m' /\
    meshId m' = nextMeshId loadedState /\
    ex (rotation m') = ex (rotation m) /\
    ey (rotation m') = ey (rotation m) /\
    ez (rotation m') = ez (rotation m) /\
    retirePrevious loadedState =
      geometryDispose m (sceneRemove m (saveRotation m loadedState)) /\
    currentRotation (saveRotation m loadedState) = rotation m /\
    scene (saveRotation m loadedState) = scene loadedState /\
    disposed (saveRotation m loadedState) = disposed loadedState /\
    disposed s' = meshId m :: disposed loadedState /\
    scene s' = removeChild (meshId m) (scene loadedState) ++ [meshId m'].
Proof.
  pose proof (reachable_invariant _ loadedState_reachable) as Hinv.
  destruct (loaded_of_animating _ Hinv loadedState_animating) as (font & m & Hf & Hm).
  exists m. split; [exact Hm |].
  exact (rotation_carried_over 0 loadedState font m Hf Hm (proj1 Hinv) random_0).
Defined.

(** ** C5: inertia, damping and drift *)

(** C5 read as stated fails: on a frame of the state [nudged] (not dragging,
    velocity (0.0005, 0) left by the drag) both damped components are below
    0.001, and the rotation about x grows by the velocity and the drift
    together, 0.0007, not by the drift 0.0002 alone. *)
Lemma drift_replaces_inertia_counterexample :
  exists m s' m',
    currentMesh nudged = Some m /\ isDragging nudged = false /\
    rotationVelocity nudged = mkVector2 0.0005 0 /\
    animate 1 0 nudged = Some s' /\ currentMesh s' = Some m' /\
    Rabs (v2x (rotationVelocity s')) < 0.001 /\ Rabs (v2y (rotationVelocity s')) < 0.001 /\
    ex (rotation m') = ex (rotation m) + 0.0007 /\
    ex (rotation m') <> ex (rotation m) + 0.0002.
Proof.
  destruct nudged_facts as (m & Hm & Hdrag & Hvel & Hci & _).
  destruct (animate_rotation 1 0 nudged m Hm) as (s' & m' & Ha & Hm' & Hrot & Hv' & _);
    [rewrite Hci; apply (initial_valid 0 0 0) | exact random_0 |].
  exists m, s', m'.
  unfold turned, damped in Hrot, Hv'. rewrite Hdrag, Hvel in Hrot, Hv'.
  cbn [v2x v2y] in Hrot, Hv'. unfold friction in Hrot, Hv'.
  assert (Hslow : isSlow {| v2x := 0.0005 * 0.99; v2y := 0 * 0.99 |} = true).
  { apply isSlow_iff; cbn [v2x v2y]; split; apply Rabs_small; lra. }
  rewrite Hslow in Hrot. rewrite Hrot, Hv'. cbn [ex v2x v2y].
  split; [exact Hm |]. split; [exact Hdrag |]. split; [exact Hvel |].
  split; [exact Ha |]. split; [exact Hm' |].
  split; [apply Rabs_small; lra |]. split; [apply Rabs_small; lra |].
  split; lra.
Qed.

(** C5, as the code has it.  Take a frame on a state with a mesh.  While not
    dragging, the angular velocity is added to the rotation (x and y) and is
    then multiplied by the friction 0.99 on both axes; if after that both
    components have magnitude strictly below 0.001, the drift (0.0002, 0.0003,
    0.0001) is added to the three axes as well, on top of the velocity already
    added; otherwise no drift is added.  While dragging, the frame changes
    neither the rotation nor the velocity, so no drift is applied. *)
Theorem idle_rotation (now rnd : R) (s : State) (m : Mesh) :
  currentMesh s = Some m -> validIndex (charIndex s) -> isRandom rnd ->
  exists s' m',
    animate now rnd s = Some s' /\ currentMesh s' = Some m' /\
    (isDragging s = false ->
       v2x (rotationVelocity s') = v2x (rotationVelocity s) * 0.99 /\
       v2y (rotationVelocity s') = v2y (rotationVelocity s) * 0.99 /\
       (Rabs (v2x (rotationVelocity s')) < 0.001 /\ Rabs (v2y (rotationVelocity s')) < 0.001 ->
          ex (rotation m') = ex (rotation m) + v2x (rotationVelocity s) + 0.0002 /\
          ey (rotation m') = ey (rotation m) + v2y (rotationVelocity s) + 0.0003 /\
          ez (rotation m') = ez (rotation m) + 0.0001) /\
       (~ (Rabs (v2x (rotationVelocity s')) < 0.001 /\
           Rabs (v2y (rotationVelocity s')) < 0.001) ->
          ex (rotation m') = ex (rotation m) + v2x (rotationVelocity s) /\
          ey (rotation m') = ey (rotation m) + v2y (rotationVelocity s) /\
          ez (rotation m') = ez (rotation m))) /\
    (isDragging s = true ->
       rotationVelocity s' = rotationVelocity s /\ rotation m' = rotation m).
Proof.
  intros Hm Hidx Hrnd.
  destruct (animate_rotation now rnd s m Hm Hidx Hrnd) as (s' & m' & Ha & Hm' & Hrot & Hvel & _).
  exists s', m'. split; [exact Ha |]. split; [exact Hm' |].
  rewrite Hrot, Hvel. unfold turned, damped. split; intros Hdrag; rewrite Hdrag.
  - cbn [v2x v2y]. split; [reflexivity |]. split; [reflexivity |].
    change 0.99 with friction.
    split; intros Hslow.
    + rewrite (proj2 (isSlow_iff (mkVector2 _ _)) Hslow). repeat split.
    + destruct (isSlow _) eqn:E; [| repeat split].
      apply isSlow_iff in E. contradiction.
  - split; reflexivity.
Qed.

Lemma idle_rotation_witness :
  exists m s' m',
    currentMesh nudged = Some m /\
    animate 1 0 nudged = Some s' /\ currentMesh s' = Some m' /\
    v2x (rotationVelocity s') = 0.0005 * 0.99 /\
    v2y (rotationVelocity s') = 0 * 0.99 /\
    ex (rotation m') = ex (rotation m) + 0.0005 + 0.0002 /\
    ey (rotation m') = ey (rotation m) + 0 + 0.0003 /\
    ez (rotation m') = ez (rotation m) + 0.0001.
Proof.
  destruct nudged_facts as (m & Hm & Hdrag & Hvel & Hci & _).
  assert (Hidx : validIndex (charIndex nudged))
    by (rewrite Hci; exact (initial_valid 0 0 0)).
  destruct (idle_rotation 1 0 nudged m Hm Hidx random_0) as (s' & m' & Ha & Hm' & Hidle & _).
  destruct (Hidle Hdrag) as (Hvx & Hvy & Hslow & _).
  rewrite Hvel in Hvx, Hvy, Hslow. cbn [v2x v2y] in Hvx, Hvy, Hslow.
  exists m, s', m'.
  split; [exact Hm |]. split; [exact Ha |]. split; [exact Hm' |].
  split; [exact Hvx |]. split; [exact Hvy |].
  apply Hslow. rewrite Hvx, Hvy. split; apply Rabs_def1; lra.
Defined.

(** ** C6: the frame that ends a cycle *)

(** C6 read as stated fails twice on the loaded state, whose index and cycle
    start are 0.  A frame at clock reading 2.0 finds the elapsed time equal to
    the duration, not above it, and keeps the index 0.  A frame at 2.5 moves
    the index to 1, and writes the scan position for progress 1.25 over the
    new bounds, -412.5, where [topY + 250] is 275. *)
Lemma cycle_restart_counterexample :
  charIndex loadedState = 0%Z /\ meshStartTime loadedState = 0 /\
  (exists s', animate 2 0 loadedState = Some s' /\ charIndex s' = 0%Z) /\
  (exists s', animate 2.5 0 loadedState = Some s' /\ charIndex s' = 1%Z /\
     geoTopY s' = 25 /\ uScanY (uniforms s') = -412.5 /\
     uScanY (uniforms s') <> geoTopY s' + 250).
Proof.
  destruct loadedState_facts as (m0 & Hm0 & Hci & Hst & Hfont & _).
  pose proof (reachable_invariant _ loadedState_reachable) as Hinv.
  pose proof loadedState_animating as Han.
  set (ls := loadedState) in *. clearbody ls.
  split; [exact Hci |]. split; [exact Hst |]. split.
  - assert (Hle : 2 - meshStartTime ls <= CYCLE_DURATION)
      by (rewrite Hst; unfold CYCLE_DURATION; lra).
    destruct (frame_step 2 0 ls Hinv Han random_0) as (s' & Ha & _ & _ & _ & Hidle).
    exists s'. split; [exact Ha |]. destruct (Hidle Hle) as (Hc & _). congruence.
  - assert (Hgt : 2.5 - meshStartTime ls > CYCLE_DURATION)
      by (rewrite Hst; unfold CYCLE_DURATION; lra).
    destruct (animate_restart 2.5 0 ls Hinv Han random_0 Hgt)
      as (s' & font & char & Ha & _ & _ & Hf & _ & Hc & _ & Htop & Hbot & Hscan).
    rewrite Hfont in Hf. injection Hf as <-.
    cbn [textBounds sampleFont bmax bmin vy] in Htop, Hbot.
    assert (Ht : geoTopY s' = 25) by lra.
    assert (Hb : geoBottomY s' = -25) by lra.
    exists s'. split; [exact Ha |].
    split; [rewrite Hc, Hci, CHARS_length; reflexivity |].
    split; [exact Ht |].
    rewrite Hscan, Ht, Hb, Hst. unfold scanPosition, lerp, CYCLE_DURATION. split; lra.
Qed.

(** C6, as the code has it.  With the index at 0, a frame whose clock reading
    is more than 2.0 s after the cycle start moves the index to 1 and makes
    that reading the new cycle start, so that the scan position of the new
    cycle at its start is [topY + 250] for the new bounds: a frame taken at
    that same reading writes [topY + 250] to [uScanY] and keeps the index. *)
Theorem cycle_restart (s : State) (now rnd rnd' : R) :
  reachable s -> animating s = true -> isRandom rnd -> isRandom rnd' ->
  charIndex s = 0%Z -> now - meshStartTime s > CYCLE_DURATION ->
  exists s',
    animate now rnd s = Some s' /\ charIndex s' = 1%Z /\ meshStartTime s' = now /\
    scanPosition (geoTopY s') (geoBottomY s') ((now - meshStartTime s') / CYCLE_DURATION)
      = geoTopY s' + 250 /\
    exists s'',
      animate now rnd' s' = Some s'' /\ charIndex s'' = 1%Z /\
      geoTopY s'' = geoTopY s' /\ uScanY (uniforms s'') = geoTopY s' + 250.
Proof.
  intros Hreach Han Hrnd Hrnd' Hci Hgt.
  pose proof (reachable_invariant s Hreach) as Hinv.
  destruct (animate_restart now rnd s Hinv Han Hrnd Hgt)
    as (s' & font & char & Ha & Hinv' & Han' & _ & _ & Hc & Hst & _).
  assert (Hzero : (now - meshStartTime s') / CYCLE_DURATION = 0)
    by (rewrite Hst; unfold CYCLE_DURATION; lra).
  exists s'. split; [exact Ha |].
  split; [rewrite Hc, Hci, CHARS_length; reflexivity |].
  split; [exact Hst |].
  split; [rewrite Hzero; apply scanPosition_start |].
  assert (Hle : now - meshStartTime s' <= CYCLE_DURATION)
    by (rewrite Hst; unfold CYCLE_DURATION; lra).
  destruct (frame_step now rnd' s' Hinv' Han' Hrnd') as (s'' & Ha2 & _ & _ & _ & Hidle).
  destruct (Hidle Hle) as (Hc2 & _).
  destruct (loaded_of_animating s' Hinv' Han') as (font' & m' & _ & Hm').
  exists s''. split; [exact Ha2 |].
  split; [rewrite Hc2, Hc, Hci, CHARS_length; reflexivity |].
  pose proof Ha2 as Ha3. rewrite (animate_idle now rnd' s' Hle), Hm' in Ha3.
  injection Ha3 as Hs''.
  destruct (afterCycle_controls (now - meshStartTime s') (set_animating true s'))
    as (_ & _ & _ & Ht & Hb & _).
  destruct (afterCycle_mesh (now - meshStartTime s') (set_animating true s') m' Hm')
    as (m'' & Hm'' & _).
  assert (Htop : geoTopY s'' = geoTopY s') by (rewrite <- Hs''; exact Ht).
  assert (Hbot : geoBottomY s'' = geoBottomY s') by (rewrite <- Hs''; exact Hb).
  split; [exact Htop |].
  rewrite (animate_scan now rnd' s' s'' Ha2), Htop, Hbot, Hzero.
  - apply scanPosition_start.
  - rewrite <- Hs'', Hm''. discriminate.
Qed.

Lemma cycle_restart_witness :
  exists s',
    animate 2.5 0 loadedState = Some s' /\ charIndex s' = 1%Z /\ meshStartTime s' = 2.5 /\
    scanPosition (geoTopY s') (geoBottomY s') ((2.5 - meshStartTime s') / CYCLE_DURATION)
      = geoTopY s' + 250 /\
    exists s'',
      animate 2.5 0 s' = Some s'' /\ charIndex s'' = 1%Z /\
      geoTopY s'' = geoTopY s' /\ uScanY (uniforms s'') = geoTopY s' + 250.
Proof.
  destruct loadedState_facts as (m0 & _ & Hci & Hst & _).
  apply (cycle_restart loadedState 2.5 0 0).
  - exact loadedState_reachable.
  - exact loadedState_animating.
  - exact random_0.
  - exact random_0.
  - exact Hci.
  - rewrite Hst. unfold CYCLE_DURATION. lra.
Defined.

(** ** C7: the character set and the index *)

(** C7.  The character set is the fixed sequence K, S, H, T, C, L, O, M: eight
    distinct characters, the space of the configuration string filtered out.
    In every reachable state the index is a position of that sequence, and
    every callback the host can run there (pointer and touch handlers, the
    font callback, a frame) returns, leaves the index a valid position, and
    either keeps it or moves it to [(index + 1) mod 8]. *)
Theorem index_always_valid (s : State) :
  reachable s ->
  CHARS = ["K"; "S"; "H"; "T"; "C"; "L"; "O"; "M"]%string /\
  NoDup CHARS /\
  (0 <= charIndex s < 8)%Z /\
  forall e, enabled e s -> wellFormed e ->
    exists s', dispatch e s = Some s' /\
      (0 <= charIndex s' < 8)%Z /\
      (charIndex s' = charIndex s \/ charIndex s' = ((charIndex s + 1) mod 8)%Z).
Proof.
  intros Hreach. pose proof (reachable_invariant s Hreach) as Hinv.
  split; [exact CHARS_eval |]. split; [exact CHARS_NoDup |].
  assert (Hv : forall i, validIndex i -> (0 <= i < 8)%Z)
    by (unfold validIndex; rewrite CHARS_length; auto).
  split; [apply Hv, Hinv |].
  intros e Hen Hwf.
  destruct (dispatch_invariant e s Hinv Hen Hwf) as (s' & Hd & Hinv' & Hstep).
  exists s'. split; [exact Hd |]. split; [apply Hv, Hinv' |].
  rewrite <- (rem_is_mod (charIndex s)) by apply Hinv. exact Hstep.
Qed.

Lemma index_always_valid_witness :
  CHARS = ["K"; "S"; "H"; "T"; "C"; "L"; "O"; "M"]%string /\
  NoDup CHARS /\
  (0 <= charIndex (initialState 0 0 0) < 8)%Z /\
  exists s', dispatch (MouseDown 0 0 0) (initialState 0 0 0) = Some s' /\
    (0 <= charIndex s' < 8)%Z /\
    (charIndex s' = charIndex (initialState 0 0 0) \/
     charIndex s' = ((charIndex (initialState 0 0 0) + 1) mod 8)%Z).
Proof.
  destruct (index_always_valid (initialState 0 0 0) (reach_init 0 0 0))
    as (Hchars & Hnodup & Hidx & Hstep).
  split; [exact Hchars |]. split; [exact Hnodup |]. split; [exact Hidx |].
  exact (Hstep (MouseDown 0 0 0) I I).
Defined.

(** ** C8: the camera fit *)

(** C8 read as stated fails: for a glyph of height 50 the camera is put 40
    units behind the fit distance [(0.9 * 50) / (2 * tan (fov / 2))]. *)
Lemma camera_distance_counterexample :
  exists s',
    createLetter 0 (set_currentFont (Some sampleFont) (initialState 0.5 0.5 0.5)) = Some s' /\
    cameraZ s' <> (0.9 * 50) / (2 * tan (camera_fov * (PI / 180) / 2)).
Proof.
  destruct (createLetter_spec 0 (set_currentFont (Some sampleFont) (initialState 0.5 0.5 0.5))
              sampleFont eq_refl (initial_valid 0.5 0.5 0.5) random_0)
    as (s' & m' & char & Hc & _ & _ & _ & _ & _ & _ & _ & _ & _ & _ & Hcam & _).
  exists s'. split; [exact Hc |].
  rewrite Hcam, cameraFit_eq. cbn [textBounds sampleFont bmax bmin vy].
  pose proof half_fov as Hf. unfold JS.Math_PI in Hf. rewrite Hf.
  intros Heq. unfold Rdiv in Heq.
  replace (0.9 * (50 - 0)) with (0.9 * 50) in Heq by lra. lra.
Qed.

(** C8, as the code has it.  [createLetter] sets [camera.position.z] to the
    fit distance of the new geometry plus a fixed offset of 40:
    [(0.9 * sizeY) / (2 * tan (fov / 2)) + 40], where [sizeY] is the height of
    the bounding box of the geometry built from the current character and
    [fov] is the camera's 45 degrees in radians, so that [fov / 2] is [PI / 8],
    whose tangent is positive. *)
Theorem camera_fit_with_offset (rnd : R) (s : State) (font : Font) :
  currentFont s = Some font -> validIndex (charIndex s) -> isRandom rnd ->
  exists s' char,
    createLetter rnd s = Some s' /\
    JS.index CHARS (charIndex s) = Some char /\
    camera_fov * (PI / 180) / 2 = PI / 8 /\ 0 < tan (PI / 8) /\
    cameraZ s' =
      (0.9 * (vy (bmax (textBounds font char)) - vy (bmin (textBounds font char))))
      / (2 * tan (camera_fov * (PI / 180) / 2)) + 40.
Proof.
  intros Hfont Hidx Hrnd.
  destruct (createLetter_spec rnd s font Hfont Hidx Hrnd)
    as (s' & m' & char & Hc & Hchar & _ & _ & _ & _ & _ & _ & _ & _ & _ & Hcam & _).
  exists s', char. split; [exact Hc |]. split; [exact Hchar |].
  pose proof half_fov as Hf. unfold JS.Math_PI in Hf.
  split; [exact Hf |]. split; [exact tan_half_fov_pos |].
  rewrite Hcam, cameraFit_eq, Hf. reflexivity.
Qed.

Lemma camera_fit_with_offset_witness :
  exists s' char,
    createLetter 0 (set_currentFont (Some sampleFont) (initialState 0.5 0.5 0.5)) = Some s' /\
    JS.index CHARS
      (charIndex (set_currentFont (Some sampleFont) (initialState 0.5 0.5 0.5))) = Some char /\
    camera_fov * (PI / 180) / 2 = PI / 8 /\ 0 < tan (PI / 8) /\
    cameraZ s' =
      (0.9 * (vy (bmax (textBounds sampleFont char)) - vy (bmin (textBounds sampleFont char))))
      / (2 * tan (camera_fov * (PI / 180) / 2)) + 40.
Proof.
  apply (camera_fit_with_offset 0
           (set_currentFont (Some sampleFont) (initialState 0.5 0.5 0.5)) sampleFont).
  - reflexivity.
  - exact (initial_valid 0.5 0.5 0.5).
  - exact random_0.
Defined.

(** ** C9: the shading formula *)

(** C9 read as stated fails where the beam does not reach: 200 units above
    the scan line the beam intensity is 0, and a silhouette point (rim 1) and
    a front-facing point (rim 0) both get total light 0. *)
Lemma edge_boost_counterexample :
  Shader.beamIntensity 200 = 0 /\
  Shader.rimOf 0 = 1 /\ Shader.rimOf 1 = 0 /\
  ~ (Shader.totalLight (Shader.beamIntensity 200) (Shader.rimOf 0) 0
     > Shader.totalLight (Shader.beamIntensity 200) (Shader.rimOf 1) 0).
Proof.
  destruct rimOf_values as [H1 H0].
  assert (Hb : Shader.beamIntensity 200 = 0) by (apply beamIntensity_far_above; lra).
  split; [exact Hb |]. split; [exact H0 |]. split; [exact H1 |].
  rewrite Hb, H0, H1. unfold Shader.totalLight. lra.
Qed.

(** C9, as the code has it.  At equal distance from the scan line the beam
    intensity below the line (spread 100) is at most the intensity above it
    (spread 180).  The total light is
    [beam * (1 + 1.6 * rim) * (1 + flash)]: with a positive beam intensity and
    a flash that is not negative, a point whose normal is not aligned with the
    view direction ([NdotV < 1], so a positive rim term, the silhouette
    included) gets strictly more light than a front-facing point
    ([NdotV = 1], rim 0); with beam intensity 0 both get 0. *)
Theorem beam_falloff_and_edge_boost (d beam NdotV flash : R) :
  (0 <= d -> Shader.beamIntensity (- d) <= Shader.beamIntensity d) /\
  Shader.totalLight beam (Shader.rimOf NdotV) flash
    = beam * (1 + 1.6 * Shader.rimOf NdotV) * (1 + flash) /\
  (0 < beam -> 0 <= flash -> NdotV < 1 ->
   Shader.totalLight beam (Shader.rimOf NdotV) flash
   > Shader.totalLight beam (Shader.rimOf 1) flash) /\
  Shader.totalLight 0 (Shader.rimOf NdotV) flash = 0 /\
  Shader.totalLight 0 (Shader.rimOf 1) flash = 0 /\
  (forall u v,
     let light :=
       Shader.totalLight
         (Shader.beamIntensity (vy (Shader.vPosition v) - uScanY u))
         (Shader.rimOf (GLSL.dot (GLSL.normalize (Shader.vNormal v))
                                 (GLSL.normalize (Shader.vViewPosition v))))
         (uClickFlash u) in
     Shader.main u v = mkColor (red (uBeamColor u) * light) (green (uBeamColor u) * light)
                               (blue (uBeamColor u) * light)).
Proof.
  split; [apply beamIntensity_sides |].
  split; [unfold Shader.totalLight; lra |].
  split.
  { intros Hb Hf Hn. destruct rimOf_values as [H1 _]. rewrite H1.
    pose proof (rimOf_pos NdotV Hn) as Hr. unfold Shader.totalLight.
    set (r := Shader.rimOf NdotV) in *.
    assert (Hbr : 0 < beam * r) by (apply Rmult_lt_0_compat; assumption).
    assert (Hbrf : 0 <= beam * r * flash) by (apply Rmult_le_pos; lra).
    nra. }
  split; [unfold Shader.totalLight; lra |].
  split; [unfold Shader.totalLight; lra |].
  intros u v. reflexivity.
Qed.

Lemma beam_falloff_and_edge_boost_witness :
  Shader.beamIntensity (- 50) <= Shader.beamIntensity 50 /\
  Shader.totalLight 0.6 (Shader.rimOf 0) 0.5 > Shader.totalLight 0.6 (Shader.rimOf 1) 0.5.
Proof.
  destruct (beam_falloff_and_edge_boost 50 0.6 0 0.5) as (Hsides & _ & Hboost & _).
  split; [apply Hsides; lra | apply Hboost; lra].
Defined.

(** ** C10: the handlers before the font arrives *)

(** C10.  In a reachable state in which the font has not arrived there is no
    mesh and no frame loop, and the handlers already act.  A press sets the
    dragging flag and zeroes the angular velocity.  A move changes nothing at
    all, whether or not a press came before.  A press followed by a release
    within the tap thresholds leaves [currentScale] at 1.1, [targetScale] at
    1.0 and [clickFlashValue] at 0.5, still with no font and no mesh; when the
    font then arrives, the first mesh is shown at the scale factor
    [lerp(1.1, 1.0, 0.1) = 1.09] (times the flattening 1.2, 0.8, 1) and with
    the flash uniform at [lerp(0.5, 0, 0.05) = 0.475]. *)
Theorem handlers_before_load (s : State) :
  reachable s -> currentFont s = None ->
  currentMesh s = None /\ animating s = false /\
  (forall x y now,
     isDragging (onDown x y now s) = true /\
     rotationVelocity (onDown x y now s) = mkVector2 0 0) /\
  (forall x y, onMove x y s = s) /\
  (forall x0 y0 t0 x y, onMove x y (onDown x0 y0 t0 s) = onDown x0 y0 t0 s) /\
  (forall x0 y0 t0 x1 y1 t1,
     t1 - t0 < 250 -> sqrt ((x1 - x0) ^ 2 + (y1 - y0) ^ 2) < 5 ->
     currentScale (onUp x1 y1 t1 (onDown x0 y0 t0 s)) = 1.1 /\
     targetScale (onUp x1 y1 t1 (onDown x0 y0 t0 s)) = 1.0 /\
     clickFlashValue (onUp x1 y1 t1 (onDown x0 y0 t0 s)) = 0.5 /\
     currentFont (onUp x1 y1 t1 (onDown x0 y0 t0 s)) = None /\
     currentMesh (onUp x1 y1 t1 (onDown x0 y0 t0 s)) = None /\
     forall font rnd t now rnd',
       isRandom rnd -> isRandom rnd' ->
       exists s' m,
         onFontLoaded font rnd t now rnd' (onUp x1 y1 t1 (onDown x0 y0 t0 s)) = Some s' /\
         currentMesh s' = Some m /\
         vx (scale m) = 1.09 * 1.2 /\ vy (scale m) = 1.09 * 0.8 /\ vz (scale m) = 1.09 /\
         uClickFlash (uniforms s') = 0.475).
Proof.
  intros Hreach Hfont.
  destruct (reachable_invariant s Hreach) as [Hidx Hload].
  assert (Hmesh : currentMesh s = None /\ animating s = false).
  { destruct Hload as [(_ & Hm & Ha) | (font & m & Hf & _)]; [auto | congruence]. }
  destruct Hmesh as [Hmesh Han].
  split; [exact Hmesh |]. split; [exact Han |].
  split; [intros x y now; split; reflexivity |].
  split; [intros x y; apply onMove_no_mesh, Hmesh |].
  split; [intros x0 y0 t0 x y; apply onMove_no_mesh; exact Hmesh |].
  intros x0 y0 t0 x1 y1 t1 Htime Hdist.
  assert (Htap : isTap (holdTime t1 (onDown x0 y0 t0 s)) (travel x1 y1 (onDown x0 y0 t0 s))
                 = true).
  { apply isTap_iff. split; [exact Htime | exact Hdist]. }
  rewrite (onUp_tap x1 y1 t1 (onDown x0 y0 t0 s) Htap).
  set (s2 := set_clickFlashValue 0.5 _).
  split; [reflexivity |]. split; [reflexivity |]. split; [reflexivity |].
  split; [exact Hfont |]. split; [exact Hmesh |].
  intros font rnd t now rnd' Hrnd Hrnd'.
  unfold onFontLoaded.
  destruct (createLetter_spec rnd (set_currentFont (Some font) s2) font eq_refl Hidx Hrnd)
    as (s1 & m1 & char & Hc & _ & Hm1 & _ & _ & _ & _ & _ & _ & _ & _ & _ & _ & _ & Hsame).
  destruct Hsame as (Hci & _ & _ & _ & _ & _ & Hts & Hcs & Hcf & _).
  rewrite Hc. cbn [JS.bind].
  destruct (animate_click now rnd' (set_meshStartTime t s1) m1 Hm1) as
    (s' & m' & Ha & Hm' & _ & Hsc & _ & Hu);
    [change (validIndex (charIndex s1)); rewrite Hci; exact Hidx | exact Hrnd' |].
  exists s', m'. split; [exact Ha |]. split; [exact Hm' |].
  change (currentScale (set_meshStartTime t s1)) with (currentScale s1) in Hsc.
  change (targetScale (set_meshStartTime t s1)) with (targetScale s1) in Hsc.
  change (clickFlashValue (set_meshStartTime t s1)) with (clickFlashValue s1) in Hu.
  rewrite Hts, Hcs in Hsc. rewrite Hcf in Hu. rewrite Hsc, Hu.
  subst s2. cbn [currentScale targetScale clickFlashValue set_currentFont set_clickFlashValue
                 set_targetScale set_currentScale vx vy vz].
  unfold lerp. repeat split; lra.
Qed.

Lemma handlers_before_load_witness :
  currentMesh (initialState 0.5 0.5 0.5) = None /\
  isDragging (onDown 100 100 0 (initialState 0.5 0.5 0.5)) = true /\
  onMove 150 120 (onDown 100 100 0 (initialState 0.5 0.5 0.5))
    = onDown 100 100 0 (initialState 0.5 0.5 0.5) /\
  currentScale (onUp 100 100 50 (onDown 100 100 0 (initialState 0.5 0.5 0.5))) = 1.1 /\
  clickFlashValue (onUp 100 100 50 (onDown 100 100 0 (initialState 0.5 0.5 0.5))) = 0.5 /\
  exists s' m,
    onFontLoaded sampleFont 0 0 0 0
      (onUp 100 100 50 (onDown 100 100 0 (initialState 0.5 0.5 0.5))) = Some s' /\
    currentMesh s' = Some m /\
    vx (scale m) = 1.09 * 1.2 /\ vy (scale m) = 1.09 * 0.8 /\ vz (scale m) = 1.09 /\
    uClickFlash (uniforms s') = 0.475.
Proof.
  destruct (handlers_before_load (initialState 0.5 0.5 0.5) (reach_init 0.5 0.5 0.5) eq_refl)
    as (Hmesh & _ & Hdown & _ & Hmove & Htap).
  assert (Htime : 50 - 0 < 250) by lra.
  assert (Hdist : sqrt ((100 - 100) ^ 2 + (100 - 100) ^ 2) < 5).
  { replace ((100 - 100) ^ 2 + (100 - 100) ^ 2) with 0 by lra. rewrite sqrt_0. lra. }
  destruct (Htap 100 100 0 100 100 50 Htime Hdist) as (Hcs & _ & Hcf & _ & _ & Hload).
  split; [exact Hmesh |]. split; [exact (proj1 (Hdown 100 100 0)) |].
  split; [exact (Hmove 100 100 0 150 120) |].
  split; [exact Hcs |]. split; [exact Hcf |].
  exact (Hload sampleFont 0 0 0 0 random_0 random_0).
Defined.

(** * Further properties *)

(** ** More of what [createLetter] does *)

Lemma index_In {A : Type} (arr : list A) (i : Z) (a : A) :
  JS.index arr i = Some a -> In a arr.
Proof.
  unfold JS.index. destruct (i <? 0)%Z; [discriminate |]. apply nth_error_In.
Qed.

Lemma createLetter_world (rnd : R) (s : State) (font : Font) :
  currentFont s = Some font -> validIndex (charIndex s) -> isRandom rnd ->
  exists s' m',
    createLetter rnd s = Some s' /\
    currentMesh s' = Some m' /\
    meshId m' = nextMeshId s /\ nextMeshId s' = S (nextMeshId s) /\
    In (uBeamColor (uniforms s')) BEAM_COLORS /\
    JS.index BEAM_COLORS (JS.Math_floor (rnd * INR (List.length BEAM_COLORS)))
      = Some (uBeamColor (uniforms s')) /\
    scene s' = match currentMesh s with
               | Some m => removeChild (meshId m) (scene s)
               | None => scene s
               end ++ [nextMeshId s] /\
    disposed s' = match currentMesh s with
                  | Some m => meshId m :: disposed s
                  | None => disposed s
                  end /\
    fitted s' /\
    uClickFlash (uniforms s') = 0 /\
    scale m' = mkVector3 1.2 0.8 1.0 /\
    sameControls s s'.
Proof.
  intros Hfont Hidx Hrnd.
  destruct (CHARS_index _ Hidx) as [char Hchar].
  destruct (BEAM_COLORS_pick _ Hrnd) as [col Hcol].
  pose proof (index_In _ _ _ Hcol) as Hin.
  unfold createLetter. rewrite Hfont.
  assert (Hi : charIndex (retirePrevious s) = charIndex s)
    by (unfold retirePrevious; destruct (currentMesh s); reflexivity).
  rewrite Hi, Hchar. cbn [JS.bind]. rewrite Hcol. cbn [JS.bind].
  unfold retirePrevious, sameControls, fitted.
  destruct (currentMesh s) as [m |];
    (eexists; eexists;
     split; [reflexivity |]; split; [reflexivity |];
     cbn; rewrite ?eta_Euler;
     split; [reflexivity |]; split; [reflexivity |];
     split; [exact Hin |]; split; [reflexivity |];
     split; [reflexivity |]; split; [reflexivity |];
     split; [split; [exact Hchar |]; split; [lra |]; split; [lra |]; split; [lra |];
             split; [reflexivity |]; split; [reflexivity |]; f_equal; lra |];
     split; [lra |]; split; [reflexivity |];
     repeat (split; [reflexivity |]); reflexivity).
Qed.

(** ** What the pointer handlers leave alone *)

Lemma sameShow_refl (s : State) : sameShow s s.
Proof.
  unfold sameShow. repeat (split; [reflexivity |]).
  destruct (currentMesh s); [repeat split | exact I].
Qed.

Lemma onDown_show (x y now : R) (s : State) : sameShow s (onDown x y now s).
Proof.
  unfold sameShow. repeat (split; [reflexivity |]).
  change (currentMesh (onDown x y now s)) with (currentMesh s).
  destruct (currentMesh s); [repeat split | exact I].
Qed.

Lemma onUp_show (x y now : R) (s : State) : sameShow s (onUp x y now s).
Proof.
  unfold onUp. destruct (isTap _ _).
  - unfold sameShow. repeat (split; [reflexivity |]).
    cbn [currentMesh set_clickFlashValue set_targetScale set_currentScale set_isDragging].
    destruct (currentMesh s); [repeat split | exact I].
  - unfold sameShow. repeat (split; [reflexivity |]).
    cbn [currentMesh set_isDragging].
    destruct (currentMesh s); [repeat split | exact I].
Qed.

Lemma onMove_show (x y : R) (s : State) : sameShow s (onMove x y s).
Proof.
  unfold onMove. destruct (isDragging s); [| apply sameShow_refl].
  destruct (currentMesh s) as [m |] eqn:Hm; [| apply sameShow_refl].
  unfold sameShow. repeat (split; [reflexivity |]).
  rewrite Hm. cbn. repeat split.
Qed.

Lemma pointer_show (e : Event) (s : State) :
  isPointerEvent e = true -> exists s', dispatch e s = Some s' /\ sameShow s s'.
Proof.
  destruct e as [x y now | x y | x y now | ts now | ts | ts now | font rnd t0 now rnd' | now rnd];
    cbn [isPointerEvent dispatch]; intros H; try discriminate;
    eexists; (split; [reflexivity |]).
  - apply onDown_show.
  - apply onMove_show.
  - apply onUp_show.
  - destruct ts; [apply sameShow_refl | apply onDown_show].
  - destruct ts; [apply sameShow_refl | apply onMove_show].
  - destruct ts; apply onUp_show.
Qed.

(** The tap reaction after a pointer event: kept, or set by a tap. *)
Lemma pointer_reaction (e : Event) (s s' : State) :
  isPointerEvent e = true -> dispatch e s = Some s' ->
  (targetScale s' = targetScale s /\ currentScale s' = currentScale s /\
   clickFlashValue s' = clickFlashValue s) \/
  (targetScale s' = 1.0 /\ currentScale s' = 1.1 /\ clickFlashValue s' = 0.5).
Proof.
  assert (Hup : forall x y now,
             (targetScale (onUp x y now s) = targetScale s /\
              currentScale (onUp x y now s) = currentScale s /\
              clickFlashValue (onUp x y now s) = clickFlashValue s) \/
             (targetScale (onUp x y now s) = 1.0 /\ currentScale (onUp x y now s) = 1.1 /\
              clickFlashValue (onUp x y now s) = 0.5)).
  { intros x y now. unfold onUp. destruct (isTap _ _); [right | left]; repeat split. }
  assert (Hmove : forall x y,
             targetScale (onMove x y s) = targetScale s /\
             currentScale (onMove x y s) = currentScale s /\
             clickFlashValue (onMove x y s) = clickFlashValue s).
  { intros x y. unfold onMove. destruct (isDragging s); destruct (currentMesh s); repeat split. }
  destruct e as [x y now | x y | x y now | ts now | ts | ts now | font rnd t0 now rnd' | now rnd];
    cbn [isPointerEvent dispatch]; intros H Hd; try discriminate; injection Hd as <-.
  - left; repeat split.
  - left; apply Hmove.
  - apply Hup.
  - left; destruct ts; repeat split.
  - left; destruct ts; [repeat split | apply Hmove].
  - destruct ts; apply Hup.
Qed.

(** ** The state stays tidy *)

Lemma afterCycle_scene (elapsed : R) (s : State) :
  scene (afterCycle elapsed s) = scene s /\
  disposed (afterCycle elapsed s) = disposed s /\
  uBeamColor (uniforms (afterCycle elapsed s)) = uBeamColor (uniforms s).
Proof.
  unfold_phases; cbn; split_phases; repeat split; congruence.
Qed.

Lemma rev_seq_S (k : nat) : rev (seq 0 (S k)) = k :: rev (seq 0 k).
Proof. rewrite seq_S, rev_app_distr. reflexivity. Qed.

Lemma removeChild_only (id : nat) : removeChild id [id] = [].
Proof. cbn. rewrite Nat.eqb_refl. reflexivity. Qed.

Lemma tidy_initial (r1 r2 r3 : R) : tidy (initialState r1 r2 r3).
Proof.
  split; [apply initial_valid |].
  split; [intros H; exfalso; apply H; reflexivity |].
  split; [repeat split |].
  split; [cbn; repeat split; lra |].
  split.
  { unfold inRange, initialState. cbn -[IZR Rdiv Rmult Rplus Rle].
    split; [lra |]. split; [lra |]. split; [lra |]. split; [lra | exact I]. }
  rewrite BEAM_COLORS_values. right; left; reflexivity.
Qed.

Lemma tidy_pointer (e : Event) (s s' : State) :
  tidy s -> isPointerEvent e = true -> dispatch e s = Some s' -> tidy s'.
Proof.
  intros (Hidx & Hfont & Hlive & Hfit & Hrange & Hcol) He Hd.
  destruct (pointer_show e s He) as (s2 & Hd2 & Hshow).
  rewrite Hd in Hd2; injection Hd2 as <-.
  pose proof (pointer_reaction e s s' He Hd) as Hreact.
  destruct Hshow as (Hc & _ & Hf & Ht & Hb & Hu & Hz & Hsc & Hdi & Hn & _ & _ & Hmesh).
  destruct Hrange as (Hts & Hcs & Hcf & Huf & Hscale).
  unfold tidy, oneLive, fitted, inRange in *.
  rewrite Hc, Hf, Ht, Hb, Hu, Hz, Hsc, Hdi, Hn.
  split; [exact Hidx |].
  destruct (currentMesh s) as [m |], (currentMesh s') as [m' |]; try contradiction.
  - destruct Hmesh as (Hid & Hgeo & Hscl & _). rewrite Hid, Hgeo, Hscl.
    split; [intros _; apply Hfont; discriminate |].
    split; [exact Hlive |]. split; [exact Hfit |]. split; [| exact Hcol].
    destruct Hreact as [(-> & -> & ->) | (-> & -> & ->)]; repeat split; try assumption; lra.
  - split; [intros H; exfalso; apply H; reflexivity |].
    split; [exact Hlive |]. split; [exact Hfit |]. split; [| exact Hcol].
    destruct Hreact as [(-> & -> & ->) | (-> & -> & ->)]; repeat split; try assumption; lra.
Qed.

Lemma afterCycle_tidy (elapsed : R) (s : State) (m : Mesh) :
  currentMesh s = Some m -> tidy s -> tidy (afterCycle elapsed s).
Proof.
  intros Hm (Hidx & Hfont & Hlive & Hfit & Hrange & Hcol).
  destruct (afterCycle_controls elapsed s)
    as (Hc & _ & Hf & Ht & Hb & _ & _ & Hn & Hz & Hts').
  destruct (afterCycle_scene elapsed s) as (Hsc & Hdi & Hbc).
  destruct (afterCycle_effect elapsed s m Hm)
    as (m' & Hm' & Hid & Hgeo & _ & _ & Hcs' & Hscl & Hcf' & Hu' & _).
  destruct Hrange as (Hts & Hcs & Hcf & Huf & _).
  unfold tidy, oneLive, fitted, inRange in *.
  rewrite Hm in Hlive, Hfit, Hfont.
  rewrite Hm', Hc, Hf, Ht, Hb, Hn, Hz, Hts', Hsc, Hdi, Hbc, Hcs', Hcf', Hu', Hid, Hgeo, Hscl.
  cbn [vx vy vz]. rewrite Hts. unfold lerp.
  split; [exact Hidx |].
  split; [intros _; apply Hfont; discriminate |].
  split; [exact Hlive |]. split; [exact Hfit |].
  split; [| exact Hcol].
  split; [reflexivity |]. split; [lra |]. split; [lra |]. split; [lra |].
  exists ((1 - 0.1) * currentScale s + 0.1 * 1). split; [lra |].
  split; [reflexivity |]. split; reflexivity.
Qed.

Lemma createLetter_tidy (rnd : R) (s : State) (font : Font) :
  currentFont s = Some font -> validIndex (charIndex s) -> isRandom rnd ->
  oneLive s ->
  targetScale s = 1 -> 1 <= currentScale s <= 1.1 -> 0 <= clickFlashValue s <= 0.5 ->
  exists s1 m1,
    createLetter rnd s = Some s1 /\ currentMesh s1 = Some m1 /\ tidy s1 /\ sameControls s s1.
Proof.
  intros Hfont Hidx Hrnd Hlive Hts Hcs Hcf.
  destruct (createLetter_world rnd s font Hfont Hidx Hrnd)
    as (s1 & m1 & Hc & Hm1 & Hid & Hn & Hcol & _ & Hsc & Hdi & Hfit & Hu & Hscl & Hsame).
  exists s1, m1. split; [exact Hc |]. split; [exact Hm1 |]. split; [| exact Hsame].
  destruct Hsame as (Hci & _ & Hf1 & _ & _ & _ & Hts1 & Hcs1 & Hcf1 & _).
  unfold tidy. rewrite Hci, Hf1, Hfont.
  split; [exact Hidx |]. split; [intros _; discriminate |].
  split.
  { unfold oneLive in *. rewrite Hm1, Hsc, Hdi, Hn, Hid.
    destruct (currentMesh s) as [m |].
    - destruct Hlive as (Hs & Hnext & Hd). rewrite Hs, Hnext, Hd, removeChild_only, rev_seq_S.
      repeat split.
    - destruct Hlive as (Hs & Hd & Hnext). rewrite Hs, Hd, Hnext. repeat split. }
  split; [exact Hfit |]. split; [| exact Hcol].
  unfold inRange. rewrite Hts1, Hcs1, Hcf1, Hu, Hm1, Hscl. cbn [vx vy vz].
  split; [exact Hts |]. split; [exact Hcs |]. split; [exact Hcf |]. split; [lra |].
  exists 1. split; [lra |]. split; [lra |]. split; lra.
Qed.

Lemma tidy_set_animating (b : bool) (s : State) : tidy s -> tidy (set_animating b s).
Proof. intros H. exact H. Qed.

Lemma tidy_set_meshStartTime (t : R) (s : State) : tidy s -> tidy (set_meshStartTime t s).
Proof. intros H. exact H. Qed.

Lemma animate_tidy (now rnd : R) (s s' : State) :
  tidy s -> isRandom rnd -> animate now rnd s = Some s' -> tidy s'.
Proof.
  intros Htidy Hrnd Ha.
  destruct (Rle_or_lt (now - meshStartTime s) CYCLE_DURATION) as [Hle | Hgt].
  - rewrite (animate_idle now rnd s Hle) in Ha. injection Ha as <-.
    destruct (currentMesh s) as [m |] eqn:Hm.
    + apply (afterCycle_tidy _ _ m); [exact Hm | apply tidy_set_animating, Htidy].
    + apply tidy_set_animating, Htidy.
  - rewrite (animate_expired now rnd s Hgt) in Ha.
    destruct Htidy as (Hidx & Hfont & Hlive & Hfit & Hrange & Hcol).
    destruct Hrange as (Hts & Hcs & Hcf & Huf & Hscale).
    destruct (currentFont s) as [font |] eqn:Hf.
    + destruct (createLetter_tidy rnd (advanced s) font Hf (rem_valid _ Hidx) Hrnd Hlive
                  Hts Hcs Hcf) as (s1 & m1 & Hc & Hm1 & Htidy1 & _).
      rewrite Hc in Ha; cbn [JS.bind] in Ha; rewrite Hm1 in Ha. injection Ha as <-.
      apply (afterCycle_tidy _ _ m1); [exact Hm1 | apply tidy_set_meshStartTime, Htidy1].
    + rewrite createLetter_no_font in Ha by exact Hf. cbn [JS.bind] in Ha.
      change (currentMesh (advanced s)) with (currentMesh s) in Ha.
      destruct (currentMesh s) as [m |] eqn:Hm; [exfalso; apply Hfont; [discriminate | reflexivity] |].
      injection Ha as <-.
      unfold tidy, oneLive, fitted, inRange.
      change (currentMesh (set_meshStartTime now (advanced s))) with (currentMesh s).
      rewrite Hm.
      split; [exact (rem_valid _ Hidx) |].
      split; [intros H; exfalso; apply H; reflexivity |].
      unfold oneLive in Hlive; unfold fitted in Hfit. rewrite Hm in Hlive, Hfit.
      split; [exact Hlive |]. split; [exact Hfit |].
      split; [| exact Hcol].
      split; [exact Hts |]. split; [exact Hcs |]. split; [exact Hcf |]. split; [exact Huf | exact I].
Qed.

Lemma dispatch_tidy (e : Event) (s s' : State) :
  tidy s -> enabled e s -> wellFormed e -> dispatch e s = Some s' -> tidy s'.
Proof.
  intros Htidy Hen Hwf Hd.
  destruct (isPointerEvent e) eqn:He; [exact (tidy_pointer e s s' Htidy He Hd) |].
  destruct e as [x y now | x y | x y now | ts now | ts | ts now | font rnd t0 now rnd' | now rnd];
    try discriminate He; cbn [dispatch enabled wellFormed] in *.
  - destruct Hwf as [Hr Hr'].
    destruct Htidy as (Hidx & Hfont & Hlive & Hfit & Hrange & Hcol).
    destruct Hrange as (Hts & Hcs & Hcf & Huf & Hscale).
    unfold onFontLoaded in Hd.
    destruct (createLetter_tidy rnd (set_currentFont (Some font) s) font eq_refl Hidx Hr Hlive
                Hts Hcs Hcf) as (s1 & m1 & Hc & Hm1 & Htidy1 & _).
    rewrite Hc in Hd. cbn [JS.bind] in Hd.
    apply (animate_tidy now rnd' (set_meshStartTime t0 s1) s');
      [apply tidy_set_meshStartTime, Htidy1 | exact Hr' | exact Hd].
  - exact (animate_tidy now rnd s s' Htidy Hwf Hd).
Qed.

Lemma reachable_tidy (s : State) : reachable s -> tidy s.
Proof.
  induction 1 as [r1 r2 r3 | s s' e Hreach IH Hen Hwf Hd].
  - apply tidy_initial.
  - exact (dispatch_tidy e s s' IH Hen Hwf Hd).
Qed.

(** ** X1: one mesh at a time *)

(** X1.  In every reachable state the scene holds exactly the current mesh
    (nothing before the font arrives), and the geometries disposed so far are
    those of all the meshes created before the current one: each of them once,
    and never the geometry of the current mesh. *)
Theorem one_mesh_at_a_time (s : State) :
  reachable s ->
  match currentMesh s with
  | None => scene s = [] /\ disposed s = []
  | Some m =>
      scene s = [meshId m] /\
      NoDup (disposed s) /\ ~ In (meshId m) (disposed s) /\
      (forall id, In id (disposed s) <-> (id < meshId m)%nat)
  end.
Proof.
  intros Hreach. destruct (reachable_tidy s Hreach) as (_ & _ & Hlive & _).
  unfold oneLive in Hlive. destruct (currentMesh s) as [m |].
  - destruct Hlive as (Hs & _ & Hd). rewrite Hd.
    split; [exact Hs |].
    split; [apply NoDup_rev, seq_NoDup |].
    split; [rewrite <- in_rev, in_seq; lia |].
    intros id. rewrite <- in_rev, in_seq. lia.
  - destruct Hlive as (Hs & Hd & _). split; assumption.
Qed.

Lemma one_mesh_at_a_time_witness :
  match currentMesh loadedState with
  | None => scene loadedState = [] /\ disposed loadedState = []
  | Some m =>
      scene loadedState = [meshId m] /\
      NoDup (disposed loadedState) /\ ~ In (meshId m) (disposed loadedState) /\
      (forall id, In id (disposed loadedState) <-> (id < meshId m)%nat)
  end.
Proof.
  exact (one_mesh_at_a_time loadedState loadedState_reachable).
Defined.

(** ** X2: the character on show *)

(** X2.  In every reachable state with a mesh, the mesh was built from the
    character of [CHARS] at the current index. *)
Theorem glyph_follows_index (s : State) (m : Mesh) :
  reachable s -> currentMesh s = Some m ->
  JS.index CHARS (charIndex s) = Some (text (geometry m)).
Proof.
  intros Hreach Hm. destruct (reachable_tidy s Hreach) as (_ & _ & _ & Hfit & _).
  unfold fitted in Hfit. rewrite Hm in Hfit. apply Hfit.
Qed.

Lemma glyph_follows_index_witness :
  exists m, currentMesh loadedState = Some m /\
            JS.index CHARS (charIndex loadedState) = Some (text (geometry m)).
Proof.
  destruct loadedState_facts as (m & Hm & _).
  exists m. split; [exact Hm |].
  exact (glyph_follows_index loadedState m loadedState_reachable Hm).
Defined.

(** ** X3: centred geometry, scan bounds and camera *)

(** X3.  In every reachable state with a mesh, the bounding box of its
    geometry is centred at the origin on the three axes; [geoTopY] and
    [geoBottomY] are the top and the bottom of that box, so each is the
    opposite of the other; and the camera is where the fit puts it for the
    height of that box. *)
Theorem bounds_follow_mesh (s : State) (m : Mesh) :
  reachable s -> currentMesh s = Some m ->
  vx (bmin (boundingBox (geometry m))) = - vx (bmax (boundingBox (geometry m))) /\
  vy (bmin (boundingBox (geometry m))) = - vy (bmax (boundingBox (geometry m))) /\
  vz (bmin (boundingBox (geometry m))) = - vz (bmax (boundingBox (geometry m))) /\
  geoTopY s = vy (bmax (boundingBox (geometry m))) /\
  geoBottomY s = vy (bmin (boundingBox (geometry m))) /\
  geoBottomY s = - geoTopY s /\
  cameraZ s = (0.9 * (geoTopY s - geoBottomY s)) / (2 * tan (PI / 8)) + 40.
Proof.
  intros Hreach Hm. destruct (reachable_tidy s Hreach) as (_ & _ & _ & Hfit & _).
  unfold fitted in Hfit. rewrite Hm in Hfit.
  destruct Hfit as (_ & Hx & Hy & Hz & Ht & Hb & Hcam).
  split; [lra |]. split; [lra |]. split; [lra |].
  split; [exact Ht |]. split; [exact Hb |]. split; [lra |].
  rewrite Hcam. apply cameraFit_eq.
Qed.

Lemma bounds_follow_mesh_witness :
  exists m, currentMesh loadedState = Some m /\
    vx (bmin (boundingBox (geometry m))) = - vx (bmax (boundingBox (geometry m))) /\
    vy (bmin (boundingBox (geometry m))) = - vy (bmax (boundingBox (geometry m))) /\
    vz (bmin (boundingBox (geometry m))) = - vz (bmax (boundingBox (geometry m))) /\
    geoTopY loadedState = vy (bmax (boundingBox (geometry m))) /\
    geoBottomY loadedState = vy (bmin (boundingBox (geometry m))) /\
    geoBottomY loadedState = - geoTopY loadedState /\
    cameraZ loadedState =
      (0.9 * (geoTopY loadedState - geoBottomY loadedState)) / (2 * tan (PI / 8)) + 40.
Proof.
  destruct loadedState_facts as (m & Hm & _).
  exists m. split; [exact Hm |].
  exact (bounds_follow_mesh loadedState m loadedState_reachable Hm).
Defined.

(** ** X4: the ranges of the tap reaction *)

(** X4.  In every reachable state [targetScale] is 1, [currentScale] lies in
    [[1, 1.1]], [clickFlashValue] and the flash uniform lie in [[0, 0.5]], and
    the scale of the mesh, if there is one, is [(c * 1.2, c * 0.8, c)] for a
    factor [c] in [[1, 1.1]]: the flattening of the letter is kept. *)
Theorem tap_reaction_in_range (s : State) :
  reachable s ->
  targetScale s = 1 /\ 1 <= currentScale s <= 1.1 /\
  0 <= clickFlashValue s <= 0.5 /\ 0 <= uClickFlash (uniforms s) <= 0.5 /\
  forall m, currentMesh s = Some m ->
    exists c, 1 <= c <= 1.1 /\
      vx (scale m) = c * 1.2 /\ vy (scale m) = c * 0.8 /\ vz (scale m) = c.
Proof.
  intros Hreach. destruct (reachable_tidy s Hreach) as (_ & _ & _ & _ & Hrange & _).
  destruct Hrange as (Hts & Hcs & Hcf & Hu & Hscale).
  split; [exact Hts |]. split; [exact Hcs |]. split; [exact Hcf |]. split; [exact Hu |].
  intros m Hm. rewrite Hm in Hscale. exact Hscale.
Qed.

Lemma tap_reaction_in_range_witness :
  targetScale nudged = 1 /\ 1 <= currentScale nudged <= 1.1 /\
  0 <= clickFlashValue nudged <= 0.5 /\ 0 <= uClickFlash (uniforms nudged) <= 0.5 /\
  forall m, currentMesh nudged = Some m ->
    exists c, 1 <= c <= 1.1 /\
      vx (scale m) = c * 1.2 /\ vy (scale m) = c * 0.8 /\ vz (scale m) = c.
Proof.
  apply (tap_reaction_in_range nudged).
  unfold nudged, run. cbn [fold_left].
  repeat (apply reachable_after; [| exact I | exact I]).
  exact loadedState_reachable.
Defined.

(** ** X5: the beam colour *)

Lemma floor_between (x : R) (k : Z) : IZR k <= x < IZR k + 1 -> JS.Math_floor x = k.
Proof.
  intros H. unfold JS.Math_floor. symmetry. apply Int_part_spec. lra.
Qed.

Lemma palette_size : INR (List.length BEAM_COLORS) = 3.
Proof. cbn. lra. Qed.

(** X5.  The beam colour uniform is one of the three palette colours in every
    reachable state.  [createLetter] picks it by thirds of the random
    reading: [#FF0000] below 1/3, [#FFFFFF] from 1/3 to below 2/3, [#0100FF]
    from 2/3 on.  The uniform holds the linear components: (1, 0, 0) for the
    red, (1, 1, 1) for the white, and for the blue (r, 0, 1) with
    r = 1/255 * 0.0773993808, which lies between 0.000303 and 0.000304. *)
Theorem beam_colour_by_thirds (rnd : R) (s : State) (font : Font) :
  (reachable s -> In (uBeamColor (uniforms s)) BEAM_COLORS) /\
  (currentFont s = Some font -> validIndex (charIndex s) -> isRandom rnd ->
   exists s',
     createLetter rnd s = Some s' /\
     (rnd < 1 / 3 ->
      uBeamColor (uniforms s') = setHex 0xFF0000 /\
      uBeamColor (uniforms s') = mkColor 1 0 0) /\
     (1 / 3 <= rnd < 2 / 3 ->
      uBeamColor (uniforms s') = setHex 0xFFFFFF /\
      uBeamColor (uniforms s') = mkColor 1 1 1) /\
     (2 / 3 <= rnd ->
      uBeamColor (uniforms s') = setHex 0x0100FF /\
      uBeamColor (uniforms s') = mkColor (1 / 255 * 0.0773993808) 0 1 /\
      0.000303 < red (uBeamColor (uniforms s')) < 0.000304)).
Proof.
  split.
  - intros Hreach. apply (reachable_tidy s Hreach).
  - intros Hfont Hidx Hrnd.
    destruct (createLetter_world rnd s font Hfont Hidx Hrnd)
      as (s' & m' & Hc & _ & _ & _ & _ & Hpick & _).
    exists s'. split; [exact Hc |].
    rewrite palette_size in Hpick. destruct Hrnd as [H0 H1].
    split; [| split]; intros Hr.
    + rewrite (floor_between (rnd * 3) 0) in Hpick by lra.
      injection Hpick as <-. split; [reflexivity | exact setHex_FF0000].
    + rewrite (floor_between (rnd * 3) 1) in Hpick by lra.
      injection Hpick as <-. split; [reflexivity | exact setHex_FFFFFF].
    + rewrite (floor_between (rnd * 3) 2) in Hpick by lra.
      injection Hpick as <-. split; [reflexivity |]. split; [exact setHex_0100FF |].
      rewrite setHex_0100FF. cbn [red]. lra.
Qed.

Lemma beam_colour_by_thirds_witness :
  In (uBeamColor (uniforms loadedState)) BEAM_COLORS /\
  (exists s',
     createLetter 0.5 (set_currentFont (Some sampleFont) (initialState 0.5 0.5 0.5)) = Some s' /\
     uBeamColor (uniforms s') = mkColor 1 1 1) /\
  (exists s',
     createLetter 0.9 (set_currentFont (Some sampleFont) (initialState 0.5 0.5 0.5)) = Some s' /\
     uBeamColor (uniforms s') = mkColor (1 / 255 * 0.0773993808) 0 1).
Proof.
  split; [| split].
  - exact (proj1 (beam_colour_by_thirds 0 loadedState sampleFont) loadedState_reachable).
  - assert (Hr : isRandom 0.5) by (unfold isRandom; lra).
    destruct (proj2 (beam_colour_by_thirds 0.5
                       (set_currentFont (Some sampleFont) (initialState 0.5 0.5 0.5)) sampleFont)
                eq_refl (initial_valid 0.5 0.5 0.5) Hr) as (s' & Hc & _ & Hwhite & _).
    exists s'. split; [exact Hc |]. apply Hwhite. lra.
  - assert (Hr : isRandom 0.9) by (unfold isRandom; lra).
    destruct (proj2 (beam_colour_by_thirds 0.9
                       (set_currentFont (Some sampleFont) (initialState 0.5 0.5 0.5)) sampleFont)
                eq_refl (initial_valid 0.5 0.5 0.5) Hr) as (s' & Hc & _ & _ & Hblue).
    exists s'. split; [exact Hc |]. apply Hblue. lra.
Defined.

(** ** X6: what pointer and touch events leave alone *)

(** X6.  A pointer or touch event never throws, and in any state it leaves
    the show as it is: index, cycle start, font, scan bounds, uniforms,
    camera, scene, disposals, frame loop, and the identity, geometry, scale
    and rotation about z of the current mesh.  It can change only the gesture
    variables, the velocity, the tap reaction and the rotation of the mesh
    about x and y. *)
Theorem pointer_events_keep_show (e : Event) (s : State) :
  isPointerEvent e = true ->
  exists s', dispatch e s = Some s' /\ sameShow s s'.
Proof.
  exact (pointer_show e s).
Qed.

Lemma pointer_events_keep_show_witness :
  exists s', dispatch (MouseMove 150 120) (onDown 100 100 0 loadedState) = Some s' /\
             sameShow (onDown 100 100 0 loadedState) s'.
Proof.
  exact (pointer_events_keep_show (MouseMove 150 120) (onDown 100 100 0 loadedState) eq_refl).
Defined.

(** ** What a frame does to the reaction, the velocity and the gesture *)

Lemma animate_frame_effect (now rnd : R) (s : State) (m : Mesh) :
  currentMesh s = Some m -> validIndex (charIndex s) -> isRandom rnd ->
  exists s' m',
    animate now rnd s = Some s' /\ currentMesh s' = Some m' /\
    validIndex (charIndex s') /\
    targetScale s' = targetScale s /\
    currentScale s' = lerp (currentScale s) (targetScale s) 0.1 /\
    clickFlashValue s' = lerp (clickFlashValue s) 0.0 0.05 /\
    uClickFlash (uniforms s') = clickFlashValue s' /\
    scale m' = mkVector3 (currentScale s' * 1.2) (currentScale s' * 0.8) (currentScale s') /\
    rotationVelocity s' = damped s /\
    isDragging s' = isDragging s /\ previousMouse s' = previousMouse s /\
    downTime s' = downTime s /\ downPos s' = downPos s /\ currentFont s' = currentFont s.
Proof.
  intros Hm Hidx Hrnd.
  assert (Hmain : forall s0 m0 elapsed,
            currentMesh s0 = Some m0 ->
            exists m',
              currentMesh (afterCycle elapsed s0) = Some m' /\
              charIndex (afterCycle elapsed s0) = charIndex s0 /\
              targetScale (afterCycle elapsed s0) = targetScale s0 /\
              currentScale (afterCycle elapsed s0) = lerp (currentScale s0) (targetScale s0) 0.1 /\
              clickFlashValue (afterCycle elapsed s0) = lerp (clickFlashValue s0) 0.0 0.05 /\
              uClickFlash (uniforms (afterCycle elapsed s0))
                = clickFlashValue (afterCycle elapsed s0) /\
              scale m' = mkVector3 (currentScale (afterCycle elapsed s0) * 1.2)
                                   (currentScale (afterCycle elapsed s0) * 0.8)
                                   (currentScale (afterCycle elapsed s0)) /\
              rotationVelocity (afterCycle elapsed s0) = damped s0 /\
              isDragging (afterCycle elapsed s0) = isDragging s0 /\
              previousMouse (afterCycle elapsed s0) = previousMouse s0 /\
              downTime (afterCycle elapsed s0) = downTime s0 /\
              downPos (afterCycle elapsed s0) = downPos s0 /\
              currentFont (afterCycle elapsed s0) = currentFont s0).
  { intros s0 m0 elapsed Hm0.
    destruct (afterCycle_effect elapsed s0 m0 Hm0)
      as (m' & Hm' & _ & _ & _ & Hvel & Hcs & Hsc & Hcf & Hu & Hpm & Hdt & Hdp & _).
    destruct (afterCycle_controls elapsed s0) as (Hc & _ & Hf & _ & _ & Hdrag & _ & _ & _ & Hts).
    exists m'. rewrite Hcs, Hcf, Hu, Hsc.
    split; [exact Hm' |]. split; [exact Hc |]. split; [exact Hts |].
    split; [reflexivity |]. split; [reflexivity |]. split; [reflexivity |].
    split; [reflexivity |]. split; [exact Hvel |]. split; [exact Hdrag |].
    split; [exact Hpm |]. split; [exact Hdt |]. split; [exact Hdp | exact Hf]. }
  destruct (Rle_or_lt (now - meshStartTime s) CYCLE_DURATION) as [Hle | Hgt].
  - rewrite (animate_idle now rnd s Hle), Hm.
    destruct (Hmain (set_animating true s) m (now - meshStartTime s) Hm)
      as (m' & Hm' & Hc & Hrest).
    exists (afterCycle (now - meshStartTime s) (set_animating true s)), m'.
    split; [reflexivity |]. split; [exact Hm' |].
    split; [rewrite Hc; exact Hidx | exact Hrest].
  - rewrite (animate_expired now rnd s Hgt).
    destruct (currentFont s) as [font |] eqn:Hfont.
    + destruct (createLetter_spec rnd (advanced s) font Hfont (rem_valid _ Hidx) Hrnd)
        as (s1 & m1 & char & Hc & _ & Hm1 & _ & _ & _ & _ & _ & _ & _ & _ & _ & _ & _ & Hsame).
      destruct Hsame as (Hci & _ & Hf1 & Hdrag1 & Hpm1 & Hvel1 & Hts1 & Hcs1 & Hcf1 & Hdt1
                         & Hdp1 & _).
      rewrite Hc; cbn [JS.bind]; rewrite Hm1.
      destruct (Hmain (set_meshStartTime now s1) m1 (now - meshStartTime s) Hm1)
        as (m' & Hm' & Hc' & Hts' & Hcs' & Hcf' & Hu' & Hsc' & Hvel' & Hdrag' & Hpm' & Hdt'
            & Hdp' & Hf').
      exists (afterCycle (now - meshStartTime s) (set_meshStartTime now s1)), m'.
      split; [reflexivity |]. split; [exact Hm' |].
      split; [rewrite Hc'; change (validIndex (charIndex s1)); rewrite Hci;
              exact (rem_valid _ Hidx) |].
      split; [rewrite Hts'; exact Hts1 |].
      split; [rewrite Hcs'; change (lerp (currentScale s1) (targetScale s1) 0.1 =
                lerp (currentScale s) (targetScale s) 0.1); rewrite Hcs1, Hts1; reflexivity |].
      split; [rewrite Hcf'; change (lerp (clickFlashValue s1) 0.0 0.05 =
                lerp (clickFlashValue s) 0.0 0.05); rewrite Hcf1; reflexivity |].
      split; [exact Hu' |]. split; [exact Hsc' |].
      split; [rewrite Hvel';
              exact (proj2 (turned_ext (set_meshStartTime now s1) s (rotation m1) Hdrag1 Hvel1)) |].
      split; [rewrite Hdrag'; exact Hdrag1 |]. split; [rewrite Hpm'; exact Hpm1 |].
      split; [rewrite Hdt'; exact Hdt1 |]. split; [rewrite Hdp'; exact Hdp1 |].
      rewrite Hf'. change (currentFont s1 = Some font). rewrite Hf1. exact Hfont.
    + rewrite createLetter_no_font by exact Hfont. cbn [JS.bind].
      change (currentMesh (advanced s)) with (currentMesh s). rewrite Hm.
      destruct (Hmain (set_meshStartTime now (advanced s)) m (now - meshStartTime s) Hm)
        as (m' & Hm' & Hc' & Hts' & Hcs' & Hcf' & Hu' & Hsc' & Hvel' & Hdrag' & Hpm' & Hdt'
            & Hdp' & Hf').
      exists (afterCycle (now - meshStartTime s) (set_meshStartTime now (advanced s))), m'.
      split; [reflexivity |]. split; [exact Hm' |].
      split; [rewrite Hc'; exact (rem_valid _ Hidx) |].
      split; [exact Hts' |]. split; [exact Hcs' |]. split; [exact Hcf' |].
      split; [exact Hu' |]. split; [exact Hsc' |]. split; [exact Hvel' |].
      split; [exact Hdrag' |]. split; [exact Hpm' |]. split; [exact Hdt' |].
      split; [exact Hdp' |]. rewrite Hf'. exact Hfont.
Qed.

Lemma frames_effect (ticks : list (R * R)) (s : State) (m : Mesh) :
  currentMesh s = Some m -> validIndex (charIndex s) ->
  Forall (fun t => isRandom (snd t)) ticks ->
  exists s' m',
    frames ticks s = Some s' /\ currentMesh s' = Some m' /\
    validIndex (charIndex s') /\
    targetScale s' = targetScale s /\
    currentScale s' - targetScale s
      = 0.9 ^ List.length ticks * (currentScale s - targetScale s) /\
    clickFlashValue s' = 0.95 ^ List.length ticks * clickFlashValue s /\
    (ticks <> [] ->
     uClickFlash (uniforms s') = clickFlashValue s' /\
     scale m' = mkVector3 (currentScale s' * 1.2) (currentScale s' * 0.8) (currentScale s')) /\
    isDragging s' = isDragging s /\
    (isDragging s = false ->
     v2x (rotationVelocity s') = 0.99 ^ List.length ticks * v2x (rotationVelocity s) /\
     v2y (rotationVelocity s') = 0.99 ^ List.length ticks * v2y (rotationVelocity s)) /\
    (isDragging s = true -> rotationVelocity s' = rotationVelocity s) /\
    previousMouse s' = previousMouse s /\ downTime s' = downTime s /\
    downPos s' = downPos s /\ currentFont s' = currentFont s.
Proof.
  revert s m. induction ticks as [| [now rnd] rest IH]; intros s m Hm Hidx Hall.
  - exists s, m. cbn [frames List.length pow].
    split; [reflexivity |]. split; [exact Hm |]. split; [exact Hidx |].
    split; [reflexivity |]. split; [lra |]. split; [lra |].
    split; [intros H; exfalso; apply H; reflexivity |].
    split; [reflexivity |]. split; [intros _; split; lra |].
    split; [reflexivity |]. split; [reflexivity |]. split; [reflexivity |].
    split; reflexivity.
  - inversion Hall as [| t l Hr Hrest]; subst. cbn [snd] in Hr.
    destruct (animate_frame_effect now rnd s m Hm Hidx Hr)
      as (s1 & m1 & Ha & Hm1 & Hidx1 & Hts1 & Hcs1 & Hcf1 & Hu1 & Hsc1 & Hvel1 & Hdrag1 & Hpm1
          & Hdt1 & Hdp1 & Hf1).
    destruct (IH s1 m1 Hm1 Hidx1 Hrest)
      as (s' & m' & Hf & Hm' & Hidx' & Hts & Hcs & Hcf & Hlast & Hdrag & Hvel & Hheld & Hpm
          & Hdt & Hdp & Hfont).
    exists s', m'. cbn [frames]. rewrite Ha. cbn [JS.bind].
    split; [exact Hf |]. split; [exact Hm' |]. split; [exact Hidx' |].
    split; [rewrite Hts; exact Hts1 |].
    cbn [List.length pow].
    unfold lerp in Hcs1, Hcf1.
    split; [rewrite Hts1, Hcs1 in Hcs; rewrite Hcs; lra |].
    split; [rewrite Hcf1 in Hcf; rewrite Hcf; lra |].
    split.
    { intros _. destruct rest as [| t' rest'].
      - cbn [frames] in Hf. injection Hf as <-. rewrite Hm1 in Hm'. injection Hm' as <-.
        split; [exact Hu1 | exact Hsc1].
      - apply Hlast. discriminate. }
    split; [rewrite Hdrag; exact Hdrag1 |].
    split.
    { intros Hfree. rewrite Hdrag1 in Hvel. destruct (Hvel Hfree) as [Hx Hy].
      unfold damped in Hvel1. rewrite Hfree in Hvel1. rewrite Hvel1 in Hx, Hy.
      cbn [v2x v2y] in Hx, Hy. unfold friction in Hx, Hy.
      split; [rewrite Hx; lra | rewrite Hy; lra]. }
    split.
    { intros Hheld'. rewrite Hdrag1 in Hheld. rewrite (Hheld Hheld').
      unfold damped in Hvel1. rewrite Hheld' in Hvel1. exact Hvel1. }
    split; [rewrite Hpm; exact Hpm1 |]. split; [rewrite Hdt; exact Hdt1 |].
    split; [rewrite Hdp; exact Hdp1 |]. rewrite Hfont. exact Hf1.
Qed.

Lemma twoFrames_random : Forall (fun t : R * R => isRandom (snd t)) twoFrames.
Proof. unfold twoFrames. repeat (constructor; [exact random_0 |]). constructor. Qed.

Lemma pressed_facts (x y now : R) :
  exists m, currentMesh (onDown x y now loadedState) = Some m /\
            validIndex (charIndex (onDown x y now loadedState)).
Proof.
  destruct loadedState_facts as (m & Hm & Hci & _).
  exists m. split; [exact Hm |].
  change (validIndex (charIndex loadedState)). rewrite Hci. exact (initial_valid 0 0 0).
Qed.

Lemma nudged_ready :
  exists m, currentMesh nudged = Some m /\ validIndex (charIndex nudged) /\
            isDragging nudged = false.
Proof.
  destruct nudged_facts as (m & Hm & Hdrag & _ & Hci & _).
  exists m. split; [exact Hm |]. split; [| exact Hdrag].
  rewrite Hci. exact (initial_valid 0 0 0).
Qed.

(** ** X7: the bounce and the flash die away *)

(** X7.  Over [n] frames on a state with a mesh, whatever the clock readings
    and whether or not letters are replaced on the way, [targetScale] stays,
    the distance of [currentScale] from it is multiplied by [0.9 ^ n] and
    [clickFlashValue] by [0.95 ^ n]; after at least one frame the flash
    uniform equals [clickFlashValue] and the mesh scale is [currentScale]
    times (1.2, 0.8, 1).  At rest nothing moves: a scale already at its target
    and a flash already at 0 stay there. *)
Theorem reaction_decays (ticks : list (R * R)) (s : State) (m : Mesh) :
  currentMesh s = Some m -> validIndex (charIndex s) ->
  Forall (fun t => isRandom (snd t)) ticks ->
  exists s' m',
    frames ticks s = Some s' /\ currentMesh s' = Some m' /\
    targetScale s' = targetScale s /\
    currentScale s' - targetScale s
      = 0.9 ^ List.length ticks * (currentScale s - targetScale s) /\
    clickFlashValue s' = 0.95 ^ List.length ticks * clickFlashValue s /\
    (ticks <> [] ->
     uClickFlash (uniforms s') = clickFlashValue s' /\
     scale m' = mkVector3 (currentScale s' * 1.2) (currentScale s' * 0.8) (currentScale s')) /\
    (currentScale s = targetScale s -> currentScale s' = currentScale s) /\
    (clickFlashValue s = 0 -> clickFlashValue s' = 0).
Proof.
  intros Hm Hidx Hall.
  destruct (frames_effect ticks s m Hm Hidx Hall)
    as (s' & m' & Hf & Hm' & _ & Hts & Hcs & Hcf & Hlast & _).
  exists s', m'.
  split; [exact Hf |]. split; [exact Hm' |]. split; [exact Hts |].
  split; [exact Hcs |]. split; [exact Hcf |]. split; [exact Hlast |].
  split.
  - intros Hrest. rewrite Hrest in Hcs.
    replace (targetScale s - targetScale s) with 0 in Hcs by lra.
    rewrite Rmult_0_r in Hcs. lra.
  - intros Hzero. rewrite Hcf, Hzero. apply Rmult_0_r.
Qed.

Lemma reaction_decays_witness :
  exists s' m',
    frames twoFrames (onUp 100 100 50 (onDown 100 100 0 loadedState)) = Some s' /\
    currentMesh s' = Some m' /\
    currentScale s' - 1.0 = 0.9 ^ 2 * (1.1 - 1.0) /\
    clickFlashValue s' = 0.95 ^ 2 * 0.5 /\
    uClickFlash (uniforms s') = clickFlashValue s' /\
    scale m' = mkVector3 (currentScale s' * 1.2) (currentScale s' * 0.8) (currentScale s').
Proof.
  destruct (pressed_facts 100 100 0) as (m & Hm & Hidx).
  assert (Htap : isTap (holdTime 50 (onDown 100 100 0 loadedState))
                       (travel 100 100 (onDown 100 100 0 loadedState)) = true).
  { apply isTap_iff. change (holdTime 50 (onDown 100 100 0 loadedState)) with (50 - 0).
    unfold travel, JS.Math_sqrt, JS.Math_pow.
    change (v2x (downPos (onDown 100 100 0 loadedState))) with 100.
    change (v2y (downPos (onDown 100 100 0 loadedState))) with 100.
    replace ((100 - 100) ^ 2 + (100 - 100) ^ 2) with 0 by lra.
    rewrite sqrt_0. split; lra. }
  pose proof (onUp_tap 100 100 50 (onDown 100 100 0 loadedState) Htap) as Hup.
  set (tapped := onUp 100 100 50 (onDown 100 100 0 loadedState)) in *.
  assert (Hmt : currentMesh tapped = Some m) by (rewrite Hup; exact Hm).
  assert (Hit : validIndex (charIndex tapped)) by (rewrite Hup; exact Hidx).
  destruct (reaction_decays twoFrames tapped m Hmt Hit twoFrames_random)
    as (s' & m' & Hf & Hm' & _ & Hcs & Hcf & Hlast & _).
  assert (Hts0 : targetScale tapped = 1.0) by (rewrite Hup; reflexivity).
  assert (Hcs0 : currentScale tapped = 1.1) by (rewrite Hup; reflexivity).
  assert (Hcf0 : clickFlashValue tapped = 0.5) by (rewrite Hup; reflexivity).
  rewrite Hts0, Hcs0 in Hcs. rewrite Hcf0 in Hcf.
  exists s', m'. split; [exact Hf |]. split; [exact Hm' |].
  split; [exact Hcs |]. split; [exact Hcf |]. apply Hlast. discriminate.
Defined.

(** ** X8: inertia dies away *)

(** X8.  Over [n] frames on a state with a mesh that is not being dragged,
    each component of the angular velocity is multiplied by [0.99 ^ n],
    whether or not letters are replaced on the way; while a drag is held the
    frames leave the velocity as it is. *)
Theorem inertia_decays (ticks : list (R * R)) (s : State) (m : Mesh) :
  currentMesh s = Some m -> validIndex (charIndex s) ->
  Forall (fun t => isRandom (snd t)) ticks ->
  exists s',
    frames ticks s = Some s' /\
    (isDragging s = false ->
     v2x (rotationVelocity s') = 0.99 ^ List.length ticks * v2x (rotationVelocity s) /\
     v2y (rotationVelocity s') = 0.99 ^ List.length ticks * v2y (rotationVelocity s)) /\
    (isDragging s = true -> rotationVelocity s' = rotationVelocity s).
Proof.
  intros Hm Hidx Hall.
  destruct (frames_effect ticks s m Hm Hidx Hall)
    as (s' & m' & Hf & _ & _ & _ & _ & _ & _ & _ & Hvel & Hheld & _).
  exists s'. split; [exact Hf |]. split; [exact Hvel | exact Hheld].
Qed.

Lemma inertia_decays_witness :
  exists s',
    frames twoFrames nudged = Some s' /\
    v2x (rotationVelocity s') = 0.99 ^ 2 * 0.0005 /\
    v2y (rotationVelocity s') = 0.99 ^ 2 * 0.
Proof.
  destruct nudged_ready as (m & Hm & Hidx & Hdrag).
  destruct nudged_facts as (_ & _ & _ & Hvel & _).
  destruct (inertia_decays twoFrames nudged m Hm Hidx twoFrames_random)
    as (s' & Hf & Hfree & _).
  exists s'. split; [exact Hf |].
  destruct (Hfree Hdrag) as [Hx Hy]. rewrite Hvel in Hx, Hy. split; [exact Hx | exact Hy].
Defined.

(** ** X9: frames do not touch the gesture *)

(** X9.  Frames on a state with a mesh never throw and never end or start a
    drag: over any sequence of frames, letters replaced or not, the dragging
    flag, the last pointer position, the press time and position and the
    font are as before, and there still is a mesh. *)
Theorem frames_keep_gesture (ticks : list (R * R)) (s : State) (m : Mesh) :
  currentMesh s = Some m -> validIndex (charIndex s) ->
  Forall (fun t => isRandom (snd t)) ticks ->
  exists s' m',
    frames ticks s = Some s' /\ currentMesh s' = Some m' /\
    isDragging s' = isDragging s /\ previousMouse s' = previousMouse s /\
    downTime s' = downTime s /\ downPos s' = downPos s /\ currentFont s' = currentFont s.
Proof.
  intros Hm Hidx Hall.
  destruct (frames_effect ticks s m Hm Hidx Hall)
    as (s' & m' & Hf & Hm' & _ & _ & _ & _ & _ & Hdrag & _ & _ & Hpm & Hdt & Hdp & Hfont).
  exists s', m'. split; [exact Hf |]. split; [exact Hm' |]. split; [exact Hdrag |].
  split; [exact Hpm |]. split; [exact Hdt |]. split; [exact Hdp | exact Hfont].
Qed.

Lemma frames_keep_gesture_witness :
  exists s' m',
    frames twoFrames (onDown 100 100 0 loadedState) = Some s' /\ currentMesh s' = Some m' /\
    isDragging s' = true /\ previousMouse s' = mkVector2 100 100 /\
    downTime s' = 0 /\ downPos s' = mkVector2 100 100.
Proof.
  destruct (pressed_facts 100 100 0) as (m & Hm & Hidx).
  destruct (frames_keep_gesture twoFrames (onDown 100 100 0 loadedState) m Hm Hidx
              twoFrames_random) as (s' & m' & Hf & Hm' & Hdrag & Hpm & Hdt & Hdp & _).
  exists s', m'. split; [exact Hf |]. split; [exact Hm' |]. split; [exact Hdrag |].
  split; [exact Hpm |]. split; [exact Hdt | exact Hdp].
Defined.

(** ** X10: a drag turns the mesh by the pointer's net displacement *)

Lemma last_cons_any {A : Type} (a d : A) (l : list A) : last (a :: l) d = last l a.
Proof.
  revert a d; induction l as [| b l IH]; intros a d; [reflexivity |].
  change (last (a :: b :: l) d) with (last (b :: l) d).
  rewrite (IH b d). symmetry. apply (IH b a).
Qed.

Lemma drag_idle (pts : list Vector2) (s : State) :
  isDragging s = false \/ currentMesh s = None -> drag pts s = s.
Proof.
  intros H. induction pts as [| p rest IH]; [reflexivity |].
  unfold drag in *. cbn [fold_left].
  assert (Hmove : onMove (v2x p) (v2y p) s = s).
  { unfold onMove. destruct H as [-> | ->]; [reflexivity |].
    destruct (isDragging s); reflexivity. }
  rewrite Hmove. exact IH.
Qed.

Lemma drag_effect (pts : list Vector2) (s : State) (m : Mesh) :
  isDragging s = true -> currentMesh s = Some m ->
  exists m',
    currentMesh (drag pts s) = Some m' /\
    isDragging (drag pts s) = true /\
    previousMouse (drag pts s) = last pts (previousMouse s) /\
    ex (rotation m')
      = ex (rotation m) + (v2y (last pts (previousMouse s)) - v2y (previousMouse s)) * 0.01 /\
    ey (rotation m')
      = ey (rotation m) + (v2x (last pts (previousMouse s)) - v2x (previousMouse s)) * 0.01 /\
    ez (rotation m') = ez (rotation m).
Proof.
  revert s m. induction pts as [| p rest IH]; intros s m Hdrag Hm.
  - exists m. cbn [drag fold_left last].
    split; [exact Hm |]. split; [exact Hdrag |]. split; [reflexivity |].
    split; [lra |]. split; [lra | reflexivity].
  - destruct (onMove_dragging (v2x p) (v2y p) s m Hdrag Hm)
      as (m1 & Hm1 & Hrot1 & _ & Hpm1 & _ & _ & _ & _ & Hdrag1).
    destruct (IH (onMove (v2x p) (v2y p) s) m1 Hdrag1 Hm1)
      as (m' & Hm' & Hdrag' & Hpm' & Hx & Hy & Hz).
    exists m'. rewrite last_cons_any.
    change (drag (p :: rest) s) with (drag rest (onMove (v2x p) (v2y p) s)).
    rewrite Hpm1 in Hpm', Hx, Hy. rewrite Hrot1 in Hx, Hy, Hz. cbn [ex ey ez v2x v2y] in Hx, Hy, Hz.
    assert (Hp : mkVector2 (v2x p) (v2y p) = p) by (destruct p; reflexivity).
    rewrite Hp in Hpm', Hx, Hy.
    split; [exact Hm' |]. split; [exact Hdrag' |]. split; [exact Hpm' |].
    split; [rewrite Hx; lra |]. split; [rewrite Hy; lra | exact Hz].
Qed.

(** X10.  While a press is held on a state with a mesh, a sequence of moves
    turns the mesh by 0.01 times the net displacement of the pointer, the
    vertical displacement about x and the horizontal one about y, whatever
    the path; the rotation about z is untouched and the last pointer position
    is that of the last move.  The velocity left behind is 0.01 times the
    last step alone.  Without a held press, or without a mesh, moves change
    nothing. *)
Theorem drag_follows_pointer (pts : list Vector2) (p : Vector2) (s : State) (m : Mesh) :
  (isDragging s = true -> currentMesh s = Some m ->
   exists m',
     currentMesh (drag (pts ++ [p]) s) = Some m' /\
     previousMouse (drag (pts ++ [p]) s) = p /\
     ex (rotation m') = ex (rotation m) + (v2y p - v2y (previousMouse s)) * 0.01 /\
     ey (rotation m') = ey (rotation m) + (v2x p - v2x (previousMouse s)) * 0.01 /\
     ez (rotation m') = ez (rotation m) /\
     rotationVelocity (drag (pts ++ [p]) s)
       = mkVector2 ((v2y p - v2y (last pts (previousMouse s))) * 0.01)
                   ((v2x p - v2x (last pts (previousMouse s))) * 0.01)) /\
  (isDragging s = false \/ currentMesh s = None -> drag (pts ++ [p]) s = s).
Proof.
  split; [| apply drag_idle].
  intros Hdrag Hm.
  destruct (drag_effect (pts ++ [p]) s m Hdrag Hm) as (m' & Hm' & _ & Hpm & Hx & Hy & Hz).
  rewrite last_last in Hpm, Hx, Hy.
  exists m'. split; [exact Hm' |]. split; [exact Hpm |].
  split; [exact Hx |]. split; [exact Hy |]. split; [exact Hz |].
  destruct (drag_effect pts s m Hdrag Hm) as (m0 & Hm0 & Hdrag0 & Hpm0 & _).
  unfold drag. rewrite fold_left_app. cbn [fold_left]. fold (drag pts s).
  destruct (onMove_dragging (v2x p) (v2y p) (drag pts s) m0 Hdrag0 Hm0)
    as (_ & _ & _ & Hvel & _).
  rewrite Hvel, Hpm0. reflexivity.
Qed.

Lemma drag_follows_pointer_witness :
  exists m m',
    currentMesh (onDown 100 100 0 loadedState) = Some m /\
    currentMesh
      (drag ([mkVector2 150 120] ++ [mkVector2 130 90]) (onDown 100 100 0 loadedState))
      = Some m' /\
    ex (rotation m') = ex (rotation m) + (90 - 100) * 0.01 /\
    ey (rotation m') = ey (rotation m) + (130 - 100) * 0.01 /\
    ez (rotation m') = ez (rotation m) /\
    rotationVelocity
      (drag ([mkVector2 150 120] ++ [mkVector2 130 90]) (onDown 100 100 0 loadedState))
      = mkVector2 ((90 - 120) * 0.01) ((130 - 150) * 0.01).
Proof.
  destruct (pressed_facts 100 100 0) as (m & Hm & _).
  destruct (proj1 (drag_follows_pointer [mkVector2 150 120] (mkVector2 130 90)
                     (onDown 100 100 0 loadedState) m) eq_refl Hm)
    as (m' & Hm' & _ & Hx & Hy & Hz & Hvel).
  exists m, m'. split; [exact Hm |]. split; [exact Hm' |].
  split; [exact Hx |]. split; [exact Hy |]. split; [exact Hz | exact Hvel].
Defined.

(** ** X11: the profile of the beam *)

Lemma clamp01_low (x : R) : x <= 0 -> GLSL.clamp x 0 1 = 0.
Proof.
  intros H. unfold GLSL.clamp, Rmin, Rmax.
  destruct (Rle_dec x 0); destruct (Rle_dec _ 1); lra.
Qed.

Lemma clamp01_high (x : R) : 1 <= x -> GLSL.clamp x 0 1 = 1.
Proof.
  intros H. unfold GLSL.clamp, Rmin, Rmax.
  destruct (Rle_dec x 0); destruct (Rle_dec _ 1); lra.
Qed.

Lemma clamp01_inside (x : R) : x < 1 -> GLSL.clamp x 0 1 < 1.
Proof.
  intros H. unfold GLSL.clamp, Rmin, Rmax.
  destruct (Rle_dec x 0); destruct (Rle_dec _ 1); lra.
Qed.

Lemma falloff_range (spread x : R) :
  0 <= (1.0 - GLSL.smoothstep 0.0 spread x) ^ 2 * 0.6 <= 0.6.
Proof.
  rewrite smoothstep_from_0.
  pose proof (cubic_bounds _ (clamp01_bounds (x / spread))) as H.
  set (f := GLSL.clamp (x / spread) 0 1 * GLSL.clamp (x / spread) 0 1
            * (3 - 2 * GLSL.clamp (x / spread) 0 1)) in *.
  split; nra.
Qed.

Lemma falloff_mono (spread x y : R) :
  0 < spread -> x <= y ->
  (1.0 - GLSL.smoothstep 0.0 spread y) ^ 2 * 0.6
  <= (1.0 - GLSL.smoothstep 0.0 spread x) ^ 2 * 0.6.
Proof.
  intros Hs Hxy. rewrite !smoothstep_from_0.
  pose proof (clamp01_bounds (x / spread)) as Bx.
  pose proof (clamp01_bounds (y / spread)) as By.
  assert (Hdiv : x / spread <= y / spread).
  { unfold Rdiv. apply Rmult_le_compat_r; [left; apply Rinv_0_lt_compat; exact Hs | exact Hxy]. }
  pose proof (clamp01_mono _ _ Hdiv) as Hc.
  set (a := GLSL.clamp (x / spread) 0 1) in *.
  set (b := GLSL.clamp (y / spread) 0 1) in *.
  pose proof (cubic_mono a b (proj1 Bx) Hc (proj2 By)) as Hm.
  pose proof (cubic_bounds a Bx) as Ca.
  pose proof (cubic_bounds b By) as Cb.
  set (fa := a * a * (3 - 2 * a)) in *.
  set (fb := b * b * (3 - 2 * b)) in *.
  nra.
Qed.

Lemma falloff_zero (spread x : R) :
  0 < spread -> spread <= x -> (1.0 - GLSL.smoothstep 0.0 spread x) ^ 2 * 0.6 = 0.
Proof.
  intros Hs Hx. rewrite smoothstep_from_0.
  assert (H1 : 1 <= x / spread).
  { apply (Rmult_le_reg_r spread); [exact Hs |].
    unfold Rdiv. rewrite Rmult_assoc, Rinv_l by lra. lra. }
  rewrite (clamp01_high _ H1). lra.
Qed.

Lemma falloff_pos (spread x : R) :
  0 < spread -> x < spread -> 0 < (1.0 - GLSL.smoothstep 0.0 spread x) ^ 2 * 0.6.
Proof.
  intros Hs Hx. rewrite smoothstep_from_0.
  assert (H1 : x / spread < 1).
  { apply (Rmult_lt_reg_r spread); [exact Hs |].
    unfold Rdiv. rewrite Rmult_assoc, Rinv_l by lra. lra. }
  pose proof (clamp01_bounds (x / spread)) as B.
  pose proof (clamp01_inside _ H1) as Hin.
  set (t := GLSL.clamp (x / spread) 0 1) in *.
  assert (Hf : 1.0 - t * t * (3 - 2 * t) = (1 - t) * (1 - t) * (1 + 2 * t)) by lra.
  rewrite Hf.
  assert (Hp : 0 < (1 - t) * (1 - t) * (1 + 2 * t)).
  { apply Rmult_lt_0_compat; [apply Rmult_lt_0_compat |]; lra. }
  set (q := (1 - t) * (1 - t) * (1 + 2 * t)) in *. nra.
Qed.

Lemma beamIntensity_at_line : Shader.beamIntensity 0 = 0.6.
Proof.
  replace 0 with (- 0) by lra. rewrite beamIntensity_below by lra.
  rewrite smoothstep_from_0, clamp01_low; [lra |].
  unfold Rdiv. rewrite Rmult_0_l. lra.
Qed.

Lemma beamIntensity_cases (d : R) :
  (0 < d /\ Shader.beamIntensity d = (1.0 - GLSL.smoothstep 0.0 180.0 d) ^ 2 * 0.6) \/
  (d <= 0 /\ Shader.beamIntensity d = (1.0 - GLSL.smoothstep 0.0 100.0 (- d)) ^ 2 * 0.6).
Proof.
  destruct (Rlt_le_dec 0 d) as [H | H].
  - left. split; [exact H | apply beamIntensity_above; exact H].
  - right. split; [exact H |].
    replace d with (- (- d)) at 1 by lra. apply beamIntensity_below. lra.
Qed.

Lemma beamIntensity_range (d : R) : 0 <= Shader.beamIntensity d <= 0.6.
Proof.
  destruct (beamIntensity_cases d) as [[_ ->] | [_ ->]]; apply falloff_range.
Qed.

Lemma beamIntensity_dark (d : R) : 180 <= d \/ d <= -100 -> Shader.beamIntensity d = 0.
Proof.
  intros [H | H].
  - apply beamIntensity_far_above; exact H.
  - destruct (beamIntensity_cases d) as [[Hd _] | [_ ->]]; [lra |].
    apply falloff_zero; lra.
Qed.

(** X11.  The beam intensity lies between 0 and 0.6; it is 0.6 on the scan
    line, positive exactly on the band from 100 below the line to 180 above
    it and 0 outside; and on each side of the line it does not increase with
    the distance. *)
Theorem beam_profile (d d' : R) :
  0 <= Shader.beamIntensity d <= 0.6 /\
  Shader.beamIntensity 0 = 0.6 /\
  (180 <= d \/ d <= -100 -> Shader.beamIntensity d = 0) /\
  (-100 < d < 180 -> 0 < Shader.beamIntensity d) /\
  (0 <= d <= d' ->
   Shader.beamIntensity d' <= Shader.beamIntensity d /\
   Shader.beamIntensity (- d') <= Shader.beamIntensity (- d)).
Proof.
  split; [apply beamIntensity_range |].
  split; [exact beamIntensity_at_line |].
  split; [apply beamIntensity_dark |].
  split.
  - intros [Hlo Hhi]. destruct (beamIntensity_cases d) as [[_ ->] | [_ ->]];
      apply falloff_pos; lra.
  - intros [H0 Hdd]. split.
    + destruct (Req_dec d 0) as [-> | Hne].
      * rewrite beamIntensity_at_line. apply beamIntensity_range.
      * rewrite (beamIntensity_above d), (beamIntensity_above d') by lra.
        apply falloff_mono; lra.
    + rewrite (beamIntensity_below d), (beamIntensity_below d') by lra.
      apply falloff_mono; lra.
Qed.

Lemma beam_profile_witness :
  Shader.beamIntensity 200 = 0 /\ 0 < Shader.beamIntensity 50 /\
  Shader.beamIntensity 60 <= Shader.beamIntensity 50 /\
  Shader.beamIntensity (- 60) <= Shader.beamIntensity (- 50).
Proof.
  destruct (beam_profile 200 200) as (_ & _ & Hdark & _).
  destruct (beam_profile 50 60) as (_ & _ & _ & Hpos & Hmono).
  split; [apply Hdark; left; lra |]. split; [apply Hpos; lra |].
  apply Hmono. lra.
Defined.

(** ** X12: the margin clears the shape *)

Lemma scanPosition_outside (topY bottomY progress : R) :
  bottomY <= topY ->
  (progress <= 0 -> topY + 250 <= scanPosition topY bottomY progress) /\
  (1 <= progress -> scanPosition topY bottomY progress <= bottomY - 250).
Proof.
  intros H. unfold scanPosition, lerp. split; intros Hp; nra.
Qed.

(** X12.  With the scan line where the frame puts it for a progress of 0 or
    less, or of 1 or more, every point of the shape, whose height lies
    between the bottom and the top bound, is out of the beam: its beam
    intensity is 0 and the shader colours it black.  So the shape is dark at
    the start and at the end of each sweep, and on a frame that computes a
    progress above 1. *)
Theorem margin_clears_shape (topY bottomY progress : R) (u : Uniforms) (v : Shader.Varyings) :
  bottomY <= vy (Shader.vPosition v) <= topY ->
  progress <= 0 \/ 1 <= progress ->
  uScanY u = scanPosition topY bottomY progress ->
  Shader.beamIntensity (vy (Shader.vPosition v) - uScanY u) = 0 /\
  Shader.main u v = mkColor (red (uBeamColor u) * 0) (green (uBeamColor u) * 0)
                            (blue (uBeamColor u) * 0).
Proof.
  intros [Hlo Hhi] Hp Hu.
  assert (Hbt : bottomY <= topY) by lra.
  destruct (scanPosition_outside topY bottomY progress Hbt) as [Hstart Hend].
  assert (Hdark : Shader.beamIntensity (vy (Shader.vPosition v) - uScanY u) = 0).
  { apply beamIntensity_dark. rewrite Hu. destruct Hp as [Hp | Hp].
    - right. specialize (Hstart Hp). lra.
    - left. specialize (Hend Hp). lra. }
  split; [exact Hdark |].
  unfold Shader.main. rewrite Hdark. unfold Shader.totalLight.
  f_equal; lra.
Qed.

Lemma margin_clears_shape_witness :
  Shader.beamIntensity (10 - scanPosition 25 (-25) 0) = 0 /\
  Shader.beamIntensity (10 - scanPosition 25 (-25) 1.25) = 0.
Proof.
  assert (Hy : -25 <= 10 <= 25) by lra.
  split.
  - exact (proj1 (margin_clears_shape 25 (-25) 0
                    (mkUniforms (mkColor 1 0 0) (scanPosition 25 (-25) 0) 0)
                    (Shader.mkVaryings (mkVector3 0 10 0) (mkVector3 0 0 1) (mkVector3 0 0 1))
                    Hy (or_introl (Rle_refl 0)) eq_refl)).
  - assert (Hp : 1 <= 1.25) by lra.
    exact (proj1 (margin_clears_shape 25 (-25) 1.25
                    (mkUniforms (mkColor 1 0 0) (scanPosition 25 (-25) 1.25) 0)
                    (Shader.mkVaryings (mkVector3 0 10 0) (mkVector3 0 0 1) (mkVector3 0 0 1))
                    Hy (or_intror Hp) eq_refl)).
Defined.

(** ** X13: the light of a fragment *)

Lemma dot_self_nonneg (a : Vector3) : 0 <= GLSL.dot a a.
Proof. unfold GLSL.dot. nra. Qed.

Lemma cauchy_schwarz (a b : Vector3) :
  GLSL.dot a b * GLSL.dot a b <= GLSL.dot a a * GLSL.dot b b.
Proof.
  unfold GLSL.dot. destruct a as [a1 a2 a3], b as [b1 b2 b3]. cbn [vx vy vz].
  assert (H : (a1 * a1 + a2 * a2 + a3 * a3) * (b1 * b1 + b2 * b2 + b3 * b3)
              - (a1 * b1 + a2 * b2 + a3 * b3) * (a1 * b1 + a2 * b2 + a3 * b3)
              = (a1 * b2 - a2 * b1) * (a1 * b2 - a2 * b1)
                + (a1 * b3 - a3 * b1) * (a1 * b3 - a3 * b1)
                + (a2 * b3 - a3 * b2) * (a2 * b3 - a3 * b2)) by ring.
  assert (H1 := Rle_0_sqr (a1 * b2 - a2 * b1)).
  assert (H2 := Rle_0_sqr (a1 * b3 - a3 * b1)).
  assert (H3 := Rle_0_sqr (a2 * b3 - a3 * b2)).
  unfold Rsqr in H1, H2, H3. lra.
Qed.

Lemma dot_normalize (a b : Vector3) :
  0 < GLSL.dot a a -> 0 < GLSL.dot b b ->
  GLSL.dot (GLSL.normalize a) (GLSL.normalize b) * (sqrt (GLSL.dot a a) * sqrt (GLSL.dot b b))
  = GLSL.dot a b.
Proof.
  intros Ha Hb.
  assert (Hla : 0 < sqrt (GLSL.dot a a)) by (apply sqrt_lt_R0; exact Ha).
  assert (Hlb : 0 < sqrt (GLSL.dot b b)) by (apply sqrt_lt_R0; exact Hb).
  unfold GLSL.normalize. set (la := sqrt (GLSL.dot a a)) in *.
  set (lb := sqrt (GLSL.dot b b)) in *.
  clearbody la lb. unfold GLSL.dot. cbn [vx vy vz]. field. split; lra.
Qed.

Lemma NdotV_range (a b : Vector3) :
  0 < GLSL.dot a a -> 0 < GLSL.dot b b ->
  -1 <= GLSL.dot (GLSL.normalize a) (GLSL.normalize b) <= 1.
Proof.
  intros Ha Hb.
  pose proof (dot_normalize a b Ha Hb) as Hn.
  pose proof (cauchy_schwarz a b) as Hcs.
  assert (Hla : 0 < sqrt (GLSL.dot a a)) by (apply sqrt_lt_R0; exact Ha).
  assert (Hlb : 0 < sqrt (GLSL.dot b b)) by (apply sqrt_lt_R0; exact Hb).
  assert (Hsa : sqrt (GLSL.dot a a) * sqrt (GLSL.dot a a) = GLSL.dot a a)
    by (apply sqrt_sqrt; lra).
  assert (Hsb : sqrt (GLSL.dot b b) * sqrt (GLSL.dot b b) = GLSL.dot b b)
    by (apply sqrt_sqrt; lra).
  set (n := GLSL.dot (GLSL.normalize a) (GLSL.normalize b)) in *.
  set (la := sqrt (GLSL.dot a a)) in *. set (lb := sqrt (GLSL.dot b b)) in *.
  set (q := GLSL.dot a b) in *.
  assert (Hp : 0 < la * lb) by (apply Rmult_lt_0_compat; assumption).
  assert (Hq : q * q <= (la * lb) * (la * lb)).
  { replace ((la * lb) * (la * lb)) with ((la * la) * (lb * lb)) by ring.
    rewrite Hsa, Hsb. exact Hcs. }
  set (p := la * lb) in *.
  assert (Hnn : (n * p) * (n * p) <= p * p) by (rewrite Hn; exact Hq).
  assert (Hn2 : n * n <= 1).
  { assert (Hpp : 0 < p * p) by (apply Rmult_lt_0_compat; assumption).
    apply (Rmult_le_reg_r (p * p)); [exact Hpp |].
    replace (n * n * (p * p)) with ((n * p) * (n * p)) by ring. lra. }
  split; nra.
Qed.

Lemma rimOf_range (NdotV : R) : -1 <= NdotV <= 1 -> 0 <= Shader.rimOf NdotV <= 1.
Proof.
  intros [Hlo Hhi]. unfold Shader.rimOf, GLSL.pow2, Rmax.
  destruct (Rle_dec 0.0 NdotV); split; nra.
Qed.

Lemma rimOf_back (NdotV : R) : NdotV <= 0 -> Shader.rimOf NdotV = 1.
Proof.
  intros H. unfold Shader.rimOf, GLSL.pow2, Rmax.
  destruct (Rle_dec 0.0 NdotV); [replace NdotV with 0 by lra |]; lra.
Qed.

(** X13.  For a fragment whose normal and view vectors are not zero, the
    cosine [NdotV] of the normalised vectors lies in [[-1, 1]] and the rim term
    in [[0, 1]], so the light the shader multiplies the beam colour with lies
    between [beam * (1 + flash)] and [2.6 * beam * (1 + flash)]; with the
    flash in [[0, 0.5]] it lies between 0 and 2.34.  A surface facing away from
    the viewer ([NdotV <= 0]) gets the full factor 2.6. *)
Theorem fragment_light_bounded (u : Uniforms) (v : Shader.Varyings) :
  0 < GLSL.dot (Shader.vNormal v) (Shader.vNormal v) ->
  0 < GLSL.dot (Shader.vViewPosition v) (Shader.vViewPosition v) ->
  0 <= uClickFlash u <= 0.5 ->
  exists beam NdotV light,
    beam = Shader.beamIntensity (vy (Shader.vPosition v) - uScanY u) /\
    NdotV = GLSL.dot (GLSL.normalize (Shader.vNormal v))
                     (GLSL.normalize (Shader.vViewPosition v)) /\
    Shader.main u v = mkColor (red (uBeamColor u) * light) (green (uBeamColor u) * light)
                              (blue (uBeamColor u) * light) /\
    -1 <= NdotV <= 1 /\
    beam * (1 + uClickFlash u) <= light <= 2.6 * beam * (1 + uClickFlash u) /\
    0 <= light <= 2.34 /\
    (NdotV <= 0 -> light = 2.6 * beam * (1 + uClickFlash u)).
Proof.
  intros Hn Hv Hflash.
  pose proof (NdotV_range _ _ Hn Hv) as Hrange.
  pose proof (beamIntensity_range (vy (Shader.vPosition v) - uScanY u)) as Hbeam.
  set (beam := Shader.beamIntensity (vy (Shader.vPosition v) - uScanY u)) in *.
  set (NdotV := GLSL.dot (GLSL.normalize (Shader.vNormal v))
                         (GLSL.normalize (Shader.vViewPosition v))) in *.
  pose proof (rimOf_range NdotV Hrange) as Hrim.
  exists beam, NdotV, (Shader.totalLight beam (Shader.rimOf NdotV) (uClickFlash u)).
  split; [reflexivity |]. split; [reflexivity |]. split; [reflexivity |].
  split; [exact Hrange |].
  unfold Shader.totalLight.
  set (rim := Shader.rimOf NdotV) in *. set (f := uClickFlash u) in *.
  assert (Hbr : 0 <= beam * rim) by (apply Rmult_le_pos; lra).
  assert (Hbr1 : beam * rim <= beam) by nra.
  assert (Hbf : 0 <= beam * f) by (apply Rmult_le_pos; lra).
  assert (Hbrf : 0 <= beam * rim * f) by (apply Rmult_le_pos; lra).
  assert (Hbrf1 : beam * rim * f <= beam * f) by nra.
  assert (Hbf2 : beam * f <= 0.6 * 0.5) by nra.
  split; [split; nra |]. split; [split; nra |].
  intros Hback. subst rim. rewrite (rimOf_back NdotV Hback). lra.
Qed.

Lemma fragment_light_bounded_witness :
  exists beam NdotV light,
    beam = Shader.beamIntensity (10 - 20) /\
    NdotV = GLSL.dot (GLSL.normalize (mkVector3 0 0 2)) (GLSL.normalize (mkVector3 0 3 4)) /\
    -1 <= NdotV <= 1 /\
    beam * (1 + 0.5) <= light <= 2.6 * beam * (1 + 0.5) /\
    0 <= light <= 2.34.
Proof.
  assert (Hn : 0 < GLSL.dot (mkVector3 0 0 2) (mkVector3 0 0 2))
    by (unfold GLSL.dot; cbn [vx vy vz]; lra).
  assert (Hv : 0 < GLSL.dot (mkVector3 0 3 4) (mkVector3 0 3 4))
    by (unfold GLSL.dot; cbn [vx vy vz]; lra).
  assert (Hf : 0 <= 0.5 <= 0.5) by lra.
  destruct (fragment_light_bounded
              (mkUniforms (mkColor 1 1 1) 20 0.5)
              (Shader.mkVaryings (mkVector3 0 10 0) (mkVector3 0 0 2) (mkVector3 0 3 4))
              Hn Hv Hf)
    as (beam & NdotV & light & Hb & Hd & _ & Hrange & Hlight & Hbound & _).
  exists beam, NdotV, light.
  split; [exact Hb |]. split; [exact Hd |]. split; [exact Hrange |].
  split; [exact Hlight | exact Hbound].
Defined.

(** ** X14: the first letter *)

Lemma initial_angle (r : R) : isRandom r -> - PI <= (r - 0.5) * JS.Math_PI * 2 < PI.
Proof.
  intros [H0 H1]. unfold JS.Math_PI. pose proof PI_RGT_0 as Hpi. split; nra.
Qed.

(** Before the font arrives there is no mesh for a move to turn: pointer and
    touch events keep a state that awaits the font so. *)
Lemma awaiting_pointer (r : Euler) (e : Event) (s : State) :
  isPointerEvent e = true -> awaiting r s -> awaiting r (after e s).
Proof.
  intros He (Hf & Hm & Hv & Hr & Hc).
  assert (Hdown : forall x y now, awaiting r (onDown x y now s)).
  { intros x y now. unfold awaiting.
    change (currentFont (onDown x y now s)) with (currentFont s).
    change (currentMesh (onDown x y now s)) with (currentMesh s).
    change (rotationVelocity (onDown x y now s)) with (mkVector2 0 0).
    change (currentRotation (onDown x y now s)) with (currentRotation s).
    change (charIndex (onDown x y now s)) with (charIndex s).
    split; [exact Hf |]. split; [exact Hm |]. split; [reflexivity |].
    split; [exact Hr | exact Hc]. }
  assert (Hmove : forall x y, awaiting r (onMove x y s)).
  { intros x y. rewrite (onMove_no_mesh x y s Hm).
    split; [exact Hf |]. split; [exact Hm |]. split; [exact Hv |].
    split; [exact Hr | exact Hc]. }
  assert (Hup : forall x y now, awaiting r (onUp x y now s)).
  { intros x y now. unfold awaiting, onUp. destruct (isTap _ _).
    - split; [exact Hf |]. split; [exact Hm |]. split; [exact Hv |].
      split; [exact Hr | exact Hc].
    - split; [exact Hf |]. split; [exact Hm |]. split; [exact Hv |].
      split; [exact Hr | exact Hc]. }
  destruct e as [x y now | x y | x y now | ts now | ts | ts now | font rnd t0 now rnd' | now rnd];
    try discriminate He; unfold after; cbn [dispatch].
  - apply Hdown.
  - apply Hmove.
  - apply Hup.
  - destruct ts as [| t ts]; cbn [onTouchStart]; [| apply Hdown].
    split; [exact Hf |]. split; [exact Hm |]. split; [exact Hv |].
    split; [exact Hr | exact Hc].
  - destruct ts as [| t ts]; cbn [onTouchMove]; [| apply Hmove].
    split; [exact Hf |]. split; [exact Hm |]. split; [exact Hv |].
    split; [exact Hr | exact Hc].
  - destruct ts as [| t ts]; cbn [onTouchEnd]; apply Hup.
Qed.

Lemma awaiting_run (r : Euler) (es : list Event) (s : State) :
  forallb isPointerEvent es = true -> reachable s -> awaiting r s ->
  reachable (run es s) /\ awaiting r (run es s).
Proof.
  revert s. induction es as [| e es IH]; intros s Hes Hreach Hs; [split; assumption |].
  cbn [forallb] in Hes. apply andb_true_iff in Hes. destruct Hes as [He Hes].
  change (run (e :: es) s) with (run es (after e s)).
  apply IH; [exact Hes | | apply awaiting_pointer; assumption].
  apply reachable_after; [exact Hreach | |]; destruct e; try discriminate He; exact I.
Qed.

Lemma awaiting_initial (r1 r2 r3 : R) :
  awaiting (currentRotation (initialState r1 r2 r3)) (initialState r1 r2 r3).
Proof.
  split; [reflexivity |]. split; [reflexivity |]. split; [reflexivity |].
  split; reflexivity.
Qed.

Lemma run_snoc (es : list Event) (e : Event) (s : State) :
  run (es ++ [e]) s = after e (run es s).
Proof. unfold run. rewrite fold_left_app. reflexivity. Qed.

(** A reachable state without font is the initial state after pointer and
    touch events. *)
Lemma awaiting_form (s : State) :
  reachable s -> currentFont s = None ->
  exists r1 r2 r3 es,
    forallb isPointerEvent es = true /\ s = run es (initialState r1 r2 r3).
Proof.
  induction 1 as [r1 r2 r3 | s s' e Hreach IH Hen Hwf Hd]; intros Hfont.
  - exists r1, r2, r3, []. split; reflexivity.
  - destruct (isPointerEvent e) eqn:He.
    + destruct (pointer_show e s He) as (s2 & Hd2 & Hshow).
      rewrite Hd in Hd2. injection Hd2 as <-.
      destruct Hshow as (_ & _ & Hf & _).
      rewrite Hf in Hfont.
      destruct (IH Hfont) as (r1 & r2 & r3 & es & Hes & Hs).
      exists r1, r2, r3, (es ++ [e]). split.
      * rewrite forallb_app, Hes. cbn [forallb]. rewrite He. reflexivity.
      * rewrite run_snoc, <- Hs. unfold after. rewrite Hd. reflexivity.
    + exfalso.
      pose proof (reachable_invariant s Hreach) as [Hidx Hload].
      destruct e as [x y now | x y | x y now | ts now | ts | ts now
                    | font rnd t0 now rnd' | now rnd]; try discriminate He.
      * destruct Hwf as [Hr Hr'].
        destruct (onFontLoaded_total font rnd t0 now rnd' s Hidx Hr Hr')
          as (s1 & m1 & s2 & _ & _ & _ & Hd2 & _ & Hf2 & _).
        cbn [dispatch] in Hd. rewrite Hd in Hd2. injection Hd2 as <-. congruence.
      * destruct (animate_total now rnd s Hidx Hwf) as (s2 & Hd2 & _ & Hf2 & _).
        cbn [dispatch] in Hd. rewrite Hd in Hd2. injection Hd2 as <-.
        cbn [enabled] in Hen.
        destruct Hload as [(_ & _ & Hoff) | (font & m & Hf & _)]; congruence.
Qed.

(** X14.  The script starts from a random orientation, each angle in
    [[-PI, PI)].  The font can arrive in any state reachable without it, and
    such a state is the initial one after pointer and touch events, which
    have left the orientation alone.  The callback returns with a first mesh.
    If no press is being held when the font arrives, the mesh stands at the
    initial orientation plus the drift of the callback's own frame, nothing
    else having turned it; if a press is being held, the frame skips the
    drift and the mesh stands at the initial orientation exactly.  In both
    cases, if that frame comes within the cycle duration of the callback's
    clock reading, the mesh shows the first character, K, the index is 0 and
    the cycle starts at that reading. *)
Theorem first_letter (r1 r2 r3 rnd t0 now rnd' : R) (font : Font) (es : list Event) :
  isRandom r1 -> isRandom r2 -> isRandom r3 -> isRandom rnd -> isRandom rnd' ->
  forallb isPointerEvent es = true ->
  - PI <= ex (currentRotation (initialState r1 r2 r3)) < PI /\
  - PI <= ey (currentRotation (initialState r1 r2 r3)) < PI /\
  - PI <= ez (currentRotation (initialState r1 r2 r3)) < PI /\
  (forall s, reachable s -> currentFont s = None ->
     exists q1 q2 q3 es',
       forallb isPointerEvent es' = true /\ s = run es' (initialState q1 q2 q3)) /\
  reachable (run es (initialState r1 r2 r3)) /\
  enabled (FontLoaded font rnd t0 now rnd') (run es (initialState r1 r2 r3)) /\
  currentRotation (run es (initialState r1 r2 r3)) = currentRotation (initialState r1 r2 r3) /\
  exists s' m,
    dispatch (FontLoaded font rnd t0 now rnd') (run es (initialState r1 r2 r3)) = Some s' /\
    currentMesh s' = Some m /\
    (isDragging (run es (initialState r1 r2 r3)) = false ->
     ex (rotation m) = ex (currentRotation (initialState r1 r2 r3)) + 0.0002 /\
     ey (rotation m) = ey (currentRotation (initialState r1 r2 r3)) + 0.0003 /\
     ez (rotation m) = ez (currentRotation (initialState r1 r2 r3)) + 0.0001) /\
    (isDragging (run es (initialState r1 r2 r3)) = true ->
     rotation m = currentRotation (initialState r1 r2 r3)) /\
    (now - t0 <= CYCLE_DURATION ->
     text (geometry m) = "K"%string /\ charIndex s' = 0%Z /\ meshStartTime s' = t0).
Proof.
  intros Hr1 Hr2 Hr3 Hrnd Hrnd' Hes.
  split; [apply initial_angle, Hr1 |].
  split; [apply initial_angle, Hr2 |].
  split; [apply initial_angle, Hr3 |].
  split; [exact awaiting_form |].
  destruct (awaiting_run (currentRotation (initialState r1 r2 r3)) es (initialState r1 r2 r3)
              Hes (reach_init r1 r2 r3) (awaiting_initial r1 r2 r3))
    as (Hreach & Hf0 & Hm0 & Hv0 & Hr0 & Hc0).
  set (init := initialState r1 r2 r3) in *.
  set (s0 := run es init) in *.
  split; [exact Hreach |].
  split; [exact Hf0 |].
  split; [exact Hr0 |].
  cbn [dispatch]. unfold onFontLoaded.
  assert (Hidx0 : validIndex (charIndex (set_currentFont (Some font) s0))).
  { change (validIndex (charIndex s0)). rewrite Hc0.
    unfold validIndex. rewrite CHARS_length. lia. }
  destruct (createLetter_spec rnd (set_currentFont (Some font) s0) font eq_refl Hidx0 Hrnd)
    as (s1 & m1 & char & Hc & Hchar & Hm1 & _ & _ & Htext & Hrot1 & _ & _ & _ & _ & _ & _ & _
        & Hsame).
  destruct Hsame as (Hci & _ & _ & Hdrag1 & _ & Hvel1 & _).
  change (charIndex (set_currentFont (Some font) s0)) with (charIndex s0) in Hchar, Hci.
  change (isDragging (set_currentFont (Some font) s0)) with (isDragging s0) in Hdrag1.
  change (rotationVelocity (set_currentFont (Some font) s0))
    with (rotationVelocity s0) in Hvel1.
  rewrite Hc0 in Hchar, Hci. rewrite Hv0 in Hvel1.
  assert (Hcarried : rotation m1 = currentRotation init).
  { rewrite Hrot1. unfold carriedRotation.
    change (currentMesh (set_currentFont (Some font) s0)) with (currentMesh s0).
    rewrite Hm0. exact Hr0. }
  rewrite Hc. cbn [JS.bind].
  assert (Hidx1 : validIndex (charIndex (set_meshStartTime t0 s1))).
  { change (validIndex (charIndex s1)). rewrite Hci.
    unfold validIndex. rewrite CHARS_length. lia. }
  destruct (animate_rotation now rnd' (set_meshStartTime t0 s1) m1 Hm1 Hidx1 Hrnd')
    as (s' & m' & Ha & Hm' & Hrot & _).
  exists s', m'. split; [exact Ha |]. split; [exact Hm' |].
  split; [| split].
  - intros Hfree.
    assert (Hturn : turned (set_meshStartTime t0 s1) (rotation m1)
                    = mkEuler (ex (rotation m1) + 0 + 0.0002) (ey (rotation m1) + 0 + 0.0003)
                              (ez (rotation m1) + 0.0001)).
    { unfold turned, damped.
      change (isDragging (set_meshStartTime t0 s1)) with (isDragging s1).
      change (rotationVelocity (set_meshStartTime t0 s1)) with (rotationVelocity s1).
      rewrite Hdrag1, Hvel1, Hfree.
      cbn [v2x v2y].
      rewrite (proj2 (isSlow_iff (mkVector2 (0 * friction) (0 * friction)))).
      - reflexivity.
      - cbn [v2x v2y]. unfold friction. split; apply Rabs_small; lra. }
    rewrite Hrot, Hturn, Hcarried. cbn [ex ey ez].
    split; [lra |]. split; lra.
  - intros Hheld.
    rewrite Hrot. unfold turned.
    change (isDragging (set_meshStartTime t0 s1)) with (isDragging s1).
    rewrite Hdrag1, Hheld. exact Hcarried.
  - intros Hle.
    assert (Hle' : now - meshStartTime (set_meshStartTime t0 s1) <= CYCLE_DURATION) by exact Hle.
    rewrite (animate_idle now rnd' (set_meshStartTime t0 s1) Hle') in Ha.
    change (currentMesh (set_meshStartTime t0 s1)) with (currentMesh s1) in Ha.
    rewrite Hm1 in Ha. injection Ha as Hs'.
    destruct (afterCycle_mesh (now - meshStartTime (set_meshStartTime t0 s1))
                (set_animating true (set_meshStartTime t0 s1)) m1 Hm1) as (m2 & Hm2 & _ & Hgeo).
    destruct (afterCycle_controls (now - meshStartTime (set_meshStartTime t0 s1))
                (set_animating true (set_meshStartTime t0 s1))) as (Hc2 & Hs2 & _).
    assert (Hmesh2 : currentMesh s' = Some m2) by (rewrite <- Hs'; exact Hm2).
    assert (Hci2 : charIndex s' = charIndex s1) by (rewrite <- Hs'; exact Hc2).
    assert (Hst2 : meshStartTime s' = t0) by (rewrite <- Hs'; exact Hs2).
    rewrite Hm' in Hmesh2. injection Hmesh2 as ->.
    rewrite CHARS_eval in Hchar. injection Hchar as <-.
    split; [rewrite Hgeo; exact Htext |]. split; [rewrite Hci2; exact Hci | exact Hst2].
Qed.

Lemma first_letter_witness :
  (exists s' m,
     dispatch (FontLoaded sampleFont 0 0 0 0) (run [] (initialState 0.5 0.5 0.5)) = Some s' /\
     currentMesh s' = Some m /\
     ex (rotation m) = ex (currentRotation (initialState 0.5 0.5 0.5)) + 0.0002 /\
     text (geometry m) = "K"%string /\ charIndex s' = 0%Z) /\
  (exists s' m,
     dispatch (FontLoaded sampleFont 0 0 0 0)
       (run [MouseDown 100 100 0; MouseMove 150 120] (initialState 0.5 0.5 0.5)) = Some s' /\
     currentMesh s' = Some m /\
     rotation m = currentRotation (initialState 0.5 0.5 0.5) /\
     text (geometry m) = "K"%string /\ charIndex s' = 0%Z).
Proof.
  assert (Hh : isRandom 0.5) by (unfold isRandom; lra).
  assert (Hle : 0 - 0 <= CYCLE_DURATION) by (unfold CYCLE_DURATION; lra).
  split.
  - destruct (first_letter 0.5 0.5 0.5 0 0 0 0 sampleFont [] Hh Hh Hh random_0 random_0 eq_refl)
      as (_ & _ & _ & _ & _ & _ & _ & s' & m & Hd & Hm & Hfree & _ & Hfirst).
    destruct (Hfree eq_refl) as (Hx & _).
    destruct (Hfirst Hle) as (Htext & Hci & _).
    exists s', m. split; [exact Hd |]. split; [exact Hm |]. split; [exact Hx |].
    split; [exact Htext | exact Hci].
  - destruct (first_letter 0.5 0.5 0.5 0 0 0 0 sampleFont
                [MouseDown 100 100 0; MouseMove 150 120] Hh Hh Hh random_0 random_0 eq_refl)
      as (_ & _ & _ & _ & _ & _ & _ & s' & m & Hd & Hm & _ & Hheld & Hfirst).
    destruct (Hfirst Hle) as (Htext & Hci & _).
    exists s', m. split; [exact Hd |]. split; [exact Hm |]. split; [exact (Hheld eq_refl) |].
    split; [exact Htext | exact Hci].
Defined.
